(** * Synthetic-query scheduler and node registry of the validator control node

    A shallow embedding of
    - [validator/control_node/src/cycle/schedule_synthetic_queries.py]
    - [validator/db/src/sql/nodes.py]
    together with the properties their specification states about them.

    Conventions of the embedding.
    - Python [float] values (clock readings, intervals, capacities, scores)
      are exact rationals [Q]; rounding of binary floating point is not
      modelled.  Python [int] is [Z].
    - Effects are explicit: the scheduler runs in a state-and-exception monad
      over a [World] holding the shared Redis store, the clock and random
      sources and logs of the observable calls (sleeps, enqueues, gauges).
    - [heapq] is embedded as the list-based binary heap of the Python
      standard library, ordered by [TaskScheduleInfo.__lt__]. *)

From Stdlib Require Import ZArith QArith Qround Lia Lqa.
From stdpp Require Import base option list gmap strings pretty relations sorting.

Local Open Scope string_scope.
Local Open Scope list_scope.
Local Open Scope Z_scope.

(** ** Python numerics *)

(** [x < y] on floats, as a boolean. *)
Definition Qltb (x y : Q) : bool := negb (Qle_bool y x).

(** [int(x)] of a float: truncation towards zero. *)
Definition py_int (x : Q) : Z := Z.quot (Qnum x) (Zpos (Qden x)).

(** [min(x, y)]: the first argument unless the second is strictly smaller. *)
Definition py_min (x y : Q) : Q := if Qltb y x then y else x.

(** The sum of a list of durations. *)
Definition Qsum (xs : list Q) : Q := fold_right Qplus 0%Q xs.

(** [sum(...)] of floats, starting from the integer 0. *)
Definition py_sum (xs : list Q) : Q := fold_left Qplus xs 0%Q.

(** ** Exceptions and results *)

Inductive PyExc : Set :=
| ZeroDivisionError
| JSONDecodeError
| AttributeError
| ValueError (msg : string).

Inductive Res (A : Type) : Type :=
| Ok (a : A)
| Raise (e : PyExc).
Arguments Ok {A} a.
Arguments Raise {A} e.

(** ** Data model of the scheduler *)

Module Contender.
(** The projection of [validator.models.Contender] the scheduler reads. *)
Record t : Set := mk { task : string; capacity_to_score : Q }.
End Contender.

Record TaskConfig : Set := {
  volume_to_requests_conversion : Q;
  enabled : bool
}.

Record TaskScheduleInfo : Set := {
  task : string;
  total_requests : Z;
  interval : Q;
  next_schedule_time : Q;
  remaining_requests : Z
}.

(** [TaskScheduleInfo.__lt__] *)
Definition TaskScheduleInfo_lt (self other : TaskScheduleInfo) : bool :=
  Qltb (next_schedule_time self) (next_schedule_time other).

(** ** [heapq] on Python lists *)

Module heapq.
Section Heap.
Context {A : Type} (lt : A -> A -> bool).

(** The [while pos > startpos] loop of [_siftdown]; it returns the list
    with the parents moved down and the final position of the hole. *)
Fixpoint siftdown_loop (fuel : nat) (heap : list A) (startpos pos : nat)
    (newitem : A) : list A * nat :=
  match fuel with
  | O => (heap, pos)
  | S fuel' =>
      if decide (startpos < pos)%nat then
        let parentpos := ((pos - 1) / 2)%nat in
        match heap !! parentpos with
        | Some parent =>
            if lt newitem parent
            then siftdown_loop fuel' (<[pos := parent]> heap) startpos parentpos newitem
            else (heap, pos)
        | None => (heap, pos)
        end
      else (heap, pos)
  end.

Definition _siftdown (heap : list A) (startpos pos : nat) : list A :=
  match heap !! pos with
  | Some newitem =>
      let '(heap', pos') := siftdown_loop pos heap startpos pos newitem in
      <[pos' := newitem]> heap'
  | None => heap
  end.

(** The [while childpos < endpos] loop of [_siftup]: the smaller child
    bubbles up until the hole reaches a leaf. *)
Fixpoint siftup_loop (fuel : nat) (heap : list A) (pos : nat) : list A * nat :=
  match fuel with
  | O => (heap, pos)
  | S fuel' =>
      let endpos := length heap in
      let childpos := (2 * pos + 1)%nat in
      if decide (childpos < endpos)%nat then
        let rightpos := (childpos + 1)%nat in
        let childpos :=
          match heap !! childpos, heap !! rightpos with
          | Some l, Some r => if negb (lt l r) then rightpos else childpos
          | _, _ => childpos
          end in
        match heap !! childpos with
        | Some child => siftup_loop fuel' (<[pos := child]> heap) childpos
        | None => (heap, pos)
        end
      else (heap, pos)
  end.

Definition _siftup (heap : list A) (pos : nat) : list A :=
  match heap !! pos with
  | Some newitem =>
      let '(heap', pos') := siftup_loop (length heap) heap pos in
      _siftdown (<[pos' := newitem]> heap') pos pos'
  | None => heap
  end.

(** [heapq.heappush(heap, item)] *)
Definition heappush (heap : list A) (item : A) : list A :=
  _siftdown (heap ++ [item]) 0 (length heap).

(** [heapq.heappop(heap)]; [None] stands for the [IndexError] on an
    empty list. *)
Definition heappop (heap : list A) : option (A * list A) :=
  match reverse heap with
  | [] => None
  | lastelt :: rev_rest =>
      let heap := reverse rev_rest in
      match heap with
      | [] => Some (lastelt, [])
      | returnitem :: _ => Some (returnitem, _siftup (<[0%nat := lastelt]> heap) 0)
      end
  end.
End Heap.
End heapq.

(** *** The heap invariant *)

Section HeapOrder.
Context {A : Type} (lt : A -> A -> bool).

(** [not (y < x)], the order the heap keeps between a parent and a child. *)
Definition heap_le (x y : A) : bool := negb (lt y x).

(** The entry at [i] is not smaller than its parent's. *)
Definition heap_edge (heap : list A) (i : nat) : Prop :=
  forall x y, heap !! ((i - 1) / 2)%nat = Some x -> heap !! i = Some y -> heap_le x y = true.

(** The heap invariant of [heapq]: [heap[(i - 1) // 2] <= heap[i]] for
    every [i > 0]. *)
Definition is_heap (heap : list A) : Prop := forall i, (0 < i)%nat -> heap_edge heap i.

(** The same, as a check. *)
Definition is_heapb (heap : list A) : bool :=
  forallb
    (fun i => match heap !! ((i - 1) / 2)%nat, heap !! i with
              | Some x, Some y => heap_le x y
              | _, _ => true
              end)
    (seq 1 (length heap - 1)).

(** While an item climbs from [pos]: every edge holds but the one above
    [pos], and the entries below [pos] are not smaller than the one above
    it. *)
Definition climbing (heap : list A) (pos : nat) : Prop :=
  (forall i, (0 < i)%nat -> i <> pos -> heap_edge heap i)
  /\ (forall c x y, (0 < pos)%nat -> (0 < c)%nat -> ((c - 1) / 2)%nat = pos ->
                    heap !! ((pos - 1) / 2)%nat = Some x -> heap !! c = Some y ->
                    heap_le x y = true).

(** While the hole sinks from [pos]: every edge holds but those at
    [pos], and the entries below [pos] are not smaller than the one above
    it. *)
Definition sinking (heap : list A) (pos : nat) : Prop :=
  (forall i, (0 < i)%nat -> i <> pos -> ((i - 1) / 2)%nat <> pos -> heap_edge heap i)
  /\ (forall c x y, (0 < pos)%nat -> (0 < c)%nat -> ((c - 1) / 2)%nat = pos ->
                    heap !! ((pos - 1) / 2)%nat = Some x -> heap !! c = Some y ->
                    heap_le x y = true).
End HeapOrder.

(** ** JSON values, as [json.loads] returns them *)

#[warnings="-register-all"]
Inductive json : Type :=
| JNull
| JBool (b : bool)
| JNumber (x : Q)
| JString (s : string)
| JArray (items : list json)
| JObject (fields : list (string * json)).

(** [d.get(key)] on the dict decoded from a JSON object: when a name is
    repeated in the text, the last pair wins. *)
Fixpoint dict_get (fields : list (string * json)) (key : string) : option json :=
  match fields with
  | [] => None
  | (k, v) :: rest =>
      match dict_get rest key with
      | Some v' => Some v'
      | None => if String.eqb k key then Some v else None
      end
  end.

(** [value != s] for a string constant [s]; [None] is Python's [None]. *)
Definition py_ne_str (value : option json) (s : string) : bool :=
  match value with
  | Some (JString s') => negb (String.eqb s' s)
  | _ => true
  end.

(** ** The shared coordination store *)

(** The two kinds of keys the scheduler touches: the integer counters, and
    the list under [rcst.QUERY_QUEUE_KEY].  A counter is kept as the integer
    it stands for; its encoding as a string on [set] and the [int(value)]
    on [get] are not modelled.  An empty list is an absent key. *)
Record Redis : Type := {
  counters : gmap string Z;
  query_queue : list string
}.

Definition set_counters (m : gmap string Z) (r : Redis) : Redis :=
  {| counters := m; query_queue := query_queue r |}.
Definition set_query_queue (q : list string) (r : Redis) : Redis :=
  {| counters := counters r; query_queue := q |}.

Inductive Gauge : Set :=
| GAUGE_REQUESTS_TO_SKIP
| GAUGE_SCHEDULE_REMAINING_REQUESTS
| GAUGE_LATEST_REMAINING_REQUESTS
| GAUGE_TOTAL_REQUESTS.

(** ** External dependencies of the scheduler

    Constants and helpers the module imports from elsewhere in the code
    base; the scheduler is embedded over any choice of them. *)
Class Deps : Type := {
  (** [ccst.SCORING_PERIOD_TIME] *)
  SCORING_PERIOD_TIME : Q;
  (** [tcfg.get_task_configs()] *)
  get_task_configs : gmap string TaskConfig;
  (** [putils.load_contenders(psql_db)] *)
  load_contenders : list Contender.t;
  (** the effect of [putils.add_synthetic_query_to_queue(redis_db, task, max_len)]
      on the store *)
  add_synthetic_query_to_queue : string -> Z -> Redis -> Redis;
  (** [gcst.SYNTHETIC] *)
  SYNTHETIC : string;
  (** [json.loads]; [None] is a [JSONDecodeError] *)
  json_loads : string -> option json
}.

Record Config : Set := {
  scoring_period_time_multiplier : Q
}.

(** Modelled from the spec: [tcfg.get_enabled_task_config] is defined in
    [core.task_config], outside this module; a task's configuration is
    looked up by task identifier and is absent when the task has none or it
    is disabled. *)
Definition get_enabled_task_config `{Deps} (task : string) : option TaskConfig :=
  match get_task_configs !! task with
  | Some cfg => if enabled cfg then Some cfg else None
  | None => None
  end.

(** ** The world the scheduler runs in *)

Record World : Type := {
  redis_db : Redis;
  (** the [n]-th call of [time.time()] returns [time_src n] *)
  time_src : nat -> Q;
  time_calls : nat;
  (** the [n]-th call of [random.random()] returns [rand_src n] *)
  rand_src : nat -> Q;
  rand_calls : nat;
  (** durations passed to [asyncio.sleep], oldest first *)
  slept : list Q;
  (** calls of the enqueue utility: task and [max_len], oldest first *)
  enqueued : list (string * Z);
  (** gauge updates, oldest first *)
  gauges : list (Gauge * Z * string)
}.

Definition with_redis (f : Redis -> Redis) (w : World) : World :=
  {| redis_db := f (redis_db w);
     time_src := time_src w; time_calls := time_calls w;
     rand_src := rand_src w; rand_calls := rand_calls w;
     slept := slept w; enqueued := enqueued w; gauges := gauges w |}.

Definition with_time_calls (n : nat) (w : World) : World :=
  {| redis_db := redis_db w;
     time_src := time_src w; time_calls := n;
     rand_src := rand_src w; rand_calls := rand_calls w;
     slept := slept w; enqueued := enqueued w; gauges := gauges w |}.

Definition with_rand_calls (n : nat) (w : World) : World :=
  {| redis_db := redis_db w;
     time_src := time_src w; time_calls := time_calls w;
     rand_src := rand_src w; rand_calls := n;
     slept := slept w; enqueued := enqueued w; gauges := gauges w |}.

Definition with_slept (l : list Q) (w : World) : World :=
  {| redis_db := redis_db w;
     time_src := time_src w; time_calls := time_calls w;
     rand_src := rand_src w; rand_calls := rand_calls w;
     slept := l; enqueued := enqueued w; gauges := gauges w |}.

Definition with_enqueued (l : list (string * Z)) (w : World) : World :=
  {| redis_db := redis_db w;
     time_src := time_src w; time_calls := time_calls w;
     rand_src := rand_src w; rand_calls := rand_calls w;
     slept := slept w; enqueued := l; gauges := gauges w |}.

Definition with_gauges (l : list (Gauge * Z * string)) (w : World) : World :=
  {| redis_db := redis_db w;
     time_src := time_src w; time_calls := time_calls w;
     rand_src := rand_src w; rand_calls := rand_calls w;
     slept := slept w; enqueued := enqueued w; gauges := l |}.

(** ** State-and-exception monad *)

Definition M (A : Type) : Type := World -> Res A * World.

Definition ret {A} (a : A) : M A := fun w => (Ok a, w).

Definition bind {A B} (m : M A) (k : A -> M B) : M B :=
  fun w =>
    match m w with
    | (Ok a, w') => k a w'
    | (Raise e, w') => (Raise e, w')
    end.

Definition lift {A} (r : Res A) : M A := fun w => (r, w).

Declare Scope py_scope.
Delimit Scope py_scope with py.
Notation "x <- m ;; k" := (bind m (fun x => k))
  (at level 100, m at next level, right associativity) : py_scope.
Notation "m ;;; k" := (bind m (fun _ => k))
  (at level 100, right associativity) : py_scope.
Local Open Scope py_scope.

(** *** Primitive effects *)

Definition time_time : M Q := fun w =>
  (Ok (time_src w (time_calls w)), with_time_calls (S (time_calls w)) w).

Definition random_random : M Q := fun w =>
  (Ok (rand_src w (rand_calls w)), with_rand_calls (S (rand_calls w)) w).

Definition asyncio_sleep (delay : Q) : M unit := fun w =>
  (Ok tt, with_slept (slept w ++ [delay]) w).

Definition gauge_set (g : Gauge) (value : Z) (task_label : string) : M unit := fun w =>
  (Ok tt, with_gauges (gauges w ++ [(g, value, task_label)]) w).

(** [redis_db.set(key, value)] *)
Definition redis_set (key : string) (value : Z) : M unit := fun w =>
  (Ok tt, with_redis (fun r => set_counters (<[key := value]> (counters r)) r) w).

(** [redis_db.get(key)] *)
Definition redis_get (key : string) : M (option Z) := fun w =>
  (Ok (counters (redis_db w) !! key), w).

(** [redis_db.lrange(QUERY_QUEUE_KEY, 0, -1)] *)
Definition redis_lrange_all : M (list string) := fun w =>
  (Ok (query_queue (redis_db w)), w).

(** [redis_db.delete(QUERY_QUEUE_KEY)] *)
Definition redis_delete_queue : M unit := fun w =>
  (Ok tt, with_redis (set_query_queue []) w).

(** [redis_db.rpush(QUERY_QUEUE_KEY, *items)] *)
Definition redis_rpush (items : list string) : M unit := fun w =>
  (Ok tt, with_redis (fun r => set_query_queue (query_queue r ++ items) r) w).

(** ** [schedule_synthetic_queries.py] *)

Section Scheduler.
Context `{Deps}.

Definition _load_contenders : M (list Contender.t) := ret load_contenders.

(** [task_groups[task].append(contender)], creating the entry at the end
    of the dict when the task is new: the dict keeps insertion order. *)
Fixpoint group_append (task_groups : list (string * list Contender.t))
    (task : string) (contender : Contender.t) : list (string * list Contender.t) :=
  match task_groups with
  | [] => [(task, [contender])]
  | (t, cs) :: rest =>
      if String.eqb t task then (t, cs ++ [contender]) :: rest
      else (t, cs) :: group_append rest task contender
  end.

Definition _group_contenders_by_task (contenders : list Contender.t)
    : list (string * list Contender.t) :=
  fold_left
    (fun task_groups contender =>
       match get_task_configs !! Contender.task contender with
       | None => task_groups
       | Some _ => group_append task_groups (Contender.task contender) contender
       end)
    contenders [].

Definition _calculate_task_requests (task : string) (contenders : list Contender.t)
    (config : Config) : Res Z :=
  match get_enabled_task_config task with
  | None => Ok 0
  | Some task_config =>
      let total_capacity :=
        (py_sum (map Contender.capacity_to_score contenders)
         * scoring_period_time_multiplier config)%Q in
      if Qeq_bool (volume_to_requests_conversion task_config) 0
      then Raise ZeroDivisionError
      else Ok (py_int (total_capacity / volume_to_requests_conversion task_config)%Q)
  end.

Definition _get_initial_schedule_time (current_time interval : Q) : M Q :=
  random_value <- random_random ;;
  ret (current_time + random_value * interval)%Q.

(** The body of the [for task, contenders in task_groups.items()] loop. *)
Definition initialize_task_schedule (scoring_period_time : Q) (config : Config)
    (schedules : list TaskScheduleInfo) (group : string * list Contender.t)
    : M (list TaskScheduleInfo) :=
  let '(task, contenders) := group in
  total_requests <- lift (_calculate_task_requests task contenders config) ;;
  if 0 <? total_requests then
    let interval := (scoring_period_time / inject_Z (total_requests + 1))%Q in
    current_time <- time_time ;;
    first_schedule_time <- _get_initial_schedule_time current_time interval ;;
    let schedule :=
      {| task := task;
         total_requests := total_requests;
         interval := interval;
         next_schedule_time := first_schedule_time;
         remaining_requests := total_requests |} in
    ret (heapq.heappush TaskScheduleInfo_lt schedules schedule)
  else ret schedules.

Fixpoint initialize_task_schedules_loop (scoring_period_time : Q) (config : Config)
    (schedules : list TaskScheduleInfo) (task_groups : list (string * list Contender.t))
    : M (list TaskScheduleInfo) :=
  match task_groups with
  | [] => ret schedules
  | group :: rest =>
      schedules <- initialize_task_schedule scoring_period_time config schedules group ;;
      initialize_task_schedules_loop scoring_period_time config schedules rest
  end.

Definition _initialize_task_schedules (task_groups : list (string * list Contender.t))
    (config : Config) : M (list TaskScheduleInfo) :=
  let scoring_period_time :=
    (SCORING_PERIOD_TIME * scoring_period_time_multiplier config)%Q in
  initialize_task_schedules_loop scoring_period_time config [] task_groups.

Definition requests_remaining_key (task : string) : string :=
  "task_synthetics_info:" +:+ task +:+ ":requests_remaining".

Definition _update_redis_remaining_requests (task : string) (remaining_requests : Z)
    : M unit :=
  redis_set (requests_remaining_key task) remaining_requests.

Definition _get_redis_remaining_requests (task : string) : M Z :=
  value <- redis_get (requests_remaining_key task) ;;
  ret (match value with Some v => v | None => 0 end).

Definition _schedule_synthetic_query (task : string) (max_len : Z) : M unit := fun w =>
  (Ok tt,
   with_enqueued (enqueued w ++ [(task, max_len)])
     (with_redis (add_synthetic_query_to_queue task max_len) w)).

(** [json.loads(item).get("query_type") != gcst.SYNTHETIC] *)
Definition is_non_synthetic (item : string) : Res bool :=
  match json_loads item with
  | None => Raise JSONDecodeError
  | Some (JObject fields) => Ok (py_ne_str (dict_get fields "query_type") SYNTHETIC)
  | Some _ => Raise AttributeError
  end.

(** The list comprehension of [_clear_old_synthetic_queries]. *)
Fixpoint non_synthetic_items (all_items : list string) : Res (list string) :=
  match all_items with
  | [] => Ok []
  | item :: rest =>
      match is_non_synthetic item with
      | Raise e => Raise e
      | Ok keep =>
          match non_synthetic_items rest with
          | Raise e => Raise e
          | Ok kept => Ok (if keep then item :: kept else kept)
          end
      end
  end.

Definition _clear_old_synthetic_queries : M unit :=
  all_items <- redis_lrange_all ;;
  non_synthetic <- lift (non_synthetic_items all_items) ;;
  redis_delete_queue ;;;
  match non_synthetic with
  | [] => ret tt
  | _ :: _ => redis_rpush non_synthetic
  end.

(** *** The paced wait

    [while time_to_sleep > 0: await asyncio.sleep(min(sleep_chunk, time_to_sleep));
    time_to_sleep -= sleep_chunk], with [sleep_chunk = 2]. *)
Fixpoint sleep_loop (fuel : nat) (time_to_sleep : Q) : M unit :=
  match fuel with
  | O => ret tt
  | S fuel' =>
      if Qltb 0 time_to_sleep then
        asyncio_sleep (py_min 2 time_to_sleep) ;;;
        sleep_loop fuel' (time_to_sleep - 2)%Q
      else ret tt
  end.

(** The number of turns after which the loop guard is false. *)
Definition sleep_turns (time_to_sleep : Q) : nat :=
  Z.to_nat (Qceiling (time_to_sleep / 2)).

Definition sleep_in_chunks (time_to_sleep : Q) : M unit :=
  sleep_loop (sleep_turns time_to_sleep) time_to_sleep.

(** The durations the loop passes to [asyncio.sleep], in order. *)
Fixpoint sleep_chunks (fuel : nat) (time_to_sleep : Q) : list Q :=
  match fuel with
  | O => []
  | S fuel' =>
      if Qltb 0 time_to_sleep
      then py_min 2 time_to_sleep :: sleep_chunks fuel' (time_to_sleep - 2)%Q
      else []
  end.

(** *** One turn of [while task_schedules] *)

Inductive Flow : Set :=
| Continue   (* go on with the next turn, also after [continue] *)
| Break.

(** The loop variables [i] and [task_schedules]. *)
Record LoopVars : Set := {
  i : Z;
  task_schedules : list TaskScheduleInfo
}.

(** [[heapq.heappop(task_schedules) for _ in range(len(task_schedules))]]:
    the popped schedules in order, and what is left of the heap. *)
Fixpoint pop_all (n : nat) (heap : list TaskScheduleInfo)
    : list TaskScheduleInfo * list TaskScheduleInfo :=
  match n with
  | O => ([], heap)
  | S n' =>
      match heapq.heappop TaskScheduleInfo_lt heap with
      | None => ([], heap)
      | Some (schedule, heap') =>
          let '(popped, heap'') := pop_all n' heap' in
          (schedule :: popped, heap'')
      end
  end.

(** The status report of every 100th turn: every schedule is popped,
    formatted (one clock reading each) and pushed back. *)
Fixpoint report_and_push (schedules_left heap : list TaskScheduleInfo)
    : M (list TaskScheduleInfo) :=
  match schedules_left with
  | [] => ret heap
  | schedule :: rest =>
      _ <- time_time ;;
      report_and_push rest (heapq.heappush TaskScheduleInfo_lt heap schedule)
  end.

Definition status_report (heap : list TaskScheduleInfo) : M (list TaskScheduleInfo) :=
  let '(schedules_left, heap) := pop_all (length heap) heap in
  heap <- report_and_push schedules_left heap ;;
  _ <- time_time ;;
  ret heap.

(** Lines 146-159: decide whether to wait for the popped schedule, and
    wait.  The result is [true] when the loop is to be left. *)
Definition wait_for_schedule (scoring_period_time start_time : Q)
    (schedule : TaskScheduleInfo) : M bool :=
  now <- time_time ;;
  let time_to_sleep := (next_schedule_time schedule - now)%Q in
  if Qltb 0 time_to_sleep then
    now' <- time_time ;;
    if Qltb scoring_period_time (now' - start_time + time_to_sleep)%Q then ret true
    else sleep_in_chunks time_to_sleep ;;; ret false
  else ret false.

(** Lines 161-216: reconcile with the shared counter, issue or skip. *)
Definition reconcile_and_issue (scoring_period_time start_time : Q) (i : Z)
    (schedule : TaskScheduleInfo) (task_schedules : list TaskScheduleInfo)
    : M (Flow * LoopVars) :=
  latest_remaining_requests <- _get_redis_remaining_requests (task schedule) ;;
  if latest_remaining_requests <=? 0 then
    ret (Continue, {| i := i; task_schedules := task_schedules |})
  else
    let requests_to_skip := remaining_requests schedule - latest_remaining_requests in
    gauge_set GAUGE_REQUESTS_TO_SKIP requests_to_skip (task schedule) ;;;
    if 0 <? requests_to_skip then
      let schedule :=
        {| task := task schedule;
           total_requests := total_requests schedule;
           interval := interval schedule;
           next_schedule_time :=
             (next_schedule_time schedule
              + interval schedule * inject_Z requests_to_skip)%Q;
           remaining_requests := latest_remaining_requests |} in
      ret (Continue,
           {| i := i;
              task_schedules := heapq.heappush TaskScheduleInfo_lt task_schedules schedule |})
    else
      _schedule_synthetic_query (task schedule) 100 ;;;
      let remaining_requests := latest_remaining_requests - 1 in
      _update_redis_remaining_requests (task schedule) remaining_requests ;;;
      now <- time_time ;;
      let schedule :=
        {| task := task schedule;
           total_requests := total_requests schedule;
           interval := interval schedule;
           next_schedule_time := (now + interval schedule)%Q;
           remaining_requests := remaining_requests |} in
      gauge_set GAUGE_TOTAL_REQUESTS (total_requests schedule) (task schedule) ;;;
      gauge_set GAUGE_SCHEDULE_REMAINING_REQUESTS remaining_requests (task schedule) ;;;
      gauge_set GAUGE_LATEST_REMAINING_REQUESTS latest_remaining_requests (task schedule) ;;;
      let task_schedules :=
        if 0 <? remaining_requests
        then heapq.heappush TaskScheduleInfo_lt task_schedules schedule
        else task_schedules in
      now <- time_time ;;
      if Qltb scoring_period_time (now - start_time)%Q then
        ret (Break, {| i := i; task_schedules := task_schedules |})
      else if i mod 100 =? 0 then
        task_schedules <- status_report task_schedules ;;
        ret (Continue, {| i := i; task_schedules := task_schedules |})
      else ret (Continue, {| i := i; task_schedules := task_schedules |}).

(** The body of [while task_schedules]. *)
Definition loop_body (scoring_period_time start_time : Q) (vars : LoopVars)
    : M (Flow * LoopVars) :=
  let i := i vars + 1 in
  match heapq.heappop TaskScheduleInfo_lt (task_schedules vars) with
  | None =>
      (* the loop guard excludes the empty heap *)
      ret (Break, {| i := i; task_schedules := task_schedules vars |})
  | Some (schedule, task_schedules) =>
      stop <- wait_for_schedule scoring_period_time start_time schedule ;;
      if stop : bool then ret (Break, {| i := i; task_schedules := task_schedules |})
      else reconcile_and_issue scoring_period_time start_time i schedule task_schedules
  end.

(** [while task_schedules: ...], for at most [fuel] turns; the result is
    [None] when the turns run out before the loop is left. *)
Fixpoint while_task_schedules (fuel : nat) (scoring_period_time start_time : Q)
    (vars : LoopVars) : M (option LoopVars) :=
  match task_schedules vars with
  | [] => ret (Some vars)
  | _ :: _ =>
      match fuel with
      | O => ret None
      | S fuel' =>
          r <- loop_body scoring_period_time start_time vars ;;
          match r with
          | (Break, vars') => ret (Some vars')
          | (Continue, vars') =>
              while_task_schedules fuel' scoring_period_time start_time vars'
          end
      end
  end.

(** [for schedule in task_schedules: await _update_redis_remaining_requests(...)] *)
Fixpoint publish_total_requests (schedules : list TaskScheduleInfo) : M unit :=
  match schedules with
  | [] => ret tt
  | schedule :: rest =>
      _update_redis_remaining_requests (task schedule) (total_requests schedule) ;;;
      publish_total_requests rest
  end.

(** Lines 129-142 of [schedule_synthetics_until_done]: everything before
    the loop.  The result is [start_time] and the loop variables. *)
Definition prepare_cycle (config : Config) : M (Q * LoopVars) :=
  start_time <- time_time ;;
  contenders <- _load_contenders ;;
  let task_groups := _group_contenders_by_task contenders in
  schedules <- _initialize_task_schedules task_groups config ;;
  _clear_old_synthetic_queries ;;;
  publish_total_requests schedules ;;;
  ret (start_time, {| i := 0; task_schedules := schedules |}).

(** [schedule_synthetics_until_done(config)]; it returns the tasks left
    in the queue when the loop is left, or [None] when [fuel] turns of the
    loop were not enough. *)
Definition schedule_synthetics_until_done (fuel : nat) (config : Config)
    : M (option (list string)) :=
  let scoring_period_time :=
    (SCORING_PERIOD_TIME * scoring_period_time_multiplier config)%Q in
  prepared <- prepare_cycle config ;;
  let '(start_time, vars) := prepared in
  done <- while_task_schedules fuel scoring_period_time start_time vars ;;
  match done with
  | None => ret None
  | Some vars =>
      let '(schedules_left, _) :=
        pop_all (length (task_schedules vars)) (task_schedules vars) in
      _ <- time_time ;;
      asyncio_sleep 10 ;;;
      ret (Some (map task schedules_left))
  end.

(** *** The loop as a transition system

    A state is the control flow after the last turn, the loop variables
    and the world.  Between two turns of this instance any other party
    may rewrite the shared store. *)
Definition CycleState : Type := Flow * LoopVars * World.

Inductive cycle_step (scoring_period_time start_time : Q)
    : CycleState -> CycleState -> Prop :=
| turn_step vars w flow' vars' w' :
    task_schedules vars <> [] ->
    loop_body scoring_period_time start_time vars w = (Ok (flow', vars'), w') ->
    cycle_step scoring_period_time start_time (Continue, vars, w) (flow', vars', w')
| store_step vars w store' :
    cycle_step scoring_period_time start_time
      (Continue, vars, w) (Continue, vars, with_redis (fun _ => store') w).

(** The tasks in a priority queue, and in the queue of a state. *)
Definition tasks_of (heap : list TaskScheduleInfo) : list string := task <$> heap.


(** *** Names for what a turn reads and writes *)

(** The value [_get_redis_remaining_requests] reads in a world. *)
Definition latest_in (w : World) (task : string) : Z :=
  default 0 (counters (redis_db w) !! requests_remaining_key task).

(** The schedule after a drift correction (lines 172-173). *)
Definition corrected (schedule : TaskScheduleInfo) (latest : Z) : TaskScheduleInfo :=
  {| task := task schedule;
     total_requests := total_requests schedule;
     interval := interval schedule;
     next_schedule_time :=
       (next_schedule_time schedule
        + interval schedule * inject_Z (remaining_requests schedule - latest))%Q;
     remaining_requests := latest |}.

(** The schedule after a request was issued (lines 180-183), [now]
    being the clock reading of line 182. *)
Definition issued (schedule : TaskScheduleInfo) (latest : Z) (now : Q) : TaskScheduleInfo :=
  {| task := task schedule;
     total_requests := total_requests schedule;
     interval := interval schedule;
     next_schedule_time := (now + interval schedule)%Q;
     remaining_requests := latest - 1 |}.

(** *** Properties of the queue over the turns of a cycle *)

(** A property [P] of queues and a property [Q] of schedules go together
    when popping from a [P] queue leaves a [P] queue and gives a [Q]
    schedule, pushing a [Q] schedule on a [P] queue gives a [P] queue, and
    [Q] survives the two ways a turn rewrites a schedule. *)
Record kept_by_turns (P : list TaskScheduleInfo -> Prop) (Q : TaskScheduleInfo -> Prop)
    : Prop := {
  kept_pop heap schedule rest :
    P heap -> heapq.heappop TaskScheduleInfo_lt heap = Some (schedule, rest) ->
    P rest /\ Q schedule;
  kept_push heap schedule :
    P heap -> Q schedule -> P (heapq.heappush TaskScheduleInfo_lt heap schedule);
  kept_corrected schedule latest :
    Q schedule -> 0 < latest -> latest < remaining_requests schedule ->
    Q (corrected schedule latest);
  kept_issued schedule latest now :
    Q schedule -> 0 < latest - 1 -> Q (issued schedule latest now)
}.

(** A schedule as a cycle keeps it in the queue: requests remain, and
    the interval is the one computed at the start. *)
Definition sound (scoring_period_time : Q) (schedule : TaskScheduleInfo) : Prop :=
  0 < remaining_requests schedule
  /\ 0 < total_requests schedule
  /\ interval schedule
     = (scoring_period_time / inject_Z (total_requests schedule + 1))%Q.

(** *** An instance alone on the store *)

(** The number of jobs in [jobs] that were enqueued for a task. *)
Definition issued_for (task_id : string) (jobs : list (string * Z)) : Z :=
  Z.of_nat (length (List.filter (fun job => String.eqb job.1 task_id) jobs)).

(** The requests the queue still plans to issue. *)
Definition pending (heap : list TaskScheduleInfo) : Z :=
  foldr (fun schedule rest => remaining_requests schedule + rest) 0 heap.

(** How the queue and the counters of a state stand to the schedules
    [schedules] the cycle started with and the jobs [jobs] it has enqueued
    since, as long as nobody else writes to the store. *)
Record tracked (schedules : list TaskScheduleInfo) (jobs : list (string * Z))
    (vars : LoopVars) (w : World) : Prop := {
  tracked_jobs : forall job,
    job ∈ jobs -> job.2 = 100 /\ job.1 ∈ tasks_of schedules;
  tracked_counters : forall schedule,
    schedule ∈ schedules ->
    latest_in w (task schedule) + issued_for (task schedule) jobs = total_requests schedule
    /\ 0 <= latest_in w (task schedule);
  tracked_queue : forall schedule,
    schedule ∈ task_schedules vars ->
    remaining_requests schedule = latest_in w (task schedule)
    /\ 0 < remaining_requests schedule
    /\ task schedule ∈ tasks_of schedules;
  tracked_NoDup : NoDup (tasks_of (task_schedules vars))
}.

(** *** Synthetic-tagged queue items, in the words of the specification:
    a JSON object whose [query_type] field is the synthetic discriminator. *)
Definition synthetic_tagged (item : string) : bool :=
  match json_loads item with
  | Some (JObject fields) =>
      match dict_get fields "query_type" with
      | Some (JString tag) => String.eqb tag SYNTHETIC
      | _ => false
      end
  | _ => false
  end.
End Scheduler.

(** ** [nodes.py]: the node registry *)

(** [fiber.networking.models.NodeWithFernet], generic in the type of the
    encryption handle ([cryptography.fernet.Fernet]). *)
Module Node.
Record t (Handle : Type) : Type := mk {
  hotkey : string;
  coldkey : string;
  node_id : Z;
  incentive : Q;
  netuid : Z;
  stake : Q;
  trust : Q;
  vtrust : Q;
  last_updated : option Q;
  ip : string;
  ip_type : Z;
  port : Z;
  protocol : Z;
  fernet : option Handle;
  symmetric_key_uuid : option string
}.
Arguments mk {Handle}.
Arguments hotkey {Handle}. Arguments coldkey {Handle}.
Arguments node_id {Handle}. Arguments incentive {Handle}.
Arguments netuid {Handle}. Arguments stake {Handle}.
Arguments trust {Handle}. Arguments vtrust {Handle}.
Arguments last_updated {Handle}. Arguments ip {Handle}.
Arguments ip_type {Handle}. Arguments port {Handle}.
Arguments protocol {Handle}. Arguments fernet {Handle}.
Arguments symmetric_key_uuid {Handle}.
End Node.

(** A row of [dcst.NODES_TABLE], with the columns this module names. *)
Module NodeRow.
Record t : Set := mk {
  hotkey : string;
  coldkey : string;
  node_id : Z;
  incentive : Q;
  netuid : Z;
  stake : Q;
  trust : Q;
  vtrust : Q;
  last_updated : option Q;
  ip : string;
  ip_type : Z;
  port : Z;
  protocol : Z;
  network : string;
  symmetric_key : option string;
  symmetric_key_uuid : option string;
  our_validator : bool;
  created_at : Q
}.
End NodeRow.

(** A row of [dcst.NODES_HISTORY_TABLE], with the columns the migration
    fills. *)
Module HistoryRow.
Record t : Set := mk {
  hotkey : string;
  coldkey : string;
  node_id : Z;
  incentive : Q;
  netuid : Z;
  stake : Q;
  trust : Q;
  vtrust : Q;
  last_updated : option Q;
  ip : string;
  ip_type : Z;
  port : Z;
  protocol : Z;
  network : string;
  created_at : Q
}.
End HistoryRow.

(** The relational store: both tables in storage order, and the
    timestamp the store gives to rows inserted now. *)
Record Database : Set := {
  nodes_table : list NodeRow.t;
  nodes_history_table : list HistoryRow.t;
  current_timestamp : Q
}.

(** What [get_node] writes with [logger.error]. *)
Inductive LogRecord : Set :=
| NoNodeFound (node_id netuid : Z)
| AllNodes (rows : list NodeRow.t)
| ErrorCreatingFernet
| NodeDump (row : NodeRow.t).

Module nodes.
Section Registry.
(** [cryptography.fernet.Fernet(key)]: [None] when the constructor
    raises, as it does on a null or malformed key. *)
Context {Handle : Type} (Fernet : option string -> option Handle).

(** Modelled from the spec: the definition of the table is part of the
    database schema, outside this module.  Columns the [INSERT] of
    [insert_nodes] leaves out
    take their defaults: the key rotation identifier is null until a key
    is established, the own-validator flag is unset, and the creation
    marker is the store's current timestamp. *)
Definition inserted_row (now : Q) (network : string) (node : Node.t Handle)
    : NodeRow.t :=
  {| NodeRow.hotkey := Node.hotkey node;
     NodeRow.coldkey := Node.coldkey node;
     NodeRow.node_id := Node.node_id node;
     NodeRow.incentive := Node.incentive node;
     NodeRow.netuid := Node.netuid node;
     NodeRow.stake := Node.stake node;
     NodeRow.trust := Node.trust node;
     NodeRow.vtrust := Node.vtrust node;
     NodeRow.last_updated := Node.last_updated node;
     NodeRow.ip := Node.ip node;
     NodeRow.ip_type := Node.ip_type node;
     NodeRow.port := Node.port node;
     NodeRow.protocol := Node.protocol node;
     NodeRow.network := network;
     NodeRow.symmetric_key := None;
     NodeRow.symmetric_key_uuid := None;
     NodeRow.our_validator := false;
     NodeRow.created_at := now |}.

(** [insert_nodes(connection, nodes, network)]: one [INSERT] per node,
    the fifteenth value ([SYMMETRIC_KEY]) being [None]. *)
Definition insert_nodes (db : Database) (nodes : list (Node.t Handle))
    (network : string) : Database :=
  {| nodes_table :=
       nodes_table db
       ++ map (inserted_row (current_timestamp db) network) nodes;
     nodes_history_table := nodes_history_table db;
     current_timestamp := current_timestamp db |}.

(** The [SELECT] list of the migration. *)
Definition history_row (row : NodeRow.t) : HistoryRow.t :=
  {| HistoryRow.hotkey := NodeRow.hotkey row;
     HistoryRow.coldkey := NodeRow.coldkey row;
     HistoryRow.node_id := NodeRow.node_id row;
     HistoryRow.incentive := NodeRow.incentive row;
     HistoryRow.netuid := NodeRow.netuid row;
     HistoryRow.stake := NodeRow.stake row;
     HistoryRow.trust := NodeRow.trust row;
     HistoryRow.vtrust := NodeRow.vtrust row;
     HistoryRow.last_updated := NodeRow.last_updated row;
     HistoryRow.ip := NodeRow.ip row;
     HistoryRow.ip_type := NodeRow.ip_type row;
     HistoryRow.port := NodeRow.port row;
     HistoryRow.protocol := NodeRow.protocol row;
     HistoryRow.network := NodeRow.network row;
     HistoryRow.created_at := NodeRow.created_at row |}.

(** [migrate_nodes_to_history(connection)]: [INSERT INTO history SELECT
    ... FROM nodes], then [DELETE FROM nodes]. *)
Definition migrate_nodes_to_history (db : Database) : Database :=
  let archived :=
    {| nodes_table := nodes_table db;
       nodes_history_table := nodes_history_table db ++ map history_row (nodes_table db);
       current_timestamp := current_timestamp db |} in
  {| nodes_table := [];
     nodes_history_table := nodes_history_table archived;
     current_timestamp := current_timestamp archived |}.

(** A row satisfies the [WHERE] clause of [get_node]. *)
Definition matches (node_id netuid : Z) (row : NodeRow.t) : Prop :=
  NodeRow.node_id row = node_id /\ NodeRow.netuid row = netuid.

(** [psql_db.fetchone] of the query of [get_node]: the first row with
    [NODE_ID = $1 AND NETUID = $2]. *)
Definition fetchone_node (db : Database) (node_id netuid : Z) : option NodeRow.t :=
  List.find
    (fun row => (NodeRow.node_id row =? node_id) && (NodeRow.netuid row =? netuid))
    (nodes_table db).

(** [SELECT * FROM nodes WHERE NETUID = $1] *)
Definition fetchall_netuid (db : Database) (netuid : Z) : list NodeRow.t :=
  List.filter (fun row => NodeRow.netuid row =? netuid) (nodes_table db).

(** The [Node] constructor applied to the fetched columns and the
    [fernet] entry. *)
Definition node_of_row (row : NodeRow.t) (handle : Handle) : Node.t Handle :=
  {| Node.hotkey := NodeRow.hotkey row;
     Node.coldkey := NodeRow.coldkey row;
     Node.node_id := NodeRow.node_id row;
     Node.incentive := NodeRow.incentive row;
     Node.netuid := NodeRow.netuid row;
     Node.stake := NodeRow.stake row;
     Node.trust := NodeRow.trust row;
     Node.vtrust := NodeRow.vtrust row;
     Node.last_updated := NodeRow.last_updated row;
     Node.ip := NodeRow.ip row;
     Node.ip_type := NodeRow.ip_type row;
     Node.port := NodeRow.port row;
     Node.protocol := NodeRow.protocol row;
     Node.fernet := Some handle;
     Node.symmetric_key_uuid := NodeRow.symmetric_key_uuid row |}.

(** [get_node(psql_db, node_id, netuid)]: the result or the exception,
    and the error log. *)
Definition get_node (db : Database) (node_id netuid : Z)
    : Res (option (Node.t Handle)) * list LogRecord :=
  match fetchone_node db node_id netuid with
  | None =>
      (Raise (ValueError
                ("No node found for node id " +:+ pretty node_id
                 +:+ " and netuid " +:+ pretty netuid)),
       [NoNodeFound node_id netuid; AllNodes (fetchall_netuid db netuid)])
  | Some node =>
      match Fernet (NodeRow.symmetric_key node) with
      | None => (Ok None, [ErrorCreatingFernet; NodeDump node])
      | Some handle => (Ok (Some (node_of_row node handle)), [])
      end
  end.

(** *** The other operations of the registry *)

(** [SELECT MAX(...)]: the greatest value, [NULL] over no rows. *)
Definition sql_max (values : list Q) : option Q :=
  fold_left
    (fun greatest value =>
       match greatest with
       | None => Some value
       | Some m => Some (if Qltb m value then value else m)
       end)
    values None.

(** [get_last_updated_time_for_nodes(connection, netuid)] *)
Definition get_last_updated_time_for_nodes (db : Database) (netuid : Z) : option Q :=
  sql_max (map NodeRow.created_at (fetchall_netuid db netuid)).

(** [futils.fernet_to_symmetric_key] *)
Context (fernet_to_symmetric_key : Handle -> string).

(** [SET SYMMETRIC_KEY = $1, SYMMETRIC_KEY_UUID = $2] on a row. *)
Definition set_symmetric_key (key : option string) (uuid : option string)
    (row : NodeRow.t) : NodeRow.t :=
  {| NodeRow.hotkey := NodeRow.hotkey row;
     NodeRow.coldkey := NodeRow.coldkey row;
     NodeRow.node_id := NodeRow.node_id row;
     NodeRow.incentive := NodeRow.incentive row;
     NodeRow.netuid := NodeRow.netuid row;
     NodeRow.stake := NodeRow.stake row;
     NodeRow.trust := NodeRow.trust row;
     NodeRow.vtrust := NodeRow.vtrust row;
     NodeRow.last_updated := NodeRow.last_updated row;
     NodeRow.ip := NodeRow.ip row;
     NodeRow.ip_type := NodeRow.ip_type row;
     NodeRow.port := NodeRow.port row;
     NodeRow.protocol := NodeRow.protocol row;
     NodeRow.network := NodeRow.network row;
     NodeRow.symmetric_key := key;
     NodeRow.symmetric_key_uuid := uuid;
     NodeRow.our_validator := NodeRow.our_validator row;
     NodeRow.created_at := NodeRow.created_at row |}.

(** The [WHERE HOTKEY = $3 and NETUID = $4] of the two [UPDATE]s. *)
Definition is_node (hotkey : string) (netuid : Z) (row : NodeRow.t) : bool :=
  String.eqb (NodeRow.hotkey row) hotkey && (NodeRow.netuid row =? netuid).

(** One [UPDATE] of [insert_symmetric_keys_for_nodes]. *)
Definition update_symmetric_key (db : Database) (key : string) (uuid : option string)
    (hotkey : string) (netuid : Z) : Database :=
  {| nodes_table :=
       map (fun row => if is_node hotkey netuid row
                       then set_symmetric_key (Some key) uuid row else row)
         (nodes_table db);
     nodes_history_table := nodes_history_table db;
     current_timestamp := current_timestamp db |}.

(** [insert_symmetric_keys_for_nodes(connection, nodes)]: one [UPDATE] per
    node that carries a handle, in the order of the list. *)
Definition insert_symmetric_keys_for_nodes (db : Database) (nodes : list (Node.t Handle))
    : Database :=
  fold_left
    (fun db node =>
       match Node.fernet node with
       | Some fernet =>
           update_symmetric_key db (fernet_to_symmetric_key fernet)
             (Node.symmetric_key_uuid node) (Node.hotkey node) (Node.netuid node)
       | None => db
       end)
    nodes db.

(** The [Node] constructor applied to the thirteen columns [get_nodes]
    fetches: the handle and the key identifier are not among the keyword
    arguments and stay at their default, [None]. *)
Definition node_without_key (row : NodeRow.t) : Node.t Handle :=
  {| Node.hotkey := NodeRow.hotkey row;
     Node.coldkey := NodeRow.coldkey row;
     Node.node_id := NodeRow.node_id row;
     Node.incentive := NodeRow.incentive row;
     Node.netuid := NodeRow.netuid row;
     Node.stake := NodeRow.stake row;
     Node.trust := NodeRow.trust row;
     Node.vtrust := NodeRow.vtrust row;
     Node.last_updated := NodeRow.last_updated row;
     Node.ip := NodeRow.ip row;
     Node.ip_type := NodeRow.ip_type row;
     Node.port := NodeRow.port row;
     Node.protocol := NodeRow.protocol row;
     Node.fernet := None;
     Node.symmetric_key_uuid := None |}.

(** [get_nodes(psql_db, netuid)] *)
Definition get_nodes (db : Database) (netuid : Z) : list (Node.t Handle) :=
  map node_without_key (fetchall_netuid db netuid).

(** [get_node_stakes(psql_db, netuid)]: the dict comprehension inserts the
    fetched rows in order, a later row replacing an earlier one of the same
    hotkey. *)
Definition get_node_stakes (db : Database) (netuid : Z) : gmap string Q :=
  fold_left
    (fun hotkey_to_stake row => <[NodeRow.hotkey row := NodeRow.stake row]> hotkey_to_stake)
    (fetchall_netuid db netuid) ∅.

(** [SET OUR_VALIDATOR = true] on a row. *)
Definition set_our_validator (row : NodeRow.t) : NodeRow.t :=
  {| NodeRow.hotkey := NodeRow.hotkey row;
     NodeRow.coldkey := NodeRow.coldkey row;
     NodeRow.node_id := NodeRow.node_id row;
     NodeRow.incentive := NodeRow.incentive row;
     NodeRow.netuid := NodeRow.netuid row;
     NodeRow.stake := NodeRow.stake row;
     NodeRow.trust := NodeRow.trust row;
     NodeRow.vtrust := NodeRow.vtrust row;
     NodeRow.last_updated := NodeRow.last_updated row;
     NodeRow.ip := NodeRow.ip row;
     NodeRow.ip_type := NodeRow.ip_type row;
     NodeRow.port := NodeRow.port row;
     NodeRow.protocol := NodeRow.protocol row;
     NodeRow.network := NodeRow.network row;
     NodeRow.symmetric_key := NodeRow.symmetric_key row;
     NodeRow.symmetric_key_uuid := NodeRow.symmetric_key_uuid row;
     NodeRow.our_validator := true;
     NodeRow.created_at := NodeRow.created_at row |}.

(** [update_our_vali_node_in_db(connection, ss58_address, netuid)] *)
Definition update_our_vali_node_in_db (db : Database) (ss58_address : string) (netuid : Z)
    : Database :=
  {| nodes_table :=
       map (fun row => if is_node ss58_address netuid row
                       then set_our_validator row else row)
         (nodes_table db);
     nodes_history_table := nodes_history_table db;
     current_timestamp := current_timestamp db |}.

(** [get_vali_ss58_address(psql_db, netuid)]: the hotkey of the first row
    with [OUR_VALIDATOR = true AND NETUID = $1]; the second component tells
    whether the miss was logged. *)
Definition get_vali_ss58_address (db : Database) (netuid : Z) : option string * bool :=
  match List.find
          (fun row => NodeRow.our_validator row && (NodeRow.netuid row =? netuid))
          (nodes_table db) with
  | None => (None, true)
  | Some node => (Some (NodeRow.hotkey node), false)
  end.

(** The hotkeys of the rows of a subnet that are flagged as the operator's
    own validator, in storage order. *)
Definition flagged (db : Database) (netuid : Z) : list string :=
  map NodeRow.hotkey
    (List.filter (fun row => NodeRow.our_validator row && (NodeRow.netuid row =? netuid))
       (nodes_table db)).

(** A node as the registry gives it back without its key material. *)
Definition forget_key (node : Node.t Handle) : Node.t Handle :=
  {| Node.hotkey := Node.hotkey node;
     Node.coldkey := Node.coldkey node;
     Node.node_id := Node.node_id node;
     Node.incentive := Node.incentive node;
     Node.netuid := Node.netuid node;
     Node.stake := Node.stake node;
     Node.trust := Node.trust node;
     Node.vtrust := Node.vtrust node;
     Node.last_updated := Node.last_updated node;
     Node.ip := Node.ip node;
     Node.ip_type := Node.ip_type node;
     Node.port := Node.port node;
     Node.protocol := Node.protocol node;
     Node.fernet := None;
     Node.symmetric_key_uuid := None |}.

(** What the [UPDATE]s of [insert_symmetric_keys_for_nodes] do to one row. *)
Definition install_keys (nodes : list (Node.t Handle)) (row : NodeRow.t) : NodeRow.t :=
  fold_left
    (fun row node =>
       match Node.fernet node with
       | Some fernet =>
           if is_node (Node.hotkey node) (Node.netuid node) row
           then set_symmetric_key (Some (fernet_to_symmetric_key fernet))
                  (Node.symmetric_key_uuid node) row
           else row
       | None => row
       end)
    nodes row.


End Registry.
End nodes.

(** ** Sample inputs

    A small deployment on which the statements below are exercised. *)

Module Sample.
Definition chat : string := "chat-llama".
Definition image : string := "text-to-image".
Definition retired : string := "avatar".

Definition task_configs : gmap string TaskConfig :=
  <[chat := {| volume_to_requests_conversion := 10; enabled := true |}]>
  (<[image := {| volume_to_requests_conversion := 7; enabled := true |}]>
  (<[retired := {| volume_to_requests_conversion := 5; enabled := false |}]> ∅)).

Definition contenders : list Contender.t :=
  [ Contender.mk chat 60; Contender.mk image 100; Contender.mk chat 40;
    Contender.mk retired 50; Contender.mk "unknown" 30 ].

(** A decoder for the job texts used below. *)
Definition decode (item : string) : option json :=
  if String.eqb item "synthetic-job-1" then
    Some (JObject [("query_type", JString "synthetic"); ("task", JString chat)])
  else if String.eqb item "synthetic-job-2" then
    Some (JObject [("task", JString image); ("query_type", JString "synthetic")])
  else if String.eqb item "organic-job-1" then
    Some (JObject [("query_type", JString "organic"); ("task", JString chat)])
  else if String.eqb item "organic-job-2" then
    Some (JObject [("query_type", JString "organic"); ("task", JString image)])
  else if String.eqb item "untagged-job" then
    Some (JObject [("task", JString image)])
  else if String.eqb item "a-list" then
    Some (JArray [JNumber 1])
  else None.

(** An enqueue utility that rejects the job when the queue is full. *)
Definition enqueue (task : string) (max_len : Z) (r : Redis) : Redis :=
  if Z.of_nat (length (query_queue r)) <? max_len
  then set_query_queue (query_queue r ++ ["synthetic-job-1"]) r
  else r.

Definition deps : Deps :=
  {| SCORING_PERIOD_TIME := 3600;
     get_task_configs := task_configs;
     load_contenders := contenders;
     add_synthetic_query_to_queue := enqueue;
     SYNTHETIC := "synthetic";
     json_loads := decode |}.

Definition config : Config := {| scoring_period_time_multiplier := 1 |}.

(** A clock that advances by a quarter of a second per reading, from
    [t0]. *)
Definition clock (t0 : Q) (n : nat) : Q := (t0 + inject_Z (Z.of_nat n) * (1 # 4))%Q.

Definition world (t0 : Q) (store : gmap string Z) (queue : list string) : World :=
  {| redis_db := {| counters := store; query_queue := queue |};
     time_src := clock t0; time_calls := 0%nat;
     rand_src := fun _ => (1 # 2)%Q; rand_calls := 0%nat;
     slept := []; enqueued := []; gauges := [] |}.

(** A schedule for [chat] that is due at 1000 with 5 requests left
    locally, and a store whose counter for [chat] holds [n]. *)
Definition behind : TaskScheduleInfo :=
  {| task := chat; total_requests := 10; interval := 3600 # 11;
     next_schedule_time := 1000; remaining_requests := 5 |}.

Definition store (n : Z) : gmap string Z := {[ requests_remaining_key chat := n ]}.

(** The loop variables before the first turn on a queue of one schedule. *)
Definition one (schedule : TaskScheduleInfo) : LoopVars :=
  {| i := 0; task_schedules := [schedule] |}.

(** A schedule that is due one minute after 1000, and one due long after
    the scoring period that starts at 0. *)
Definition upcoming : TaskScheduleInfo :=
  {| task := chat; total_requests := 10; interval := 3600 # 11;
     next_schedule_time := 1060; remaining_requests := 5 |}.

Definition too_late : TaskScheduleInfo :=
  {| task := chat; total_requests := 10; interval := 3600 # 11;
     next_schedule_time := 3700; remaining_requests := 5 |}.

(** A cycle prepared at 1000 on a queue with leftovers. *)
Definition w0 : World :=
  world 1000 ∅ ["organic-job-1"; "synthetic-job-2"; "untagged-job"; "synthetic-job-1";
                "organic-job-2"].

Definition prepared : Res (Q * LoopVars) * World := prepare_cycle (H := deps) config w0.

Definition start_time : Q :=
  match prepared.1 with Ok (t, _) => t | Raise _ => 0%Q end.

Definition vars0 : LoopVars :=
  match prepared.1 with
  | Ok (_, vars) => vars
  | Raise _ => {| i := 0; task_schedules := [] |}
  end.

Definition w1 : World := prepared.2.

(** Another instance has used up the budget of [image] meanwhile. *)
Definition drained : Redis :=
  {| counters :=
       <[requests_remaining_key image := 0]> (counters (redis_db w1));
     query_queue := query_queue (redis_db w1) |}.

Definition w2 : World := with_redis (fun _ => drained) w1.

(** The schedule the next turn pops, the rest of the queue, and the
    world after the wait for it. *)
Definition first : TaskScheduleInfo :=
  match heapq.heappop TaskScheduleInfo_lt (task_schedules vars0) with
  | Some (schedule, _) => schedule
  | None => behind
  end.

Definition others : list TaskScheduleInfo :=
  match heapq.heappop TaskScheduleInfo_lt (task_schedules vars0) with
  | Some (_, rest) => rest
  | None => []
  end.

Definition w3 : World := (wait_for_schedule (3600 * 1) start_time first w2).2.

(** A handle is made from a key of 44 characters, the length of 32
    bytes in URL-safe base64. *)
Definition make_handle (key : option string) : option string :=
  match key with
  | Some k => if (String.length k =? 44)%nat then Some k else None
  | None => None
  end.

Definition row (hotkey : string) (node_id : Z) (key : option string) : NodeRow.t :=
  {| NodeRow.hotkey := hotkey; NodeRow.coldkey := "5Cold";
     NodeRow.node_id := node_id; NodeRow.incentive := 1 # 10;
     NodeRow.netuid := 19; NodeRow.stake := 1000; NodeRow.trust := 1 # 2;
     NodeRow.vtrust := 1 # 2; NodeRow.last_updated := Some 4200%Q;
     NodeRow.ip := "10.0.0.1"; NodeRow.ip_type := 4; NodeRow.port := 8091;
     NodeRow.protocol := 4; NodeRow.network := "finney";
     NodeRow.symmetric_key := key; NodeRow.symmetric_key_uuid := Some "uuid-1";
     NodeRow.our_validator := false; NodeRow.created_at := 900 |}.

Definition keyed : NodeRow.t :=
  row "5Alice" 1 (Some "AAAAAAAAAAAAAAAAAAAAAAAAAAAAAAAAAAAAAAAAAAA=").
Definition unkeyed : NodeRow.t := row "5Bob" 2 None.

Definition db : Database :=
  {| nodes_table := [keyed; unkeyed]; nodes_history_table := [];
     current_timestamp := 1000 |}.

(** A node as the chain sync reports it. *)
Definition carol : Node.t string :=
  {| Node.hotkey := "5Carol"; Node.coldkey := "5Cold"; Node.node_id := 3;
     Node.incentive := 1 # 5; Node.netuid := 19; Node.stake := 2000;
     Node.trust := 1 # 2; Node.vtrust := 1 # 2; Node.last_updated := Some 4300%Q;
     Node.ip := "10.0.0.3"; Node.ip_type := 4; Node.port := 8091;
     Node.protocol := 4; Node.fernet := Some "handle";
     Node.symmetric_key_uuid := Some "uuid-3" |}.

(** The world after the purge of the leftovers of [w0]. *)
Definition purged : World := (_clear_old_synthetic_queries (H := deps) w0).2.

(** A work queue with an item that is not the text of a JSON object. *)
Definition spoiled : World :=
  world 1000 (store 5) ["organic-job-1"; "a-list"; "synthetic-job-1"].

(** A turn on a counter that is ahead of the schedule: flow, loop
    variables and world after it. *)
Definition turn : Res (Flow * LoopVars) * World :=
  loop_body (H := deps) 3600 0 (one behind) (world 1000 (store 7) []).

Definition turn_flow : Flow :=
  match turn.1 with Ok (flow, _) => flow | Raise _ => Break end.

Definition turn_vars : LoopVars :=
  match turn.1 with Ok (_, vars) => vars | Raise _ => one behind end.

Definition turn_world : World := turn.2.

(** Two turns of the prepared cycle with nobody else on the store. *)
Definition ran : Res (option LoopVars) * World :=
  while_task_schedules (H := deps) 2 (3600 * 1) start_time vars0 w1.

(** Dependencies under which no contender serves an enabled task. *)
Definition idle_deps : Deps :=
  {| SCORING_PERIOD_TIME := 3600;
     get_task_configs := task_configs;
     load_contenders := [Contender.mk retired 50; Contender.mk "unknown" 30];
     add_synthetic_query_to_queue := enqueue;
     SYNTHETIC := "synthetic";
     json_loads := decode |}.

(** A node that comes with a handle for the row of [5Bob]; the key of a
    handle is the text the handle was made from. *)
Definition bob : Node.t string :=
  {| Node.hotkey := "5Bob"; Node.coldkey := "5Cold"; Node.node_id := 2;
     Node.incentive := 1 # 10; Node.netuid := 19; Node.stake := 1000;
     Node.trust := 1 # 2; Node.vtrust := 1 # 2; Node.last_updated := Some 4200%Q;
     Node.ip := "10.0.0.1"; Node.ip_type := 4; Node.port := 8091;
     Node.protocol := 4;
     Node.fernet := Some "BBBBBBBBBBBBBBBBBBBBBBBBBBBBBBBBBBBBBBBBBBB=";
     Node.symmetric_key_uuid := Some "uuid-2" |}.

Definition key_of (handle : string) : string := handle.

(** Dependencies in which the conversion constant of [text-to-image] is 0. *)
Definition zero_deps : Deps :=
  {| SCORING_PERIOD_TIME := 3600;
     get_task_configs :=
       <[image := {| volume_to_requests_conversion := 0; enabled := true |}]> task_configs;
     load_contenders := contenders;
     add_synthetic_query_to_queue := enqueue;
     SYNTHETIC := "synthetic";
     json_loads := decode |}.
End Sample.

(** * Properties *)

(** ** [heapq] keeps the elements of the list *)

Section HeapFacts.
Context {A : Type} (lt : A -> A -> bool).
Implicit Types (heap : list A) (pos : nat).

(** Overwriting the entry [x] at [pos] by [y] trades one [x] for one [y]. *)
Lemma insert_trade heap pos x y :
  heap !! pos = Some x -> x :: <[pos := y]> heap ≡ₚ y :: heap.
Proof.
  revert pos. induction heap as [|a heap IH]; intros [|pos] Hx; simplify_eq/=.
  - apply perm_swap.
  - rewrite perm_swap, (IH pos Hx). apply perm_swap.
Qed.

(** Moving the hole: the entry at [src] is copied into the hole at
    [pos], and the hole is then at [src]. *)
Lemma move_hole heap pos src x moved :
  (pos < length heap)%nat -> src <> pos -> heap !! src = Some moved ->
  <[src := x]> (<[pos := moved]> heap) ≡ₚ <[pos := x]> heap.
Proof.
  intros Hpos Hne Hsrc.
  destruct (lookup_lt_is_Some_2 heap pos Hpos) as [z Hz].
  apply (Permutation_cons_inv (a := moved)), (Permutation_cons_inv (a := z)).
  transitivity (x :: moved :: heap).
  - rewrite (insert_trade (<[pos:=moved]> heap) src moved x)
      by (rewrite list_lookup_insert_ne; auto).
    rewrite (perm_swap x z), (insert_trade heap pos z moved Hz). done.
  - rewrite (perm_swap moved z), (insert_trade heap pos z x Hz). apply perm_swap.
Qed.

Local Ltac loop_left := by simplify_eq; split.

Lemma siftdown_loop_hole fuel heap startpos pos newitem x heap' pos' :
  (pos < length heap)%nat ->
  heapq.siftdown_loop lt fuel heap startpos pos newitem = (heap', pos') ->
  (pos' < length heap')%nat /\ <[pos' := x]> heap' ≡ₚ <[pos := x]> heap.
Proof.
  revert heap pos. induction fuel as [|fuel IH]; intros heap pos Hpos Hrun; cbn [heapq.siftdown_loop heapq.siftup_loop] in Hrun.
  { loop_left. }
  destruct (decide (startpos < pos)%nat) as [Hlt|]; [|loop_left].
  destruct (heap !! ((pos - 1) / 2)%nat) as [parent|] eqn:Hparent; [|loop_left].
  destruct (lt newitem parent); [|loop_left].
  assert ((pos - 1) / 2 < pos)%nat as Hup.
  { apply Nat.Div0.div_lt_upper_bound. lia. }
  apply IH in Hrun as [Hlen Hperm].
  - split; [done|]. rewrite Hperm. apply move_hole; [done|lia|done].
  - rewrite length_insert. lia.
Qed.

Lemma siftdown_perm heap startpos pos : heapq._siftdown lt heap startpos pos ≡ₚ heap.
Proof.
  unfold heapq._siftdown. destruct (heap !! pos) as [newitem|] eqn:Hpos; [|done].
  destruct (heapq.siftdown_loop lt pos heap startpos pos newitem) as [heap' pos'] eqn:Hrun.
  eapply (siftdown_loop_hole _ _ _ _ _ newitem) in Hrun as [_ ->].
  - by rewrite list_insert_id.
  - by eapply lookup_lt_Some.
Qed.

Lemma siftup_loop_hole fuel heap pos x heap' pos' :
  (pos < length heap)%nat ->
  heapq.siftup_loop lt fuel heap pos = (heap', pos') ->
  (pos' < length heap')%nat /\ <[pos' := x]> heap' ≡ₚ <[pos := x]> heap.
Proof.
  revert heap pos. induction fuel as [|fuel IH]; intros heap pos Hpos Hrun; cbn [heapq.siftdown_loop heapq.siftup_loop] in Hrun.
  { loop_left. }
  destruct (decide (2 * pos + 1 < length heap)%nat) as [Hlt|]; [|loop_left].
  set (childpos :=
         match heap !! (2 * pos + 1)%nat, heap !! (2 * pos + 1 + 1)%nat with
         | Some l, Some r => if negb (lt l r) then (2 * pos + 1 + 1)%nat else (2 * pos + 1)%nat
         | _, _ => (2 * pos + 1)%nat
         end) in *.
  assert (pos < childpos)%nat as Hdown.
  { unfold childpos. repeat case_match; lia. }
  destruct (heap !! childpos) as [child|] eqn:Hchild; [|loop_left].
  apply IH in Hrun as [Hlen Hperm].
  - split; [done|]. rewrite Hperm. apply move_hole; [done|lia|done].
  - rewrite length_insert. by eapply lookup_lt_Some.
Qed.

Lemma siftup_perm heap pos : heapq._siftup lt heap pos ≡ₚ heap.
Proof.
  unfold heapq._siftup. destruct (heap !! pos) as [newitem|] eqn:Hpos; [|done].
  destruct (heapq.siftup_loop lt (length heap) heap pos) as [heap' pos'] eqn:Hrun.
  rewrite siftdown_perm.
  eapply (siftup_loop_hole _ _ _ newitem) in Hrun as [_ ->].
  - by rewrite list_insert_id.
  - by eapply lookup_lt_Some.
Qed.

(** [heappush] adds the item and nothing else. *)
Lemma heappush_perm heap item : heapq.heappush lt heap item ≡ₚ item :: heap.
Proof.
  unfold heapq.heappush. rewrite siftdown_perm. by rewrite Permutation_app_comm.
Qed.

(** [heappop] takes out the item it returns and nothing else. *)
Lemma heappop_perm heap item heap' :
  heapq.heappop lt heap = Some (item, heap') -> heap ≡ₚ item :: heap'.
Proof.
  unfold heapq.heappop. intros Hpop.
  destruct (reverse heap) as [|lastelt rev_rest] eqn:Hrev; [done|].
  apply (f_equal reverse) in Hrev. rewrite reverse_involutive, reverse_cons in Hrev.
  subst heap. destruct (reverse rev_rest) as [|returnitem rest]; simplify_eq/=.
  - done.
  - rewrite siftup_perm. rewrite <- Permutation_middle. apply perm_skip.
    by rewrite Permutation_app_comm.
Qed.

Lemma heappop_nonempty heap : heap <> [] -> is_Some (heapq.heappop lt heap).
Proof.
  intros Hne. unfold heapq.heappop.
  destruct (reverse heap) as [|lastelt rev_rest] eqn:Hrev.
  - apply (f_equal reverse) in Hrev. by rewrite reverse_involutive in Hrev.
  - destruct (reverse rev_rest); eauto.
Qed.
End HeapFacts.

(** ** Comparisons on rationals *)

Lemma Qltb_lt (x y : Q) : Qltb x y = true <-> (x < y)%Q.
Proof.
  unfold Qltb. rewrite negb_true_iff, <- not_true_iff_false, Qle_bool_iff.
  split; [apply Qnot_le_lt | apply Qlt_not_le].
Qed.

Lemma Qltb_ge (x y : Q) : Qltb x y = false <-> (y <= x)%Q.
Proof.
  unfold Qltb. rewrite negb_false_iff. apply Qle_bool_iff.
Qed.

(** ** The paced wait *)

Section WaitFacts.
Context `{Deps}.

Lemma with_slept_id w : with_slept (slept w) w = w.
Proof. by destruct w. Qed.

(** The loop only sleeps: the world changes by the log of its sleeps. *)
Lemma sleep_loop_run fuel time_to_sleep w :
  sleep_loop fuel time_to_sleep w
  = (Ok tt, with_slept (slept w ++ sleep_chunks fuel time_to_sleep) w).
Proof.
  revert time_to_sleep w. induction fuel as [|fuel IH]; intros t w; simpl.
  - by rewrite app_nil_r, with_slept_id.
  - destruct (Qltb 0 t); simpl.
    + unfold bind, asyncio_sleep. rewrite IH. simpl. by rewrite <- app_assoc.
    + unfold ret. by rewrite app_nil_r, with_slept_id.
Qed.

(** The wait leaves the loop, or proceeds after sleeping; the clock is
    read once or twice and nothing else changes. *)
Lemma wait_for_schedule_run scoring_period_time start_time schedule w :
  let now := time_src w (time_calls w) in
  let now' := time_src w (S (time_calls w)) in
  let time_to_sleep := (next_schedule_time schedule - now)%Q in
  wait_for_schedule scoring_period_time start_time schedule w =
    if Qltb 0 time_to_sleep then
      if Qltb scoring_period_time (now' - start_time + time_to_sleep)%Q
      then (Ok true, with_time_calls (S (S (time_calls w))) w)
      else (Ok false,
            with_slept (slept w ++ sleep_chunks (sleep_turns time_to_sleep) time_to_sleep)
              (with_time_calls (S (S (time_calls w))) w))
    else (Ok false, with_time_calls (S (time_calls w)) w).
Proof.
  unfold wait_for_schedule, bind, time_time, ret. simpl.
  destruct (Qltb 0 _); [|done]. simpl.
  destruct (Qltb scoring_period_time _); [done|].
  unfold sleep_in_chunks. by rewrite sleep_loop_run.
Qed.

Lemma wait_for_schedule_frame scoring_period_time start_time schedule w r w' :
  wait_for_schedule scoring_period_time start_time schedule w = (r, w') ->
  (exists stop, r = Ok stop)
  /\ redis_db w' = redis_db w /\ enqueued w' = enqueued w /\ gauges w' = gauges w
  /\ time_src w' = time_src w.
Proof.
  rewrite wait_for_schedule_run. cbv zeta.
  repeat case_match; intros; simplify_eq; eauto 10.
Qed.
End WaitFacts.

(** ** The status report keeps the queue *)

Section ReportFacts.
Context `{Deps}.

Lemma pop_all_perm n heap popped heap' :
  pop_all n heap = (popped, heap') -> heap ≡ₚ popped ++ heap'.
Proof.
  revert heap popped heap'. induction n as [|n IH]; intros heap popped heap' Hpop; simpl in Hpop.
  { by simplify_eq. }
  destruct (heapq.heappop TaskScheduleInfo_lt heap) as [[schedule rest]|] eqn:Hone;
    [|by simplify_eq].
  destruct (pop_all n rest) as [popped' rest'] eqn:Hrest. simplify_eq.
  apply heappop_perm in Hone. rewrite Hone. simpl. by rewrite (IH _ _ _ Hrest).
Qed.

Lemma report_and_push_run schedules_left heap w :
  exists heap',
    report_and_push schedules_left heap w
    = (Ok heap', with_time_calls (length schedules_left + time_calls w) w)
    /\ heap' ≡ₚ schedules_left ++ heap.
Proof.
  revert heap w. induction schedules_left as [|schedule rest IH]; intros heap w; simpl.
  - exists heap. split; [|done]. unfold ret. by destruct w.
  - unfold bind, time_time.
    destruct (IH (heapq.heappush TaskScheduleInfo_lt heap schedule)
                (with_time_calls (S (time_calls w)) w)) as (heap' & -> & Hperm).
    exists heap'. split.
    + simpl. f_equal. unfold with_time_calls; simpl. f_equal. lia.
    + rewrite Hperm, heappush_perm. by rewrite Permutation_middle.
Qed.

Lemma status_report_run heap w :
  exists heap' n,
    status_report heap w = (Ok heap', with_time_calls n w) /\ heap' ≡ₚ heap.
Proof.
  unfold status_report.
  destruct (pop_all (length heap) heap) as [schedules_left rest] eqn:Hpop.
  apply pop_all_perm in Hpop.
  destruct (report_and_push_run schedules_left rest w) as (heap' & Hrun & Hperm).
  unfold bind. rewrite Hrun. unfold time_time, ret. simpl.
  exists heap', (S (length schedules_left + time_calls w)). split; [done|].
  by rewrite Hperm, Hpop.
Qed.
End ReportFacts.

(** ** One turn of the scheduling loop *)

Section TurnFacts.
Context `{Deps}.
Implicit Types (schedule : TaskScheduleInfo) (vars : LoopVars) (w : World).

Lemma get_redis_remaining_requests_run task w :
  _get_redis_remaining_requests task w = (Ok (latest_in w task), w).
Proof.
  unfold _get_redis_remaining_requests, bind, redis_get, ret, latest_in. simpl.
  by destruct (counters (redis_db w) !! requests_remaining_key task).
Qed.

(** A turn that gets past the wait continues with the reconciliation. *)
Lemma loop_body_past_wait scoring_period_time start_time vars w schedule rest w1 :
  heapq.heappop TaskScheduleInfo_lt (task_schedules vars) = Some (schedule, rest) ->
  wait_for_schedule scoring_period_time start_time schedule w = (Ok false, w1) ->
  loop_body scoring_period_time start_time vars w
  = reconcile_and_issue scoring_period_time start_time (i vars + 1) schedule rest w1.
Proof.
  intros Hpop Hwait. unfold loop_body. rewrite Hpop. unfold bind. by rewrite Hwait.
Qed.

(** A turn that stops at the wait leaves the loop without the popped
    schedule. *)
Lemma loop_body_stopped scoring_period_time start_time vars w schedule rest w1 :
  heapq.heappop TaskScheduleInfo_lt (task_schedules vars) = Some (schedule, rest) ->
  wait_for_schedule scoring_period_time start_time schedule w = (Ok true, w1) ->
  loop_body scoring_period_time start_time vars w
  = (Ok (Break, {| i := i vars + 1; task_schedules := rest |}), w1).
Proof.
  intros Hpop Hwait. unfold loop_body. rewrite Hpop. unfold bind. by rewrite Hwait.
Qed.

(** Exhausted: the shared counter is not positive. *)
Lemma reconcile_exhausted scoring_period_time start_time n schedule rest w :
  latest_in w (task schedule) <= 0 ->
  reconcile_and_issue scoring_period_time start_time n schedule rest w
  = (Ok (Continue, {| i := n; task_schedules := rest |}), w).
Proof.
  intros Hle. unfold reconcile_and_issue, bind.
  rewrite get_redis_remaining_requests_run.
  by destruct (Z.leb_spec (latest_in w (task schedule)) 0); [|lia].
Qed.

Lemma reconcile_drift scoring_period_time start_time n schedule rest w :
  0 < latest_in w (task schedule) < remaining_requests schedule ->
  reconcile_and_issue scoring_period_time start_time n schedule rest w
  = (Ok (Continue,
         {| i := n;
            task_schedules :=
              heapq.heappush TaskScheduleInfo_lt rest
                (corrected schedule (latest_in w (task schedule))) |}),
     with_gauges
       (gauges w ++ [(GAUGE_REQUESTS_TO_SKIP,
                      remaining_requests schedule - latest_in w (task schedule),
                      task schedule)]) w).
Proof.
  intros [Hpos Hlt]. unfold reconcile_and_issue, bind.
  rewrite get_redis_remaining_requests_run.
  destruct (Z.leb_spec (latest_in w (task schedule)) 0); [lia|].
  unfold gauge_set. cbn beta iota.
  by destruct (Z.ltb_spec 0 (remaining_requests schedule - latest_in w (task schedule)));
    [|lia].
Qed.

Lemma reconcile_issue scoring_period_time start_time n schedule rest w :
  let latest := latest_in w (task schedule) in
  0 < latest -> remaining_requests schedule <= latest ->
  exists flow heap' w',
    reconcile_and_issue scoring_period_time start_time n schedule rest w
    = (Ok (flow, {| i := n; task_schedules := heap' |}), w')
    /\ heap' ≡ₚ (if 0 <? latest - 1
                 then issued schedule latest (time_src w (time_calls w)) :: rest
                 else rest)
    /\ (flow = Break <->
        (scoring_period_time < time_src w (S (time_calls w)) - start_time)%Q)
    /\ (flow = Break ->
        heap' = if 0 <? latest - 1
                then heapq.heappush TaskScheduleInfo_lt rest
                       (issued schedule latest (time_src w (time_calls w)))
                else rest)
    /\ enqueued w' = enqueued w ++ [(task schedule, 100)]
    /\ redis_db w'
       = (let store := add_synthetic_query_to_queue (task schedule) 100 (redis_db w) in
          set_counters
            (<[requests_remaining_key (task schedule) := latest - 1]> (counters store))
            store)
    /\ slept w' = slept w
    /\ time_src w' = time_src w.
Proof.
  intros latest Hpos Hge. unfold reconcile_and_issue, bind.
  rewrite get_redis_remaining_requests_run. fold latest.
  destruct (Z.leb_spec latest 0); [lia|].
  unfold gauge_set. cbn beta iota.
  destruct (Z.ltb_spec 0 (remaining_requests schedule - latest)); [lia|].
  unfold _schedule_synthetic_query, _update_redis_remaining_requests, redis_set,
    time_time, ret.
  cbn beta iota. cbn [time_src time_calls with_time_calls with_gauges with_redis
                       with_enqueued gauges].
  set (heap1 := if 0 <? latest - 1 then _ else rest).
  assert (heap1 ≡ₚ (if 0 <? latest - 1
                    then issued schedule latest (time_src w (time_calls w)) :: rest
                    else rest)) as Hheap1.
  { unfold heap1. destruct (0 <? latest - 1); [apply heappush_perm|done]. }
  destruct (Qltb scoring_period_time _) eqn:Hcut.
  { eexists Break, heap1, _. split; [done|]. apply Qltb_lt in Hcut.
    repeat split; try done. }
  assert (~ (scoring_period_time < time_src w (S (time_calls w)) - start_time)%Q) as Hin.
  { apply Qltb_ge in Hcut. by apply Qle_not_lt. }
  destruct (n mod 100 =? 0).
  - match goal with |- context [status_report ?h ?w0] =>
      destruct (status_report_run h w0) as (heap' & k & -> & Hperm) end.
    eexists Continue, heap', _. split; [done|].
    repeat split; try done. by rewrite Hperm.
  - eexists Continue, heap1, _. split; [done|]. repeat split; try done.
Qed.

Lemma wait_keeps_latest scoring_period_time start_time schedule w r w1 task :
  wait_for_schedule scoring_period_time start_time schedule w = (r, w1) ->
  latest_in w1 task = latest_in w task.
Proof.
  intros Hwait. apply wait_for_schedule_frame in Hwait as (_ & Hstore & _).
  unfold latest_in. by rewrite Hstore.
Qed.

(** C1 -- Drift correction.  When the turn for a popped schedule gets past
    the wait and the shared counter holds a value [latest] with
    [0 < latest < remaining_requests], the turn continues the loop with the
    corrected schedule pushed back on the queue: nothing is enqueued on
    the work queue, the shared store is unchanged, the local
    [remaining_requests] becomes [latest] and [next_schedule_time] grows by
    exactly [interval * (remaining_requests - latest)]. *)
Theorem drift_correction scoring_period_time start_time vars w schedule rest w1 latest :
  heapq.heappop TaskScheduleInfo_lt (task_schedules vars) = Some (schedule, rest) ->
  wait_for_schedule scoring_period_time start_time schedule w = (Ok false, w1) ->
  counters (redis_db w) !! requests_remaining_key (task schedule) = Some latest ->
  0 < latest ->
  latest < remaining_requests schedule ->
  exists schedule' w',
    loop_body scoring_period_time start_time vars w
    = (Ok (Continue,
           {| i := i vars + 1;
              task_schedules := heapq.heappush TaskScheduleInfo_lt rest schedule' |}),
       w')
    /\ schedule' ∈ heapq.heappush TaskScheduleInfo_lt rest schedule'
    /\ task schedule' = task schedule
    /\ remaining_requests schedule' = latest
    /\ next_schedule_time schedule'
       = (next_schedule_time schedule
          + interval schedule * inject_Z (remaining_requests schedule - latest))%Q
    /\ interval schedule' = interval schedule
    /\ total_requests schedule' = total_requests schedule
    /\ enqueued w' = enqueued w
    /\ redis_db w' = redis_db w
    /\ slept w' = slept w1.
Proof.
  intros Hpop Hwait Hstore Hpos Hlt.
  assert (latest_in w1 (task schedule) = latest) as Hlatest.
  { rewrite (wait_keeps_latest _ _ _ _ _ _ _ Hwait). unfold latest_in. by rewrite Hstore. }
  rewrite (loop_body_past_wait _ _ _ _ _ _ _ Hpop Hwait).
  rewrite reconcile_drift by lia. rewrite Hlatest.
  apply wait_for_schedule_frame in Hwait as (_ & Hredis & Henq & _).
  eexists (corrected schedule latest), _. split; [done|].
  split; [rewrite heappush_perm; apply list_elem_of_here|].
  repeat split; done.
Qed.

(** C2 -- Issuance step.  When the turn for a popped schedule gets past the
    wait and the shared counter holds a value [latest] that is positive and
    at least the local [remaining_requests], the enqueue utility is called
    exactly once, for this task and with a cap of 100; the shared counter
    is then written back as [latest - 1]; and the schedule goes on with
    [next_schedule_time] the clock reading after the write plus [interval]
    and [remaining_requests = latest - 1]: it is back in the queue when
    that is positive and gone otherwise. *)
Theorem issuance_step scoring_period_time start_time vars w schedule rest w1 latest :
  heapq.heappop TaskScheduleInfo_lt (task_schedules vars) = Some (schedule, rest) ->
  wait_for_schedule scoring_period_time start_time schedule w = (Ok false, w1) ->
  counters (redis_db w) !! requests_remaining_key (task schedule) = Some latest ->
  0 < latest ->
  remaining_requests schedule <= latest ->
  exists flow heap' schedule' w',
    loop_body scoring_period_time start_time vars w
    = (Ok (flow, {| i := i vars + 1; task_schedules := heap' |}), w')
    /\ enqueued w' = enqueued w ++ [(task schedule, 100)]
    /\ redis_db w'
       = (let store := add_synthetic_query_to_queue (task schedule) 100 (redis_db w) in
          set_counters
            (<[requests_remaining_key (task schedule) := latest - 1]> (counters store))
            store)
    /\ counters (redis_db w') !! requests_remaining_key (task schedule)
       = Some (latest - 1)
    /\ task schedule' = task schedule
    /\ next_schedule_time schedule'
       = (time_src w (time_calls w1) + interval schedule)%Q
    /\ remaining_requests schedule' = latest - 1
    /\ interval schedule' = interval schedule
    /\ total_requests schedule' = total_requests schedule
    /\ heap' ≡ₚ (if 0 <? latest - 1 then schedule' :: rest else rest).
Proof.
  intros Hpop Hwait Hstore Hpos Hge.
  assert (latest_in w1 (task schedule) = latest) as Hlatest.
  { rewrite (wait_keeps_latest _ _ _ _ _ _ _ Hwait). unfold latest_in. by rewrite Hstore. }
  rewrite (loop_body_past_wait _ _ _ _ _ _ _ Hpop Hwait).
  destruct (reconcile_issue scoring_period_time start_time (i vars + 1) schedule rest w1)
    as (flow & heap' & w' & Hrun & Hheap & _ & _ & Henq & Hredis & _);
    [lia..|].
  rewrite Hlatest in *.
  apply wait_for_schedule_frame in Hwait as (_ & Hredis1 & Henq1 & _ & Hsrc).
  rewrite Hredis1 in Hredis. rewrite Henq1 in Henq. rewrite Hsrc in Hheap.
  exists flow, heap', (issued schedule latest (time_src w (time_calls w1))), w'.
  split; [done|]. split; [done|]. split; [done|].
  split; [rewrite Hredis; simpl; apply lookup_insert_eq|].
  repeat split; done.
Qed.

(** C10 -- A missing counter key reads as 0, and the task is then treated
    as exhausted at its next pop: whatever its local [remaining_requests],
    the turn ends with the schedule out of the queue, nothing enqueued and
    the shared store unchanged. *)
Theorem missing_counter_is_exhausted scoring_period_time start_time vars w schedule rest :
  heapq.heappop TaskScheduleInfo_lt (task_schedules vars) = Some (schedule, rest) ->
  counters (redis_db w) !! requests_remaining_key (task schedule) = None ->
  _get_redis_remaining_requests (task schedule) w = (Ok 0, w)
  /\ exists flow w',
      loop_body scoring_period_time start_time vars w
      = (Ok (flow, {| i := i vars + 1; task_schedules := rest |}), w')
      /\ enqueued w' = enqueued w
      /\ redis_db w' = redis_db w
      /\ gauges w' = gauges w.
Proof.
  intros Hpop Hnone.
  assert (latest_in w (task schedule) = 0) as Hzero.
  { unfold latest_in. by rewrite Hnone. }
  split; [by rewrite get_redis_remaining_requests_run, Hzero|].
  destruct (wait_for_schedule scoring_period_time start_time schedule w)
    as [r w1] eqn:Hwait.
  pose proof (wait_keeps_latest _ _ _ _ _ _ (task schedule) Hwait) as Hkeep.
  destruct (wait_for_schedule_frame _ _ _ _ _ _ Hwait)
    as ([stop ->] & Hredis & Henq & Hgauges & _).
  destruct stop.
  - rewrite (loop_body_stopped _ _ _ _ _ _ _ Hpop Hwait). eauto 10.
  - rewrite (loop_body_past_wait _ _ _ _ _ _ _ Hpop Hwait).
    rewrite reconcile_exhausted by lia. eauto 10.
Qed.
End TurnFacts.

(** ** The queue over a whole cycle *)

Section CycleFacts.
Context `{Deps}.
Implicit Types (schedule : TaskScheduleInfo) (vars : LoopVars) (w : World).

Lemma submseteq_NoDup {A} (l k : list A) : l ⊆+ k -> NoDup k -> NoDup l.
Proof.
  intros [k' Hk]%submseteq_Permutation. rewrite Hk. by intros [? _]%NoDup_app.
Qed.

(** A turn never raises, and it puts no task into the queue that was not
    there: the popped schedule comes back under its own task or not at all. *)
Lemma loop_body_tasks scoring_period_time start_time vars w :
  exists flow vars' w',
    loop_body scoring_period_time start_time vars w = (Ok (flow, vars'), w')
    /\ tasks_of (task_schedules vars') ⊆+ tasks_of (task_schedules vars).
Proof.
  destruct (heapq.heappop TaskScheduleInfo_lt (task_schedules vars))
    as [[schedule rest]|] eqn:Hpop.
  2:{ unfold loop_body. rewrite Hpop. unfold ret. eauto 10. }
  pose proof (heappop_perm _ _ _ _ Hpop) as Hheap.
  assert (tasks_of rest ⊆+ tasks_of (task_schedules vars)) as Hrest.
  { unfold tasks_of. rewrite Hheap. simpl. by apply submseteq_cons. }
  assert (forall schedule', task schedule' = task schedule ->
            tasks_of (schedule' :: rest) ⊆+ tasks_of (task_schedules vars)) as Hback.
  { intros schedule' Htask. unfold tasks_of. rewrite Hheap. simpl. by rewrite Htask. }
  destruct (wait_for_schedule scoring_period_time start_time schedule w)
    as [r w1] eqn:Hwait.
  destruct (wait_for_schedule_frame _ _ _ _ _ _ Hwait) as ([stop ->] & _).
  destruct stop.
  { rewrite (loop_body_stopped _ _ _ _ _ _ _ Hpop Hwait). eauto 10. }
  rewrite (loop_body_past_wait _ _ _ _ _ _ _ Hpop Hwait).
  destruct (Z_le_gt_dec (latest_in w1 (task schedule)) 0) as [Hle|Hpos].
  { rewrite reconcile_exhausted by done. eauto 10. }
  destruct (Z_lt_le_dec (latest_in w1 (task schedule)) (remaining_requests schedule))
    as [Hlt|Hge].
  { rewrite reconcile_drift by lia. do 3 eexists. split; [done|].
    unfold tasks_of in *. simpl. rewrite heappush_perm. by apply Hback. }
  destruct (reconcile_issue scoring_period_time start_time (i vars + 1) schedule rest w1)
    as (flow & heap' & w' & -> & Hperm & _); [lia..|].
  do 3 eexists. split; [done|]. unfold tasks_of in *. simpl. rewrite Hperm.
  destruct (0 <? _); [by apply Hback|done].
Qed.


(** The loop as it runs takes turns of the transition system. *)
Lemma while_task_schedules_steps fuel scoring_period_time start_time vars w r w' :
  while_task_schedules fuel scoring_period_time start_time vars w = (r, w') ->
  (r = Ok None
   /\ exists vars1 w1,
       rtc (cycle_step scoring_period_time start_time) (Continue, vars, w)
         (Continue, vars1, w1))
  \/ (exists flow vars',
        r = Ok (Some vars')
        /\ rtc (cycle_step scoring_period_time start_time) (Continue, vars, w)
             (flow, vars', w')
        /\ (flow = Continue -> task_schedules vars' = [])).
Proof.
  revert vars w. induction fuel as [|fuel IH]; intros vars w;
    cbn [while_task_schedules]; destruct (task_schedules vars) as [|schedule rest] eqn:Hheap.
  - intros [= <- <-]. right. exists Continue, vars. eauto using rtc_refl.
  - intros [= <- <-]. left. split; [done|]. exists vars, w. apply rtc_refl.
  - intros [= <- <-]. right. exists Continue, vars. eauto using rtc_refl.
  - unfold bind.
    destruct (loop_body_tasks scoring_period_time start_time vars w)
      as (flow & vars1 & w1 & Hturn & _).
    rewrite Hturn.
    assert (cycle_step scoring_period_time start_time (Continue, vars, w) (flow, vars1, w1))
      as Hstep by (apply turn_step; [by rewrite Hheap|done]).
    destruct flow.
    + intros Hrest. apply IH in Hrest as [(-> & vars2 & w2 & Hrun)|(flow & vars2 & -> & Hrun & Hend)].
      * left. split; [done|]. exists vars2, w2. by eapply rtc_l.
      * right. exists flow, vars2. split; [done|]. split; [by eapply rtc_l|done].
    + intros [= <- <-]. right. exists Break, vars1. split; [done|].
      split; [by apply rtc_once|done].
Qed.

(** *** The initial queue has one schedule per task at most *)

Lemma group_append_keys task_groups task contender :
  ((task ∈ task_groups.*1)
   /\ (group_append task_groups task contender).*1 = task_groups.*1)
  \/ ((task ∉ task_groups.*1)
      /\ (group_append task_groups task contender).*1 = task_groups.*1 ++ [task]).
Proof.
  induction task_groups as [|[t cs] rest IH].
  { right. split; [apply not_elem_of_nil|done]. }
  cbn [group_append]. destruct (String.eqb_spec t task) as [->|Hne].
  - left. split; [apply list_elem_of_here|done].
  - rewrite !fmap_cons. cbn [fst].
    destruct IH as [[Hin ->]|[Hout ->]].
    + left. split; [by apply list_elem_of_further|done].
    + right. split; [|done]. by intros [?|?]%elem_of_cons.
Qed.

Lemma group_contenders_by_task_NoDup contenders :
  NoDup (_group_contenders_by_task contenders).*1.
Proof.
  unfold _group_contenders_by_task.
  assert (NoDup ([] : list (string * list Contender.t)).*1) as Hnil by constructor.
  revert Hnil. generalize ([] : list (string * list Contender.t)).
  induction contenders as [|c cs IH]; intros groups Hgroups; simpl; [done|].
  apply IH. destruct (get_task_configs !! Contender.task c); [|done].
  destruct (group_append_keys groups (Contender.task c) c) as [[_ ->]|[Hout ->]]; [done|].
  apply NoDup_app. split_and!; [done| |apply NoDup_singleton].
  by intros x Hx ->%list_elem_of_singleton.
Qed.

Lemma initialize_task_schedule_tasks scoring_period_time config schedules group w
    schedules' w' :
  initialize_task_schedule scoring_period_time config schedules group w
  = (Ok schedules', w') ->
  tasks_of schedules' ⊆+ group.1 :: tasks_of schedules.
Proof.
  destruct group as [task contenders]. unfold initialize_task_schedule, bind, lift.
  destruct (_calculate_task_requests task contenders config) as [n|]; [|done].
  destruct (0 <? n).
  - unfold time_time, _get_initial_schedule_time, bind, random_random, ret. simpl.
    intros [= <- _]. unfold tasks_of. by rewrite heappush_perm.
  - unfold ret. intros [= <- _]. by apply submseteq_cons.
Qed.

Lemma initialize_task_schedules_loop_tasks scoring_period_time config schedules
    task_groups w schedules' w' :
  initialize_task_schedules_loop scoring_period_time config schedules task_groups w
  = (Ok schedules', w') ->
  tasks_of schedules' ⊆+ reverse task_groups.*1 ++ tasks_of schedules.
Proof.
  revert schedules w. induction task_groups as [|group rest IH]; intros schedules w; simpl.
  { unfold ret. by intros [= <- _]. }
  unfold bind.
  destruct (initialize_task_schedule scoring_period_time config schedules group w)
    as [[schedules1|] w1] eqn:Hone; [|done].
  intros Hrest%IH. apply initialize_task_schedule_tasks in Hone.
  rewrite reverse_cons, <- app_assoc. simpl.
  etrans; [apply Hrest|]. by apply submseteq_skips_l.
Qed.

Lemma prepare_cycle_NoDup config w start_time vars w' :
  prepare_cycle config w = (Ok (start_time, vars), w') ->
  NoDup (tasks_of (task_schedules vars)).
Proof.
  unfold prepare_cycle, bind, time_time, _load_contenders, ret.
  cbn beta iota.
  destruct (_initialize_task_schedules _ config _) as [[schedules|] w1] eqn:Hinit; [|done].
  destruct (_clear_old_synthetic_queries w1) as [[[]|] w2]; [|done].
  destruct (publish_total_requests schedules w2) as [[[]|] w3]; [|done].
  intros [= _ <- _]. simpl.
  apply initialize_task_schedules_loop_tasks in Hinit.
  eapply submseteq_NoDup; [apply Hinit|].
  rewrite app_nil_r, reverse_Permutation. apply group_contenders_by_task_NoDup.
Qed.

End CycleFacts.

(** ** The sleeps of a wait *)

Section ChunkFacts.
Context `{Deps}.

Lemma py_min_2 (t : Q) : (0 < t)%Q -> (0 < py_min 2 t /\ py_min 2 t <= 2)%Q.
Proof.
  intros Ht. unfold py_min. destruct (Qltb t 2) eqn:Hlt.
  - apply Qltb_lt in Hlt. lra.
  - lra.
Qed.

Lemma sleep_chunks_bounds fuel (t : Q) :
  Forall (fun d => (0 < d /\ d <= 2)%Q) (sleep_chunks fuel t).
Proof.
  revert t. induction fuel as [|fuel IH]; intros t; simpl; [constructor|].
  destruct (Qltb 0 t) eqn:Hpos; [|constructor].
  apply Qltb_lt in Hpos. constructor; [by apply py_min_2|apply IH].
Qed.

Lemma sleep_chunks_nonpositive fuel (t : Q) : (t <= 0)%Q -> sleep_chunks fuel t = [].
Proof.
  intros Ht. destruct fuel; simpl; [done|].
  by rewrite (proj2 (Qltb_ge 0 t) Ht).
Qed.

Lemma inject_Z_S (n : nat) : (inject_Z (Z.of_nat (S n)) == inject_Z (Z.of_nat n) + 1)%Q.
Proof. by rewrite Nat2Z.inj_succ, <- Z.add_1_r, inject_Z_plus. Qed.

(** With enough turns the sleeps add up to the wait. *)
Lemma sleep_chunks_sum fuel (t : Q) :
  (0 < t)%Q -> (t <= 2 * inject_Z (Z.of_nat fuel))%Q ->
  (Qsum (sleep_chunks fuel t) == t)%Q.
Proof.
  revert t. induction fuel as [|fuel IH]; intros t Hpos Hfuel.
  { change (t <= 2 * 0)%Q in Hfuel. lra. }
  rewrite inject_Z_S in Hfuel. simpl.
  rewrite (proj2 (Qltb_lt 0 t) Hpos). simpl.
  unfold py_min. destruct (Qltb t 2) eqn:Hlt.
  - apply Qltb_lt in Hlt. rewrite sleep_chunks_nonpositive by lra. simpl. lra.
  - apply Qltb_ge in Hlt. destruct (Qlt_le_dec 2 t) as [Hmore|Hexact].
    + rewrite IH by lra. lra.
    + rewrite sleep_chunks_nonpositive by lra. simpl. lra.
Qed.

(** Once the guard of the loop is false, further turns change nothing. *)
Lemma sleep_chunks_more_fuel fuel fuel' (t : Q) :
  (t <= 2 * inject_Z (Z.of_nat fuel))%Q -> (fuel <= fuel')%nat ->
  sleep_chunks fuel' t = sleep_chunks fuel t.
Proof.
  revert fuel' t. induction fuel as [|fuel IH]; intros fuel' t Hfuel Hle.
  { change (t <= 2 * 0)%Q in Hfuel. simpl. apply sleep_chunks_nonpositive. lra. }
  destruct fuel' as [|fuel']; [lia|]. rewrite inject_Z_S in Hfuel. simpl.
  destruct (Qltb 0 t); [|done]. f_equal. apply IH; [lra|lia].
Qed.

Lemma sleep_turns_enough (t : Q) : (t <= 2 * inject_Z (Z.of_nat (sleep_turns t)))%Q.
Proof.
  unfold sleep_turns. pose proof (Qle_ceiling (t / 2)) as Hceil.
  assert (Qceiling (t / 2) <= Z.of_nat (Z.to_nat (Qceiling (t / 2)))) as Hnat by lia.
  rewrite Zle_Qle in Hnat.
  assert (t == 2 * (t / 2))%Q as Ht by (field).
  lra.
Qed.

(** The wait is slept in full, in chunks of at most two seconds; the
    loop has then reached a false guard. *)
Lemma sleep_in_chunks_total (t : Q) w :
  (0 < t)%Q ->
  let chunks := sleep_chunks (sleep_turns t) t in
  sleep_in_chunks t w = (Ok tt, with_slept (slept w ++ chunks) w)
  /\ Forall (fun d => (0 < d /\ d <= 2)%Q) chunks
  /\ (Qsum chunks == t)%Q
  /\ forall fuel, (sleep_turns t <= fuel)%nat -> sleep_loop fuel t w = sleep_in_chunks t w.
Proof.
  intros Hpos chunks. unfold sleep_in_chunks. rewrite sleep_loop_run.
  split; [done|]. split; [apply sleep_chunks_bounds|].
  split; [apply sleep_chunks_sum; [done|apply sleep_turns_enough]|].
  intros fuel Hfuel. rewrite sleep_loop_run.
  by rewrite (sleep_chunks_more_fuel _ _ _ (sleep_turns_enough t) Hfuel).
Qed.
End ChunkFacts.

(** ** The time bound of a cycle *)

Section BoundFacts.
Context `{Deps}.
Implicit Types (schedule : TaskScheduleInfo) (vars : LoopVars) (w : World).

(** The reconciliation never sleeps; it enqueues only on the issuing
    path, and only there it looks at the clock to leave the loop. *)
Lemma reconcile_and_issue_quiet scoring_period_time start_time n schedule rest w :
  let latest := latest_in w (task schedule) in
  exists flow vars' w',
    reconcile_and_issue scoring_period_time start_time n schedule rest w
    = (Ok (flow, vars'), w')
    /\ slept w' = slept w
    /\ (enqueued w' <> enqueued w -> 0 < latest /\ remaining_requests schedule <= latest)
    /\ (latest <= 0 \/ latest < remaining_requests schedule -> flow = Continue)
    /\ (0 < latest -> remaining_requests schedule <= latest ->
        (flow = Break <->
         (scoring_period_time < time_src w (S (time_calls w)) - start_time)%Q)
        /\ (flow = Break ->
            task_schedules vars'
            = if 0 <? latest - 1
              then heapq.heappush TaskScheduleInfo_lt rest
                     (issued schedule latest (time_src w (time_calls w)))
              else rest)).
Proof.
  intros latest. unfold latest.
  destruct (Z_le_gt_dec (latest_in w (task schedule)) 0) as [Hle|Hpos].
  { rewrite reconcile_exhausted by done. do 3 eexists. split; [done|]. split; [done|].
    split; [intros Hne; by destruct Hne|]. split; [done|]. intros; lia. }
  destruct (Z_lt_le_dec (latest_in w (task schedule)) (remaining_requests schedule))
    as [Hlt|Hge].
  { rewrite reconcile_drift by lia. do 3 eexists. split; [done|]. split; [done|].
    split; [intros Hne; by destruct Hne|]. split; [done|]. intros; lia. }
  destruct (reconcile_issue scoring_period_time start_time n schedule rest w)
    as (flow & heap' & w' & -> & _ & Hcut & Hheap & _ & _ & Hslept & _); [lia..|].
  do 3 eexists. split; [done|]. split; [done|]. split; [intros _; lia|].
  split; [intros; lia|]. intros _ _. split; [apply Hcut|apply Hheap].
Qed.

Local Ltac same_wait Hwait :=
  let Hw := fresh in intros ? Hw; rewrite Hwait in Hw; injection Hw as <-.

(** C7, as amended -- Cycle time bound.  The wait for a future
    [next_schedule_time] is slept in chunks of at most 2 seconds that add
    up to the wait.  A wait that would push the elapsed time past
    [scoring_period_time] is never started: the loop is left at once, the
    popped schedule is not requeued, and nothing is slept, enqueued or
    written.  After a turn that issued a request the loop is left exactly
    when the elapsed time exceeds [scoring_period_time], and the schedule
    has then already been pushed back if requests remain for it; a turn
    that drops an exhausted task or corrects a drift goes on with the loop
    without looking at the clock.  So a turn that waited and enqueued a job
    had a wait that fits in the scoring period. *)
Theorem cycle_time_bound scoring_period_time start_time vars w schedule rest :
  heapq.heappop TaskScheduleInfo_lt (task_schedules vars) = Some (schedule, rest) ->
  let now := time_src w (time_calls w) in
  let now' := time_src w (S (time_calls w)) in
  let time_to_sleep := (next_schedule_time schedule - now)%Q in
  let latest := latest_in w (task schedule) in
  exists flow vars' w',
    loop_body scoring_period_time start_time vars w = (Ok (flow, vars'), w')
    /\ ((time_to_sleep <= 0)%Q -> slept w' = slept w)
    /\ ((0 < time_to_sleep)%Q ->
        (scoring_period_time < now' - start_time + time_to_sleep)%Q ->
        flow = Break
        /\ vars' = {| i := i vars + 1; task_schedules := rest |}
        /\ slept w' = slept w
        /\ enqueued w' = enqueued w
        /\ redis_db w' = redis_db w)
    /\ ((0 < time_to_sleep)%Q ->
        (now' - start_time + time_to_sleep <= scoring_period_time)%Q ->
        exists chunks,
          slept w' = slept w ++ chunks
          /\ Forall (fun d => (0 < d /\ d <= 2)%Q) chunks
          /\ (Qsum chunks == time_to_sleep)%Q)
    /\ (forall w1,
          wait_for_schedule scoring_period_time start_time schedule w = (Ok false, w1) ->
          (latest <= 0 \/ latest < remaining_requests schedule -> flow = Continue)
          /\ (0 < latest -> remaining_requests schedule <= latest ->
              (flow = Break <->
               (scoring_period_time < time_src w (S (time_calls w1)) - start_time)%Q)
              /\ (flow = Break ->
                  task_schedules vars'
                  = if 0 <? latest - 1
                    then heapq.heappush TaskScheduleInfo_lt rest
                           (issued schedule latest (time_src w (time_calls w1)))
                    else rest)))
    /\ (enqueued w' <> enqueued w ->
        (0 < time_to_sleep)%Q ->
        (now' - start_time + time_to_sleep <= scoring_period_time)%Q).
Proof.
  intros Hpop now now' time_to_sleep latest.
  pose proof (wait_for_schedule_run scoring_period_time start_time schedule w) as Hwait.
  cbv zeta in Hwait. fold now now' time_to_sleep in Hwait.
  destruct (Qltb 0 time_to_sleep) eqn:Hfuture;
    [apply Qltb_lt in Hfuture;
     destruct (Qltb scoring_period_time (now' - start_time + time_to_sleep)) eqn:Hpast;
     [apply Qltb_lt in Hpast|apply Qltb_ge in Hpast]
    |apply Qltb_ge in Hfuture].
  { (* the wait does not fit: the loop is left *)
    rewrite (loop_body_stopped _ _ _ _ _ _ _ Hpop Hwait).
    do 3 eexists. split; [done|]. split; [done|]. split; [done|].
    split; [intros; lra|]. split; [|intros Hne; by destruct Hne].
    intros w1 Hwait'. rewrite Hwait in Hwait'. discriminate. }
  all: rewrite (loop_body_past_wait _ _ _ _ _ _ _ Hpop Hwait).
  all: pose proof (wait_keeps_latest _ _ _ _ _ _ (task schedule) Hwait) as Hsame.
  all: match type of Hwait with _ = (_, ?w0) => set (w1 := w0) in * end.
  all: destruct (reconcile_and_issue_quiet scoring_period_time start_time (i vars + 1)
                   schedule rest w1)
         as (flow & vars' & w' & -> & Hslept & Henq & Hgoes & Hcut).
  all: rewrite Hsame in Henq, Hgoes, Hcut; fold latest in Henq, Hgoes, Hcut.
  all: exists flow, vars', w'; (split; [done|]).
  - (* the wait fits and is slept *)
    destruct (sleep_in_chunks_total time_to_sleep w Hfuture) as (_ & Hbounds & Hsum & _).
    split; [intros; lra|]. split; [intros; lra|].
    split; [intros _ _; exists (sleep_chunks (sleep_turns time_to_sleep) time_to_sleep);
            by rewrite Hslept|].
    split; [|done]. same_wait Hwait. by split.
  - (* nothing to wait for *)
    split; [done|]. split; [intros; lra|]. split; [intros; lra|].
    split; [same_wait Hwait; by split|].
    intros _ Hwaited. lra.
Qed.
End BoundFacts.

(** ** Volumes and the initial schedule *)

Section VolumeFacts.
Context `{Deps}.




(** A group of volume 0 or less is passed over: no schedule, no clock or
    random reading, no exception. *)
Lemma initialize_task_schedule_skip scoring_period_time config schedules task contenders w n :
  _calculate_task_requests task contenders config = Ok n ->
  n <= 0 ->
  initialize_task_schedule scoring_period_time config schedules (task, contenders) w
  = (Ok schedules, w).
Proof.
  intros Hvolume Hle. unfold initialize_task_schedule, bind, lift. rewrite Hvolume.
  by destruct (Z.ltb_spec 0 n); [lia|].
Qed.



End VolumeFacts.

(** ** The purge of the work queue *)

Section PurgeFacts.
Context `{Deps}.

Lemma is_non_synthetic_tagged item fields :
  json_loads item = Some (JObject fields) ->
  is_non_synthetic item = Ok (negb (synthetic_tagged item)).
Proof.
  intros Hitem. unfold is_non_synthetic, synthetic_tagged. rewrite Hitem.
  destruct (dict_get fields "query_type") as [[]|]; done.
Qed.

Lemma non_synthetic_items_filter all_items :
  (forall item, item ∈ all_items -> exists fields, json_loads item = Some (JObject fields)) ->
  non_synthetic_items all_items
  = Ok (List.filter (fun item => negb (synthetic_tagged item)) all_items).
Proof.
  induction all_items as [|item rest IH]; intros Hobjects; simpl; [done|].
  destruct (Hobjects item) as [fields Hitem]; [apply list_elem_of_here|].
  rewrite (is_non_synthetic_tagged item fields Hitem).
  rewrite IH by (intros; apply Hobjects; by apply list_elem_of_further).
  by destruct (synthetic_tagged item).
Qed.

(** C5 -- Queue purge.  Whatever JSON objects the work queue holds,
    clearing the old synthetic queries leaves on it exactly the items that
    are not tagged synthetic, in their original order, and touches nothing
    else. *)
Theorem clear_old_synthetic_queries_purges w :
  (forall item, item ∈ query_queue (redis_db w) ->
     exists fields, json_loads item = Some (JObject fields)) ->
  exists w',
    _clear_old_synthetic_queries w = (Ok tt, w')
    /\ query_queue (redis_db w')
       = List.filter (fun item => negb (synthetic_tagged item)) (query_queue (redis_db w))
    /\ (forall item, item ∈ query_queue (redis_db w') <->
          item ∈ query_queue (redis_db w) /\ synthetic_tagged item = false)
    /\ query_queue (redis_db w') `sublist_of` query_queue (redis_db w)
    /\ counters (redis_db w') = counters (redis_db w)
    /\ enqueued w' = enqueued w
    /\ slept w' = slept w.
Proof.
  intros Hobjects.
  unfold _clear_old_synthetic_queries, bind, redis_lrange_all, lift, redis_delete_queue.
  rewrite (non_synthetic_items_filter _ Hobjects).
  set (kept := List.filter _ _).
  assert (exists w',
            (match kept with [] => ret tt | _ :: _ => redis_rpush kept end)
              (with_redis (set_query_queue []) w) = (Ok tt, w')
            /\ query_queue (redis_db w') = kept
            /\ counters (redis_db w') = counters (redis_db w)
            /\ enqueued w' = enqueued w /\ slept w' = slept w) as (w' & -> & Hq & Hrest).
  { destruct kept; eexists; (split; [done|]); by repeat split. }
  exists w'. split; [done|]. rewrite Hq. split; [done|]. split; [|split; [|done]].
  - intros item. unfold kept. rewrite list_elem_of_In, filter_In, <- list_elem_of_In.
    by rewrite negb_true_iff.
  - unfold kept. clear. induction (query_queue (redis_db w)) as [|item rest IH]; simpl.
    + constructor.
    + destruct (negb _); by constructor.
Qed.
End PurgeFacts.

(** ** The node registry *)

Section RegistryFacts.
Context {Handle : Type} (Fernet : option string -> option Handle).
Implicit Types (db : Database) (row : NodeRow.t).


Lemma fetchone_node_Some db node_id netuid row :
  row ∈ nodes_table db ->
  nodes.matches node_id netuid row ->
  (forall row', row' ∈ nodes_table db -> nodes.matches node_id netuid row' -> row' = row) ->
  nodes.fetchone_node db node_id netuid = Some row.
Proof.
  intros Hin [Hid Hnet] Hunique. unfold nodes.fetchone_node.
  destruct (List.find _ _) as [row'|] eqn:Hfind.
  - apply find_some in Hfind as [Hin' Hrow]. apply list_elem_of_In in Hin'.
    f_equal. apply Hunique; [done|].
    apply andb_prop in Hrow as [?%Z.eqb_eq ?%Z.eqb_eq]. by split.
  - apply list_elem_of_In in Hin. eapply find_none in Hfind; [|apply Hin].
    simpl in Hfind. rewrite Hid, Hnet, !Z.eqb_refl in Hfind. done.
Qed.


End RegistryFacts.

(** * The order of the priority queue *)

Section HeapOrderFacts.
Context {A : Type} (lt : A -> A -> bool).
Hypothesis lt_le : forall x y, lt x y = true -> heap_le lt x y = true.
Hypothesis le_trans : forall x y z, heap_le lt x y = true -> heap_le lt y z = true -> heap_le lt x z = true.
Implicit Types (heap : list A) (pos : nat).

Lemma heap_le_refl x : heap_le lt x x = true.
Proof.
  unfold heap_le. destruct (lt x x) eqn:Hlt; [|done].
  pose proof (lt_le x x Hlt) as Hle. unfold heap_le in Hle. by rewrite Hlt in Hle.
Qed.

Lemma parent_lt i : (0 < i)%nat -> ((i - 1) / 2 < i)%nat.
Proof. intros. apply Nat.Div0.div_lt_upper_bound. lia. Qed.

Lemma parent_children c pos :
  (0 < c)%nat -> ((c - 1) / 2)%nat = pos <-> (c = 2 * pos + 1 \/ c = 2 * pos + 2)%nat.
Proof.
  intros Hc. pose proof (Nat.div_mod_eq (c - 1) 2) as Hdiv.
  pose proof (Nat.mod_upper_bound (c - 1) 2) as Hmod. split.
  - intros <-. lia.
  - intros [->| ->].
    + replace (2 * pos + 1 - 1)%nat with (pos * 2)%nat by lia. by rewrite Nat.div_mul.
    + replace (2 * pos + 2 - 1)%nat with (1 + pos * 2)%nat by lia.
      rewrite Nat.div_add by lia. done.
Qed.

Lemma is_heapb_is_heap heap : is_heapb lt heap = true <-> is_heap lt heap.
Proof.
  unfold is_heapb, is_heap, heap_edge. rewrite forallb_forall. split.
  - intros Hall i Hi x y Hx Hy. specialize (Hall i).
    rewrite Hx, Hy in Hall. apply Hall. apply in_seq.
    apply lookup_lt_Some in Hy. lia.
  - intros Hheap i Hi%in_seq.
    destruct (heap !! ((i - 1) / 2)%nat) as [x|] eqn:Hx; [|done].
    destruct (heap !! i) as [y|] eqn:Hy; [|done].
    eapply Hheap; [|done..]. lia.
Qed.

(** The root of a heap is a least entry. *)
Lemma is_heap_root heap x :
  is_heap lt heap -> heap !! 0%nat = Some x ->
  forall y, y ∈ heap -> heap_le lt x y = true.
Proof.
  intros Hheap Hroot y [i Hy]%list_elem_of_lookup. revert y Hy.
  induction i as [i IH] using lt_wf_ind. intros y Hy.
  destruct (decide (i = 0%nat)) as [->|Hpos].
  { rewrite Hroot in Hy. injection Hy as <-. apply heap_le_refl. }
  assert (((i - 1) / 2) < i)%nat as Hup by (apply parent_lt; lia).
  destruct (lookup_lt_is_Some_2 heap ((i - 1) / 2)%nat) as [z Hz].
  { apply lookup_lt_Some in Hy. lia. }
  eapply le_trans; [by eapply IH|]. eapply (Hheap i); [lia|done..].
Qed.

Lemma is_heap_nil : is_heap lt [].
Proof. intros i _ x y Hx. by rewrite lookup_nil in Hx. Qed.

Local Ltac lk :=
  repeat first
    [ rewrite list_lookup_insert_ne by lia
    | rewrite list_lookup_insert_eq by (rewrite ?length_insert; lia) ].

Local Ltac lk_in H :=
  repeat first
    [ rewrite list_lookup_insert_ne in H by lia
    | rewrite list_lookup_insert_eq in H by (rewrite ?length_insert; lia) ].

(** One step of the climb: the item and its parent change places. *)
Lemma climbing_step heap pos newitem parent :
  (0 < pos < length heap)%nat ->
  heap !! pos = Some newitem ->
  heap !! ((pos - 1) / 2)%nat = Some parent ->
  lt newitem parent = true ->
  climbing lt heap pos ->
  climbing lt (<[((pos - 1) / 2)%nat := newitem]> (<[pos := parent]> heap)) ((pos - 1) / 2).
Proof.
  intros Hpos Hnew Hparent Hlt [Hedges Hbelow].
  pose proof (parent_lt pos (proj1 Hpos)) as Hup.
  set (ppos := ((pos - 1) / 2)%nat) in *.
  assert (heap_le lt newitem parent = true) as Hnp by by apply lt_le.
  split.
  - intros i Hi Hne x y Hx Hy.
    destruct (decide (i = pos)) as [Hipos|Hipos].
    { rewrite Hipos in Hx, Hy. fold ppos in Hx. lk_in Hx. lk_in Hy.
      injection Hx as <-. by injection Hy as <-. }
    lk_in Hy.
    destruct (decide (((i - 1) / 2)%nat = pos)) as [Hchild|Hnochild].
    { rewrite Hchild in Hx. lk_in Hx. injection Hx as <-.
      eapply Hbelow; [lia|exact Hi|exact Hchild|done..]. }
    destruct (decide (((i - 1) / 2)%nat = ppos)) as [Hsib|Hnosib].
    { rewrite Hsib in Hx. lk_in Hx. injection Hx as <-.
      eapply le_trans; [exact Hnp|]. eapply (Hedges i); [done..| |done].
      by rewrite Hsib. }
    lk_in Hx. by eapply (Hedges i).
  - intros c x y Hppos Hc Hcp Hx Hy.
    pose proof (parent_lt ppos Hppos) as Hgp.
    lk_in Hx.
    assert (heap_le lt x parent = true) as Hxp.
    { eapply (Hedges ppos); [lia|lia|done..]. }
    destruct (decide (c = pos)) as [Hcpos|Hcpos].
    { rewrite Hcpos in Hy. lk_in Hy. by injection Hy as <-. }
    assert (c <> ppos) by (pose proof (parent_lt c Hc); lia).
    lk_in Hy. eapply le_trans; [exact Hxp|].
    eapply (Hedges c); [done..| |done]. by rewrite Hcp.
Qed.

(** [_siftdown] from the root restores the heap. *)
Lemma siftdown_loop_heap fuel heap pos newitem heap' pos' :
  (pos < length heap)%nat -> (pos <= fuel)%nat ->
  climbing lt (<[pos := newitem]> heap) pos ->
  heapq.siftdown_loop lt fuel heap 0 pos newitem = (heap', pos') ->
  is_heap lt (<[pos' := newitem]> heap').
Proof.
  revert heap pos. induction fuel as [|fuel IH]; intros heap pos Hlen Hfuel Hinv Hrun;
    cbn [heapq.siftdown_loop] in Hrun.
  { simplify_eq. assert (pos' = 0%nat) as -> by lia.
    intros i Hi. apply (proj1 Hinv); lia. }
  destruct (decide (0 < pos)%nat) as [Hpos|Hroot].
  2:{ simplify_eq. assert (pos' = 0%nat) as -> by lia.
      intros i Hi. apply (proj1 Hinv); lia. }
  pose proof (parent_lt pos Hpos) as Hup.
  destruct (lookup_lt_is_Some_2 heap ((pos - 1) / 2)%nat) as [parent Hparent]; [lia|].
  rewrite Hparent in Hrun.
  destruct (lt newitem parent) eqn:Hlt.
  - apply IH in Hrun; [done|rewrite length_insert; lia|lia|].
    rewrite <- (list_insert_insert_eq heap pos parent newitem).
    apply climbing_step; [rewrite length_insert; lia|by lk|by lk|done|done].
  - injection Hrun as <- <-. intros i Hi. destruct (decide (i = pos)) as [->|Hne].
    + intros x y Hx Hy. lk_in Hx. lk_in Hy. rewrite Hparent in Hx.
      injection Hx as <-. injection Hy as <-. unfold heap_le. by rewrite Hlt.
    + by apply (proj1 Hinv).
Qed.

Lemma siftdown_heap heap pos :
  (pos < length heap)%nat ->
  climbing lt heap pos -> is_heap lt (heapq._siftdown lt heap 0 pos).
Proof.
  intros Hlen Hinv. unfold heapq._siftdown.
  destruct (lookup_lt_is_Some_2 heap pos Hlen) as [newitem Hnew]. rewrite Hnew.
  destruct (heapq.siftdown_loop lt pos heap 0 pos newitem) as [heap' pos'] eqn:Hrun.
  eapply siftdown_loop_heap; [exact Hlen|done| |exact Hrun].
  by rewrite list_insert_id.
Qed.

(** [heappush] keeps the heap invariant. *)
Lemma heappush_is_heap heap item :
  is_heap lt heap -> is_heap lt (heapq.heappush lt heap item).
Proof.
  intros Hheap. unfold heapq.heappush. apply siftdown_heap.
  { rewrite length_app. simpl. lia. }
  split.
  - intros i Hi Hne x y Hx Hy.
    assert (i < length heap)%nat.
    { apply lookup_lt_Some in Hy. rewrite length_app in Hy. simpl in Hy. lia. }
    pose proof (parent_lt i Hi).
    rewrite lookup_app_l in Hx, Hy by lia. by eapply (Hheap i).
  - intros c x y _ Hc Hcp _ Hy. apply lookup_lt_Some in Hy.
    rewrite length_app in Hy. simpl in Hy. pose proof (parent_lt c Hc). lia.
Qed.

(** One step of the descent: a smallest child moves up into the hole. *)
Lemma sinking_step heap pos c child :
  (pos < length heap)%nat ->
  (c = 2 * pos + 1 \/ c = 2 * pos + 2)%nat ->
  heap !! c = Some child ->
  (forall s y, (0 < s)%nat -> s <> c -> ((s - 1) / 2)%nat = pos -> heap !! s = Some y ->
               heap_le lt child y = true) ->
  sinking lt heap pos ->
  sinking lt (<[pos := child]> heap) c.
Proof.
  intros Hlen Hc Hchild Hsmallest [Hedges Hbelow].
  assert (0 < c)%nat as Hcpos by lia.
  assert (((c - 1) / 2)%nat = pos) as Hcp by (by apply parent_children).
  split.
  - intros i Hi Hic Hpic x y Hx Hy.
    destruct (decide (i = pos)) as [Hipos|Hipos].
    { rewrite Hipos in Hx, Hy. pose proof (parent_lt pos ltac:(lia)).
      lk_in Hx. lk_in Hy. injection Hy as <-.
      eapply Hbelow; [lia|exact Hcpos|exact Hcp|done..]. }
    lk_in Hy.
    destruct (decide (((i - 1) / 2)%nat = pos)) as [Hchild'|Hnochild].
    { rewrite Hchild' in Hx. lk_in Hx. injection Hx as <-. by eapply (Hsmallest i). }
    lk_in Hx. by eapply (Hedges i).
  - intros d x y _ Hd Hdc Hx Hy. rewrite Hcp in Hx. lk_in Hx. injection Hx as <-.
    pose proof (parent_lt d Hd).
    lk_in Hy. eapply (Hedges d); [done|lia|lia| |done]. by rewrite Hdc.
Qed.

(** The descent ends with the hole at a leaf. *)
Lemma siftup_loop_sinking fuel heap pos heap' pos' :
  (pos < length heap)%nat -> (length heap <= pos + fuel)%nat ->
  sinking lt heap pos ->
  heapq.siftup_loop lt fuel heap pos = (heap', pos') ->
  (pos' < length heap')%nat /\ sinking lt heap' pos' /\ (length heap' <= 2 * pos' + 1)%nat.
Proof.
  revert heap pos. induction fuel as [|fuel IH]; intros heap pos Hlen Hfuel Hinv Hrun;
    cbn [heapq.siftup_loop] in Hrun; [lia|].
  destruct (decide (2 * pos + 1 < length heap)%nat) as [Hleft|Hleaf].
  2:{ injection Hrun as <- <-. split; [done|]. split; [done|lia]. }
  destruct (lookup_lt_is_Some_2 heap (2 * pos + 1)%nat Hleft) as [l Hl].
  rewrite Hl in Hrun.
  assert (exists c child,
             (c = 2 * pos + 1 \/ c = 2 * pos + 2)%nat
             /\ heap !! c = Some child
             /\ (forall s y, (0 < s)%nat -> s <> c -> ((s - 1) / 2)%nat = pos ->
                             heap !! s = Some y -> heap_le lt child y = true)
             /\ heapq.siftup_loop lt fuel (<[pos := child]> heap) c = (heap', pos'))
    as (c & child & Hc & Hchild & Hsmallest & Hrest).
  { destruct (heap !! (2 * pos + 1 + 1)%nat) as [r|] eqn:Hr.
    - destruct (lt l r) eqn:Hlr; cbn [negb] in Hrun.
      + rewrite Hl in Hrun. exists (2 * pos + 1)%nat, l.
        split; [by left|]. split; [done|]. split; [|done].
        intros s y Hs Hne Hsp Hy. apply (parent_children s pos Hs) in Hsp as [->| ->]; [done|].
        replace (2 * pos + 2)%nat with (2 * pos + 1 + 1)%nat in Hy by lia.
        rewrite Hr in Hy. injection Hy as <-. by apply lt_le.
      + rewrite Hr in Hrun. exists (2 * pos + 1 + 1)%nat, r.
        split; [right; lia|]. split; [done|]. split; [|done].
        intros s y Hs Hne Hsp Hy. apply (parent_children s pos Hs) in Hsp as [->| ->]; [|lia].
        rewrite Hl in Hy. injection Hy as <-. unfold heap_le. by rewrite Hlr.
    - rewrite Hl in Hrun. exists (2 * pos + 1)%nat, l.
      split; [by left|]. split; [done|]. split; [|done].
      intros s y Hs Hne Hsp Hy. apply (parent_children s pos Hs) in Hsp as [->| ->]; [done|].
      replace (2 * pos + 2)%nat with (2 * pos + 1 + 1)%nat in Hy by lia.
      by rewrite Hr in Hy. }
  apply IH in Hrest; [done| | |by apply sinking_step].
  - rewrite length_insert. apply lookup_lt_Some in Hchild. done.
  - rewrite length_insert. lia.
Qed.

Lemma siftup_heap heap :
  heap <> [] -> sinking lt heap 0 -> is_heap lt (heapq._siftup lt heap 0).
Proof.
  intros Hne Hinv. unfold heapq._siftup.
  destruct heap as [|newitem tl]; [done|]. cbn [lookup list_lookup].
  destruct (heapq.siftup_loop lt (length (newitem :: tl)) (newitem :: tl) 0)
    as [heap' pos'] eqn:Hrun.
  apply siftup_loop_sinking in Hrun as (Hlen & [Hedges Hbelow] & Hleaf);
    [|simpl; lia|lia|done].
  apply siftdown_heap; [by rewrite length_insert|].
  split.
  - intros i Hi Hne' x y Hx Hy.
    assert (i < length heap')%nat.
    { apply lookup_lt_Some in Hy. by rewrite length_insert in Hy. }
    assert (((i - 1) / 2)%nat <> pos').
    { intros Hchild. apply (parent_children i pos' Hi) in Hchild. lia. }
    lk_in Hx. lk_in Hy. by eapply (Hedges i).
  - intros c x y _ Hc Hcp _ Hy. apply lookup_lt_Some in Hy.
    rewrite length_insert in Hy. apply (parent_children c pos' Hc) in Hcp. lia.
Qed.

(** [heappop] returns a least entry and leaves a heap. *)
Lemma heappop_is_heap heap item heap' :
  is_heap lt heap ->
  heapq.heappop lt heap = Some (item, heap') ->
  is_heap lt heap' /\ forall y, y ∈ heap -> heap_le lt item y = true.
Proof.
  intros Hheap Hpop.
  assert (heap !! 0%nat = Some item) as Hroot.
  { unfold heapq.heappop in Hpop.
    destruct (reverse heap) as [|lastelt rev_rest] eqn:Hrev; [done|].
    apply (f_equal reverse) in Hrev. rewrite reverse_involutive, reverse_cons in Hrev.
    subst heap. destruct (reverse rev_rest) as [|returnitem tl]; by simplify_eq/=. }
  split; [|by apply is_heap_root].
  unfold heapq.heappop in Hpop.
  destruct (reverse heap) as [|lastelt rev_rest] eqn:Hrev; [done|].
  apply (f_equal reverse) in Hrev. rewrite reverse_involutive, reverse_cons in Hrev.
  subst heap. destruct (reverse rev_rest) as [|returnitem tl]; simplify_eq/=.
  { apply is_heap_nil. }
  apply siftup_heap; [done|]. split.
  - intros i Hi _ Hparent x y Hx Hy.
    assert (0 < (i - 1) / 2)%nat as Hp by lia.
    assert (i < S (length tl))%nat as Hlen by (by apply lookup_lt_Some in Hy).
    pose proof (parent_lt i Hi).
    eapply (Hheap i); [done| |].
    + destruct ((i - 1) / 2)%nat as [|p] eqn:Hpi; [lia|]. simpl in *.
      by rewrite lookup_app_l by lia.
    + destruct i as [|i']; [lia|]. simpl in *. by rewrite lookup_app_l by lia.
  - intros c x y Hpos. lia.
Qed.
End HeapOrderFacts.

(** * Further properties of the scheduler *)

Section QueueFacts.
Context `{Deps}.
Implicit Types (schedule : TaskScheduleInfo) (vars : LoopVars) (w : World)
  (heap : list TaskScheduleInfo).

(** ** The order of schedules *)

Lemma heap_le_next_schedule_time (s1 s2 : TaskScheduleInfo) :
  heap_le TaskScheduleInfo_lt s1 s2 = true
  <-> (next_schedule_time s1 <= next_schedule_time s2)%Q.
Proof.
  unfold heap_le, TaskScheduleInfo_lt. rewrite negb_true_iff. apply Qltb_ge.
Qed.

Lemma TaskScheduleInfo_lt_le (s1 s2 : TaskScheduleInfo) :
  TaskScheduleInfo_lt s1 s2 = true -> heap_le TaskScheduleInfo_lt s1 s2 = true.
Proof.
  rewrite heap_le_next_schedule_time. unfold TaskScheduleInfo_lt. rewrite Qltb_lt.
  apply Qlt_le_weak.
Qed.

Lemma TaskScheduleInfo_le_trans (s1 s2 s3 : TaskScheduleInfo) :
  heap_le TaskScheduleInfo_lt s1 s2 = true -> heap_le TaskScheduleInfo_lt s2 s3 = true ->
  heap_le TaskScheduleInfo_lt s1 s3 = true.
Proof. rewrite !heap_le_next_schedule_time. apply Qle_trans. Qed.

(** ** Properties of the queue that every turn keeps *)

Lemma pop_all_kept P Q n heap popped heap' :
  kept_by_turns P Q -> P heap -> pop_all n heap = (popped, heap') ->
  P heap' /\ Forall Q popped.
Proof.
  intros Hkept. revert heap popped heap'.
  induction n as [|n IH]; intros heap popped heap' HP Hpop; simpl in Hpop.
  { by simplify_eq. }
  destruct (heapq.heappop TaskScheduleInfo_lt heap) as [[schedule rest]|] eqn:Hone.
  2:{ by simplify_eq. }
  destruct (pop_all n rest) as [popped' rest'] eqn:Hrest. simplify_eq.
  destruct (kept_pop P Q Hkept heap schedule rest HP Hone) as [HPrest HQ].
  destruct (IH rest popped' heap' HPrest Hrest) as [? ?]. split; [done|by constructor].
Qed.

Lemma report_and_push_kept P Q schedules_left heap w r w' :
  kept_by_turns P Q -> P heap -> Forall Q schedules_left ->
  report_and_push schedules_left heap w = (r, w') ->
  exists heap', r = Ok heap' /\ P heap'.
Proof.
  intros Hkept. revert heap w.
  induction schedules_left as [|schedule rest IH]; intros heap w HP HQ; simpl.
  { unfold ret. intros [= <- <-]. eauto. }
  unfold bind, time_time. apply Forall_cons in HQ as [HQ HQs].
  apply IH; [|done]. by apply (kept_push P Q Hkept).
Qed.

Lemma status_report_kept P Q heap w r w' :
  kept_by_turns P Q -> P heap -> status_report heap w = (r, w') ->
  exists heap', r = Ok heap' /\ P heap'.
Proof.
  intros Hkept HP. unfold status_report.
  destruct (pop_all (length heap) heap) as [schedules_left rest] eqn:Hpop.
  destruct (pop_all_kept P Q _ _ _ _ Hkept HP Hpop) as [HPrest HQ].
  unfold bind.
  destruct (report_and_push schedules_left rest w) as [r1 w1] eqn:Hpush.
  destruct (report_and_push_kept P Q _ _ _ _ _ Hkept HPrest HQ Hpush) as (heap' & -> & HP').
  unfold time_time, ret. intros [= <- <-]. eauto.
Qed.

Lemma reconcile_and_issue_kept P Q scoring_period_time start_time n schedule rest w r w' :
  kept_by_turns P Q -> P rest -> Q schedule ->
  reconcile_and_issue scoring_period_time start_time n schedule rest w = (r, w') ->
  exists flow heap', r = Ok (flow, {| i := n; task_schedules := heap' |}) /\ P heap'.
Proof.
  intros Hkept HP HQ.
  destruct (Z_le_gt_dec (latest_in w (task schedule)) 0) as [Hle|Hpos].
  { rewrite reconcile_exhausted by done. intros [= <- <-]. eauto. }
  destruct (Z_lt_le_dec (latest_in w (task schedule)) (remaining_requests schedule))
    as [Hlt|Hge].
  { rewrite reconcile_drift by lia. intros [= <- <-]. do 2 eexists. split; [done|].
    apply (kept_push P Q Hkept); [done|]. apply (kept_corrected P Q Hkept); [done|lia..]. }
  unfold reconcile_and_issue, bind. rewrite get_redis_remaining_requests_run.
  set (latest := latest_in w (task schedule)) in *.
  destruct (Z.leb_spec latest 0); [lia|].
  unfold gauge_set. cbn beta iota.
  destruct (Z.ltb_spec 0 (remaining_requests schedule - latest)); [lia|].
  unfold _schedule_synthetic_query, _update_redis_remaining_requests, redis_set,
    time_time, ret.
  cbn beta iota. cbn [time_src time_calls with_time_calls with_gauges with_redis
                       with_enqueued gauges].
  set (heap1 := if 0 <? latest - 1 then _ else rest).
  assert (P heap1) as HP1.
  { unfold heap1. destruct (Z.ltb_spec 0 (latest - 1)); [|done].
    apply (kept_push P Q Hkept); [done|]. by apply (kept_issued P Q Hkept). }
  destruct (Qltb scoring_period_time _).
  { intros [= <- <-]. eauto. }
  destruct (n mod 100 =? 0).
  - match goal with |- context [status_report ?h ?w0] =>
      destruct (status_report h w0) as [r1 w1] eqn:Hreport end.
    destruct (status_report_kept P Q _ _ _ _ Hkept HP1 Hreport) as (heap' & -> & HP').
    intros [= <- <-]. eauto.
  - intros [= <- <-]. eauto.
Qed.

(** A turn keeps such a property of the queue. *)
Lemma loop_body_kept P Q scoring_period_time start_time vars w r w' :
  kept_by_turns P Q -> P (task_schedules vars) ->
  loop_body scoring_period_time start_time vars w = (r, w') ->
  exists flow heap',
    r = Ok (flow, {| i := i vars + 1; task_schedules := heap' |}) /\ P heap'.
Proof.
  intros Hkept HP. unfold loop_body.
  destruct (heapq.heappop TaskScheduleInfo_lt (task_schedules vars))
    as [[schedule rest]|] eqn:Hpop.
  2:{ unfold ret. intros [= <- <-]. eauto. }
  destruct (kept_pop P Q Hkept _ _ _ HP Hpop) as [HPrest HQ].
  unfold bind.
  destruct (wait_for_schedule scoring_period_time start_time schedule w)
    as [r1 w1] eqn:Hwait.
  destruct (wait_for_schedule_frame _ _ _ _ _ _ Hwait) as ([stop ->] & _).
  destruct stop.
  { unfold ret. intros [= <- <-]. eauto. }
  by apply (reconcile_and_issue_kept P Q).
Qed.

Lemma cycle_steps_kept P Q scoring_period_time start_time (st st' : CycleState) :
  kept_by_turns P Q ->
  rtc (cycle_step scoring_period_time start_time) st st' ->
  P (task_schedules st.1.2) -> P (task_schedules st'.1.2).
Proof.
  intros Hkept. induction 1 as [st|st st1 st2 Hstep _ IH]; [done|].
  intros HP. apply IH. destruct Hstep as [vars w flow' vars' w' _ Hrun|vars w store']; [|done].
  simpl in *.
  destruct (loop_body_kept P Q _ _ _ _ _ _ Hkept HP Hrun) as (flow & heap' & Heq & HP').
  injection Heq as _ ->. done.
Qed.

Lemma initialize_task_schedules_kept (P : list TaskScheduleInfo -> Prop)
    (Q : TaskScheduleInfo -> Prop) config task_groups w schedules w' :
  (forall heap schedule,
      P heap -> Q schedule -> P (heapq.heappush TaskScheduleInfo_lt heap schedule)) ->
  P [] ->
  (forall schedule,
      0 < total_requests schedule ->
      remaining_requests schedule = total_requests schedule ->
      interval schedule
      = (SCORING_PERIOD_TIME * scoring_period_time_multiplier config
         / inject_Z (total_requests schedule + 1))%Q ->
      Q schedule) ->
  _initialize_task_schedules task_groups config w = (Ok schedules, w') ->
  P schedules.
Proof.
  intros Hpush Hnil Hnew. unfold _initialize_task_schedules.
  generalize ([] : list TaskScheduleInfo) Hnil. revert w.
  induction task_groups as [|[task_id contenders] rest IH]; intros w heap HP;
    cbn [initialize_task_schedules_loop].
  { unfold ret. by intros [= <- <-]. }
  unfold bind at 1. unfold initialize_task_schedule, bind, lift.
  destruct (_calculate_task_requests task_id contenders config) as [n|]; [|done].
  destruct (Z.ltb_spec 0 n).
  - unfold time_time, _get_initial_schedule_time, bind, random_random, ret.
    cbn beta iota. apply IH. apply Hpush; [done|]. by apply Hnew.
  - unfold ret. by apply IH.
Qed.
End QueueFacts.

Section CycleInvariants.
Context `{Deps}.
Implicit Types (schedule : TaskScheduleInfo) (vars : LoopVars) (w : World)
  (heap : list TaskScheduleInfo).

(** What [prepare_cycle] is made of. *)
Lemma prepare_cycle_run config w start_time vars w' :
  prepare_cycle config w = (Ok (start_time, vars), w') ->
  exists w1 w2,
    start_time = time_src w (time_calls w)
    /\ i vars = 0
    /\ _initialize_task_schedules (_group_contenders_by_task load_contenders) config
         (with_time_calls (S (time_calls w)) w)
       = (Ok (task_schedules vars), w1)
    /\ _clear_old_synthetic_queries w1 = (Ok tt, w2)
    /\ publish_total_requests (task_schedules vars) w2 = (Ok tt, w').
Proof.
  unfold prepare_cycle, bind, time_time, _load_contenders, ret. cbn beta iota.
  destruct (_initialize_task_schedules _ config _) as [[schedules|] w1] eqn:Hinit; [|done].
  destruct (_clear_old_synthetic_queries w1) as [[[]|] w2] eqn:Hclear; [|done].
  destruct (publish_total_requests schedules w2) as [[[]|] w3] eqn:Hpublish; [|done].
  intros [= <- <- <-]. by exists w1, w2.
Qed.

Lemma is_heap_kept :
  kept_by_turns (is_heap TaskScheduleInfo_lt) (fun _ => True).
Proof.
  split; try done.
  - intros heap schedule rest Hheap Hpop. split; [|done].
    eapply heappop_is_heap;
      eauto using TaskScheduleInfo_lt_le, TaskScheduleInfo_le_trans.
  - intros heap schedule Hheap _.
    apply heappush_is_heap;
      eauto using TaskScheduleInfo_lt_le, TaskScheduleInfo_le_trans.
Qed.

(** X1 -- Earliest first.  In every state of a scheduling cycle the
    priority queue is a binary heap under [TaskScheduleInfo.__lt__], and the
    schedule the next turn pops has a [next_schedule_time] that no schedule
    in the queue undercuts. *)
Theorem earliest_schedule_first config w0 start_time vars0 w1 (st : CycleState) :
  let scoring_period_time :=
    (SCORING_PERIOD_TIME * scoring_period_time_multiplier config)%Q in
  prepare_cycle config w0 = (Ok (start_time, vars0), w1) ->
  rtc (cycle_step scoring_period_time start_time) (Continue, vars0, w1) st ->
  is_heapb TaskScheduleInfo_lt (task_schedules st.1.2) = true
  /\ forall schedule rest,
       heapq.heappop TaskScheduleInfo_lt (task_schedules st.1.2) = Some (schedule, rest) ->
       forall other, other ∈ task_schedules st.1.2 ->
                     (next_schedule_time schedule <= next_schedule_time other)%Q.
Proof.
  intros scoring_period_time Hprepare Hreach.
  apply prepare_cycle_run in Hprepare as (w2 & w3 & _ & _ & Hinit & _).
  assert (is_heap TaskScheduleInfo_lt (task_schedules vars0)) as Hheap0.
  { eapply (initialize_task_schedules_kept (is_heap TaskScheduleInfo_lt) (fun _ => True));
      [|apply is_heap_nil|done|exact Hinit].
    intros heap schedule Hheap _. by apply (kept_push _ _ is_heap_kept). }
  pose proof (cycle_steps_kept _ _ _ _ _ _ is_heap_kept Hreach Hheap0) as Hheap.
  split; [by apply is_heapb_is_heap|].
  intros schedule rest Hpop other Hother. apply heap_le_next_schedule_time.
  eapply heappop_is_heap;
    eauto using TaskScheduleInfo_lt_le, TaskScheduleInfo_le_trans.
Qed.

(** A schedule as the cycle keeps it in the queue. *)
Lemma sound_kept scoring_period_time :
  kept_by_turns (Forall (sound scoring_period_time)) (sound scoring_period_time).
Proof.
  split.
  - intros heap schedule rest Hall Hpop. apply heappop_perm in Hpop.
    rewrite Hpop in Hall. by apply Forall_cons in Hall as [? ?].
  - intros heap schedule Hall Hsound. rewrite heappush_perm. by constructor.
  - intros schedule latest (Hremaining & Htotal & Hinterval) Hpos Hlt. by split.
  - intros schedule latest now (Hremaining & Htotal & Hinterval) Hpos. by split.
Qed.

(** X2 -- Queued schedules are live and keep their pace.  In every
    state of a scheduling cycle each schedule in the priority queue has a
    positive [remaining_requests], a positive [total_requests] and the
    [interval] it was given at the start,
    [scoring_period_time / (total_requests + 1)]. *)
Theorem queued_schedules_sound config w0 start_time vars0 w1 (st : CycleState) :
  let scoring_period_time :=
    (SCORING_PERIOD_TIME * scoring_period_time_multiplier config)%Q in
  prepare_cycle config w0 = (Ok (start_time, vars0), w1) ->
  rtc (cycle_step scoring_period_time start_time) (Continue, vars0, w1) st ->
  forall schedule,
    schedule ∈ task_schedules st.1.2 ->
    0 < remaining_requests schedule
    /\ 0 < total_requests schedule
    /\ interval schedule
       = (scoring_period_time / inject_Z (total_requests schedule + 1))%Q.
Proof.
  intros scoring_period_time Hprepare Hreach.
  apply prepare_cycle_run in Hprepare as (w2 & w3 & _ & _ & Hinit & _).
  assert (Forall (sound scoring_period_time) (task_schedules vars0)) as Hsound0.
  { eapply (initialize_task_schedules_kept (Forall (sound scoring_period_time))
              (sound scoring_period_time));
      [|constructor| |exact Hinit].
    - intros heap schedule Hall Hsound. by apply (kept_push _ _ (sound_kept _)).
    - intros schedule Htotal Hremaining Hinterval. split; [lia|]. by split. }
  pose proof (cycle_steps_kept _ _ _ _ _ _ (sound_kept scoring_period_time) Hreach Hsound0)
    as Hsound.
  intros schedule Hin. rewrite Forall_forall in Hsound. by apply Hsound.
Qed.
End CycleInvariants.

Section GroupFacts.
Context `{Deps}.

Lemma group_append_elem task_groups task_id contender t cs :
  NoDup task_groups.*1 ->
  (t, cs) ∈ group_append task_groups task_id contender <->
  (t <> task_id /\ (t, cs) ∈ task_groups)
  \/ (t = task_id
      /\ ((exists cs0, (task_id, cs0) ∈ task_groups /\ cs = cs0 ++ [contender])
          \/ ((task_id ∉ task_groups.*1) /\ cs = [contender]))).
Proof.
  induction task_groups as [|[t0 cs0] rest IH]; intros Hnodup.
  { simpl. rewrite list_elem_of_singleton. split.
    - intros [= -> ->]. right. split; [done|]. right. split; [apply not_elem_of_nil|done].
    - intros [[_ []%elem_of_nil]|[-> [(cs0 & []%elem_of_nil & _)|[_ ->]]]]. done. }
  rewrite fmap_cons in Hnodup. apply NoDup_cons in Hnodup as [Hfresh Hnodup]. cbn [fst] in Hfresh.
  assert (forall cs', (t0, cs') ∈ rest -> False) as Hfresh'.
  { intros cs' Hin. apply Hfresh. by apply (list_elem_of_fmap_2 fst) in Hin. }
  cbn [group_append]. destruct (String.eqb_spec t0 task_id) as [->|Hne].
  - rewrite elem_of_cons. split.
    + intros [[= -> ->]|Hin].
      * right. split; [done|]. left. exists cs0. split; [apply list_elem_of_here|done].
      * left. split; [by intros ->; eapply Hfresh'|by apply list_elem_of_further].
    + intros [[Hne [[= -> ->]|Hin]%elem_of_cons]
             |[-> [(cs1 & [[= ->]|Hin]%elem_of_cons & ->)|[Hout _]]]].
      * done.
      * by right.
      * by left.
      * exfalso. by eapply Hfresh'.
      * exfalso. apply Hout. rewrite fmap_cons. apply list_elem_of_here.
  - rewrite fmap_cons. cbn [fst]. rewrite elem_of_cons, (IH Hnodup). split.
    + intros [[= -> ->]|[[Hne' Hin]|[-> [(cs1 & Hin & ->)|[Hout ->]]]]].
      * left. split; [done|apply list_elem_of_here].
      * left. split; [done|by apply list_elem_of_further].
      * right. split; [done|]. left. exists cs1. split; [by apply list_elem_of_further|done].
      * right. split; [done|]. right. split; [|done].
        intros [?|?]%elem_of_cons; [by subst|done].
    + intros [[Hne' [[= -> ->]|Hin]%elem_of_cons]
             |[-> [(cs1 & [[= -> ->]|Hin]%elem_of_cons & ->)|[Hout ->]]]].
      * by left.
      * right. left. done.
      * done.
      * right. right. split; [done|]. left. by exists cs1.
      * right. right. split; [done|]. right. split; [|done].
        intros Hin. apply Hout. by apply list_elem_of_further.
Qed.

Lemma group_contenders_by_task_elem contenders task_id cs :
  (task_id, cs) ∈ _group_contenders_by_task contenders <->
  is_Some (get_task_configs !! task_id)
  /\ cs <> []
  /\ cs = List.filter (fun contender => String.eqb (Contender.task contender) task_id)
            contenders.
Proof.
  revert task_id cs. induction contenders as [|c loaded IH] using rev_ind; intros task_id cs.
  { simpl. split; [by intros ?%elem_of_nil|by intros (_ & ? & ->)]. }
  pose proof (group_contenders_by_task_NoDup loaded) as Hnodup.
  unfold _group_contenders_by_task in *. rewrite fold_left_app, List.filter_app.
  cbn [fold_left List.filter].
  destruct (get_task_configs !! Contender.task c) as [cfg|] eqn:Hcfg.
  - rewrite (group_append_elem _ _ _ _ _ Hnodup).
    destruct (String.eqb_spec (Contender.task c) task_id) as [<-|Hne].
    + split.
      * intros [[? _]|[_ [(cs0 & Hin & ->)|[Hout ->]]]]; [done| |].
        -- apply IH in Hin as (_ & _ & <-). split; [by eexists|].
           split; [by destruct cs0|done].
        -- split; [by eexists|]. split; [done|].
           destruct (List.filter _ loaded) as [|x l] eqn:Hf; [done|].
           exfalso. apply Hout. apply list_elem_of_fmap.
           exists (Contender.task c, x :: l). split; [done|].
           apply IH. rewrite Hf. split; [by eexists|done].
      * intros (_ & _ & ->). right. split; [done|].
        destruct (List.filter _ loaded) as [|x l] eqn:Hf.
        -- right. split; [|done].
           intros ([t cs0] & Ht & Hin)%list_elem_of_fmap. simpl in Ht. subst t.
           apply IH in Hin as (_ & Hnonempty & Heq). rewrite Hf in Heq. done.
        -- left. exists (x :: l). split; [|done]. apply IH. rewrite Hf.
           split; [by eexists|done].
    + rewrite app_nil_r, <- IH. split.
      * intros [[_ ?]|[? _]]; [done|]. by subst.
      * intros Hin. left. split; [|done]. by intros ->.
  - destruct (String.eqb_spec (Contender.task c) task_id) as [<-|Hne].
    + split.
      * intros (Hsome & _)%IH. rewrite Hcfg in Hsome. by destruct Hsome.
      * intros (Hsome & _). rewrite Hcfg in Hsome. by destruct Hsome.
    + by rewrite app_nil_r, <- IH.
Qed.

(** X3 -- Grouping.  [_group_contenders_by_task] has a group for a task
    exactly when the task has a configuration and some contender serves it,
    and the group of a task is then the list of all the contenders of that
    task, in the order they were loaded. *)
Theorem group_contenders_by_task_groups contenders task_id cs :
  (task_id, cs) ∈ _group_contenders_by_task contenders <->
  is_Some (get_task_configs !! task_id)
  /\ cs <> []
  /\ cs = List.filter (fun contender => String.eqb (Contender.task contender) task_id)
            contenders.
Proof. apply group_contenders_by_task_elem. Qed.
End GroupFacts.

Section StoreFacts.
Context `{Deps}.
Implicit Types (schedule : TaskScheduleInfo) (vars : LoopVars) (w : World).

Lemma length_append (s1 s2 : string) :
  String.length (s1 +:+ s2) = (String.length s1 + String.length s2)%nat.
Proof. induction s1 as [|a s1 IH]; simpl; [done|by rewrite IH]. Qed.

Lemma append_inj_r (s1 s2 suffix : string) : s1 +:+ suffix = s2 +:+ suffix -> s1 = s2.
Proof.
  intros Heq.
  assert (String.length s1 = String.length s2) as Hlen.
  { apply (f_equal String.length) in Heq. rewrite !length_append in Heq. lia. }
  revert s2 Heq Hlen. induction s1 as [|a s1 IH]; intros [|b s2]; simpl; try done.
  intros [= -> Heq] [= Hlen]. f_equal. by apply IH.
Qed.

Lemma requests_remaining_key_inj task_id task_id' :
  requests_remaining_key task_id = requests_remaining_key task_id' -> task_id = task_id'.
Proof.
  unfold requests_remaining_key. intros Heq. simpl in Heq.
  injection Heq as Heq.
  change (task_id +:+ ":requests_remaining" = task_id' +:+ ":requests_remaining") in Heq.
  by apply append_inj_r in Heq.
Qed.

Lemma publish_total_requests_run schedules w :
  publish_total_requests schedules w
  = (Ok tt,
     with_redis
       (fun store =>
          set_counters
            (foldl (fun m schedule =>
                      <[requests_remaining_key (task schedule) := total_requests schedule]> m)
               (counters store) schedules)
            store)
       w).
Proof.
  revert w. induction schedules as [|schedule rest IH]; intros w; simpl.
  - unfold ret. f_equal. by destruct w as [[] ? ? ? ? ? ? ?].
  - unfold bind, _update_redis_remaining_requests, redis_set. by rewrite IH.
Qed.

Lemma published_lookup schedules (m : gmap string Z) schedule :
  NoDup (tasks_of schedules) -> schedule ∈ schedules ->
  foldl (fun m schedule =>
           <[requests_remaining_key (task schedule) := total_requests schedule]> m)
    m schedules !! requests_remaining_key (task schedule)
  = Some (total_requests schedule).
Proof.
  induction schedules as [|last_one rest IH] using rev_ind; intros Hnodup Hin.
  { by apply elem_of_nil in Hin. }
  rewrite foldl_snoc. unfold tasks_of in Hnodup. rewrite fmap_app in Hnodup.
  apply NoDup_app in Hnodup as (Hnodup & Hfresh & _).
  apply elem_of_app in Hin as [Hin|Hin]; [|apply list_elem_of_singleton in Hin as ->].
  - rewrite lookup_insert_ne; [by apply IH|].
    intros Heq%requests_remaining_key_inj.
    apply (Hfresh (task schedule)); [by apply list_elem_of_fmap_2|].
    rewrite <- Heq. simpl. apply list_elem_of_here.
  - apply lookup_insert_eq.
Qed.

Lemma published_lookup_other schedules (m : gmap string Z) key :
  (forall schedule, schedule ∈ schedules -> key <> requests_remaining_key (task schedule)) ->
  foldl (fun m schedule =>
           <[requests_remaining_key (task schedule) := total_requests schedule]> m)
    m schedules !! key
  = m !! key.
Proof.
  induction schedules as [|last_one rest IH] using rev_ind; intros Hother; [done|].
  rewrite foldl_snoc, lookup_insert_ne.
  - apply IH. intros schedule Hin. apply Hother, elem_of_app. by left.
  - intros Heq. apply (Hother last_one); [|done]. apply elem_of_app. right.
    apply list_elem_of_here.
Qed.

Lemma clear_old_synthetic_queries_run w :
  _clear_old_synthetic_queries w
  = match non_synthetic_items (query_queue (redis_db w)) with
    | Raise e => (Raise e, w)
    | Ok kept => (Ok tt, with_redis (set_query_queue kept) w)
    end.
Proof.
  unfold _clear_old_synthetic_queries, bind, redis_lrange_all, lift, redis_delete_queue.
  destruct (non_synthetic_items _) as [[|item kept]|e]; done.
Qed.

Lemma non_synthetic_items_Ok all_items kept :
  non_synthetic_items all_items = Ok kept ->
  forall item, item ∈ all_items -> exists fields, json_loads item = Some (JObject fields).
Proof.
  revert kept. induction all_items as [|first rest IH]; intros kept Hrun item Hin.
  { by apply elem_of_nil in Hin. }
  simpl in Hrun. unfold is_non_synthetic in Hrun.
  destruct (json_loads first) as [[]|] eqn:Hfirst; try done.
  destruct (non_synthetic_items rest) as [kept'|]; [|done].
  apply elem_of_cons in Hin as [->|Hin]; [by eexists|by eapply IH].
Qed.

Lemma non_synthetic_items_exc all_items e :
  non_synthetic_items all_items = Raise e -> e = JSONDecodeError \/ e = AttributeError.
Proof.
  revert e. induction all_items as [|first rest IH]; intros e; simpl; [done|].
  unfold is_non_synthetic.
  destruct (json_loads first) as [[]|]; try (intros [= <-]; by eauto).
  destruct (non_synthetic_items rest) as [kept'|e']; [done|].
  intros [= <-]. by apply IH.
Qed.

Lemma non_synthetic_items_Raise all_items item :
  item ∈ all_items ->
  (forall fields, json_loads item <> Some (JObject fields)) ->
  exists e, non_synthetic_items all_items = Raise e
            /\ (e = JSONDecodeError \/ e = AttributeError).
Proof.
  intros Hin Hbad.
  destruct (non_synthetic_items all_items) as [kept|e] eqn:Hrun.
  { destruct (non_synthetic_items_Ok _ _ Hrun item Hin) as [fields Hitem].
    by destruct (Hbad fields). }
  exists e. split; [done|]. by eapply non_synthetic_items_exc.
Qed.

(** X4 -- The purge is all or nothing.  When some item of the work queue
    is not the text of a JSON object, [_clear_old_synthetic_queries] raises
    the decoding error (or the attribute error of a value without [get])
    and leaves the queue and everything else as it was: the items are all
    decoded before the queue is deleted.  It succeeds exactly when every
    item is a JSON object. *)
Theorem clear_old_synthetic_queries_all_or_nothing w :
  (forall item,
      item ∈ query_queue (redis_db w) ->
      (forall fields, json_loads item <> Some (JObject fields)) ->
      exists e, _clear_old_synthetic_queries w = (Raise e, w)
                /\ (e = JSONDecodeError \/ e = AttributeError))
  /\ ((exists w', _clear_old_synthetic_queries w = (Ok tt, w'))
      <-> forall item, item ∈ query_queue (redis_db w) ->
                       exists fields, json_loads item = Some (JObject fields)).
Proof.
  rewrite clear_old_synthetic_queries_run. split.
  - intros item Hin Hbad.
    destruct (non_synthetic_items_Raise _ _ Hin Hbad) as (e & -> & He). eauto.
  - split.
    + intros [w' Hrun]. destruct (non_synthetic_items _) as [kept|] eqn:Hitems; [|done].
      by eapply non_synthetic_items_Ok.
    + intros Hobjects. rewrite (non_synthetic_items_filter _ Hobjects). eauto.
Qed.

(** X5 -- The purge is idempotent.  A second run of
    [_clear_old_synthetic_queries] right after a successful one succeeds
    and changes nothing. *)
Theorem clear_old_synthetic_queries_idempotent w w' :
  _clear_old_synthetic_queries w = (Ok tt, w') ->
  _clear_old_synthetic_queries w' = (Ok tt, w').
Proof.
  rewrite !clear_old_synthetic_queries_run.
  destruct (non_synthetic_items (query_queue (redis_db w))) as [kept|] eqn:Hitems; [|done].
  pose proof (non_synthetic_items_Ok _ _ Hitems) as Hobjects.
  rewrite (non_synthetic_items_filter _ Hobjects) in Hitems. injection Hitems as <-.
  intros [= <-]. simpl.
  rewrite non_synthetic_items_filter.
  - f_equal. destruct w as [[store queue] ? ? ? ? ? ? ?]. unfold with_redis, set_query_queue.
    simpl. do 2 f_equal. clear. induction queue as [|item rest IH]; simpl; [done|].
    destruct (negb (synthetic_tagged item)) eqn:Hkeep; simpl; [|done].
    by rewrite Hkeep, IH.
  - intros item [Hin _]%list_elem_of_In%filter_In. apply Hobjects. by apply list_elem_of_In.
Qed.

Lemma initialize_task_schedules_frame config task_groups w r w' :
  _initialize_task_schedules task_groups config w = (r, w') ->
  redis_db w' = redis_db w /\ enqueued w' = enqueued w
  /\ slept w' = slept w /\ gauges w' = gauges w
  /\ (r = Raise ZeroDivisionError \/ exists schedules, r = Ok schedules).
Proof.
  unfold _initialize_task_schedules.
  generalize ([] : list TaskScheduleInfo). revert w.
  induction task_groups as [|[task_id contenders] rest IH]; intros w heap;
    cbn [initialize_task_schedules_loop].
  { unfold ret. intros [= <- <-]. eauto 10. }
  unfold bind at 1. unfold initialize_task_schedule, bind, lift.
  destruct (_calculate_task_requests task_id contenders config) as [n|e] eqn:Hvolume.
  2:{ intros [= <- <-]. split_and!; try done. left. f_equal.
      unfold _calculate_task_requests in Hvolume.
      destruct (get_enabled_task_config task_id); [|done].
      destruct (Qeq_bool _ _); by simplify_eq. }
  destruct (0 <? n).
  - unfold time_time, _get_initial_schedule_time, bind, random_random, ret.
    cbn beta iota. intros Hrest. by apply IH in Hrest.
  - unfold ret. apply IH.
Qed.

Lemma prepare_cycle_counters config w start_time vars w' :
  prepare_cycle config w = (Ok (start_time, vars), w') ->
  (forall schedule,
      schedule ∈ task_schedules vars ->
      counters (redis_db w') !! requests_remaining_key (task schedule)
      = Some (total_requests schedule)
      /\ remaining_requests schedule = total_requests schedule
      /\ 0 < total_requests schedule)
  /\ (forall key,
        (forall schedule, schedule ∈ task_schedules vars ->
                          key <> requests_remaining_key (task schedule)) ->
        counters (redis_db w') !! key = counters (redis_db w) !! key)
  /\ query_queue (redis_db w')
     = List.filter (fun item => negb (synthetic_tagged item)) (query_queue (redis_db w))
  /\ enqueued w' = enqueued w
  /\ slept w' = slept w.
Proof.
  intros Hprepare. pose proof (prepare_cycle_NoDup _ _ _ _ _ Hprepare) as Hnodup.
  apply prepare_cycle_run in Hprepare as (w1 & w2 & _ & _ & Hinit & Hclear & Hpublish).
  assert (Forall (fun schedule => remaining_requests schedule = total_requests schedule
                                  /\ 0 < total_requests schedule) (task_schedules vars))
    as Hfresh.
  { eapply (initialize_task_schedules_kept _
              (fun schedule => remaining_requests schedule = total_requests schedule
                               /\ 0 < total_requests schedule));
      [|constructor| |exact Hinit].
    - intros heap schedule Hall Hnew. rewrite heappush_perm. by constructor.
    - by intros schedule Htotal Hremaining _. }
  apply initialize_task_schedules_frame in Hinit as (Hstore & Henq & Hslept & _ & _).
  simpl in Hstore, Henq, Hslept.
  rewrite clear_old_synthetic_queries_run in Hclear.
  destruct (non_synthetic_items (query_queue (redis_db w1))) as [kept|] eqn:Hitems; [|done].
  pose proof (non_synthetic_items_Ok _ _ Hitems) as Hobjects.
  rewrite (non_synthetic_items_filter _ Hobjects) in Hitems. injection Hitems as <-.
  injection Hclear as <-.
  rewrite publish_total_requests_run in Hpublish. injection Hpublish as <-. simpl.
  rewrite Hstore, Henq, Hslept. split_and!; try done.
  - intros schedule Hin. split; [by apply published_lookup|].
    rewrite Forall_forall in Hfresh. by apply Hfresh.
  - intros key Hother. by apply published_lookup_other.
Qed.

(** X6 -- Start of a cycle.  When the preparation of a cycle succeeds,
    the shared counter of every scheduled task holds the task's
    [total_requests], which is also the schedule's own count; no other
    counter is changed; the work queue holds the former items that are not
    tagged synthetic, in order; and no job has been enqueued and no sleep
    taken yet. *)
Theorem prepare_cycle_publishes config w start_time vars w' :
  prepare_cycle config w = (Ok (start_time, vars), w') ->
  (forall schedule,
      schedule ∈ task_schedules vars ->
      counters (redis_db w') !! requests_remaining_key (task schedule)
      = Some (total_requests schedule)
      /\ remaining_requests schedule = total_requests schedule
      /\ 0 < total_requests schedule)
  /\ (forall key,
        (forall schedule, schedule ∈ task_schedules vars ->
                          key <> requests_remaining_key (task schedule)) ->
        counters (redis_db w') !! key = counters (redis_db w) !! key)
  /\ query_queue (redis_db w')
     = List.filter (fun item => negb (synthetic_tagged item)) (query_queue (redis_db w))
  /\ enqueued w' = enqueued w
  /\ slept w' = slept w.
Proof. apply prepare_cycle_counters. Qed.
End StoreFacts.

Section LoneFacts.
Context `{Deps}.
Implicit Types (schedule : TaskScheduleInfo) (vars : LoopVars) (w : World)
  (heap : list TaskScheduleInfo) (jobs : list (string * Z)).

(** The ways a turn can go for the schedule it pops. *)
Lemma loop_body_cases scoring_period_time start_time vars w schedule rest r w' :
  heapq.heappop TaskScheduleInfo_lt (task_schedules vars) = Some (schedule, rest) ->
  loop_body scoring_period_time start_time vars w = (r, w') ->
  let latest := latest_in w (task schedule) in
  exists flow heap',
    r = Ok (flow, {| i := i vars + 1; task_schedules := heap' |})
    /\ ((heap' = rest /\ (flow = Break \/ latest <= 0)
         /\ redis_db w' = redis_db w /\ enqueued w' = enqueued w)
        \/ (0 < latest < remaining_requests schedule
            /\ flow = Continue
            /\ heap' = heapq.heappush TaskScheduleInfo_lt rest (corrected schedule latest)
            /\ redis_db w' = redis_db w /\ enqueued w' = enqueued w)
        \/ (0 < latest /\ remaining_requests schedule <= latest
            /\ (exists now,
                   heap' ≡ₚ (if 0 <? latest - 1
                             then issued schedule latest now :: rest else rest))
            /\ enqueued w' = enqueued w ++ [(task schedule, 100)]
            /\ redis_db w'
               = (let store :=
                    add_synthetic_query_to_queue (task schedule) 100 (redis_db w) in
                  set_counters
                    (<[requests_remaining_key (task schedule) := latest - 1]>
                       (counters store))
                    store))).
Proof.
  intros Hpop Hrun latest.
  destruct (wait_for_schedule scoring_period_time start_time schedule w)
    as [r1 w1] eqn:Hwait.
  pose proof (wait_keeps_latest _ _ _ _ _ _ (task schedule) Hwait) as Hlatest.
  destruct (wait_for_schedule_frame _ _ _ _ _ _ Hwait) as ([stop ->] & Hstore & Henq & _).
  destruct stop.
  { rewrite (loop_body_stopped _ _ _ _ _ _ _ Hpop Hwait) in Hrun. injection Hrun as <- <-.
    exists Break, rest. split; [done|]. left. eauto. }
  rewrite (loop_body_past_wait _ _ _ _ _ _ _ Hpop Hwait) in Hrun.
  destruct (Z.le_gt_cases (latest_in w1 (task schedule)) 0) as [Hle|Hpos].
  { rewrite reconcile_exhausted in Hrun by done. injection Hrun as <- <-.
    exists Continue, rest. split; [done|]. left. split_and!; try done.
    right. unfold latest. by rewrite <- Hlatest. }
  destruct (Z.lt_ge_cases (latest_in w1 (task schedule)) (remaining_requests schedule))
    as [Hlt|Hge].
  { rewrite reconcile_drift in Hrun by done. injection Hrun as <- <-.
    eexists Continue, _. split; [done|]. right. left. unfold latest.
    rewrite <- Hlatest. by split_and!. }
  destruct (reconcile_issue scoring_period_time start_time (i vars + 1) schedule rest w1)
    as (flow & heap' & w'' & Hrun' & Hperm & _ & _ & Henq' & Hstore' & _); [done..|].
  rewrite Hrun' in Hrun. injection Hrun as <- <-.
  exists flow, heap'. split; [done|]. right. right. unfold latest.
  rewrite <- Hlatest, <- Hstore, <- Henq. split_and!; try done. by eexists.
Qed.

(** X7 -- What a turn does to the outside.  A turn of the loop works on
    the schedule at the head of the queue only: either it enqueues nothing
    and leaves the store as it is, or it enqueues one job, for the task of
    that schedule and with cap 100, having read a positive counter for it,
    and writes that counter back one lower, touching no other counter.  The
    queue never gains a task, and the turn counter goes up by one. *)
Theorem turn_effects scoring_period_time start_time vars w flow vars' w' :
  task_schedules vars <> [] ->
  loop_body scoring_period_time start_time vars w = (Ok (flow, vars'), w') ->
  exists schedule rest,
    heapq.heappop TaskScheduleInfo_lt (task_schedules vars) = Some (schedule, rest)
    /\ i vars' = i vars + 1
    /\ tasks_of (task_schedules vars') ⊆+ tasks_of (task_schedules vars)
    /\ ((enqueued w' = enqueued w /\ redis_db w' = redis_db w)
        \/ (enqueued w' = enqueued w ++ [(task schedule, 100)]
            /\ 0 < latest_in w (task schedule)
            /\ latest_in w' (task schedule) = latest_in w (task schedule) - 1
            /\ forall key,
                 key <> requests_remaining_key (task schedule) ->
                 counters (redis_db w') !! key
                 = counters (add_synthetic_query_to_queue (task schedule) 100 (redis_db w))
                     !! key)).
Proof.
  intros Hnonempty Hrun.
  destruct (heappop_nonempty TaskScheduleInfo_lt _ Hnonempty) as [[schedule rest] Hpop].
  exists schedule, rest. split; [done|].
  destruct (loop_body_tasks scoring_period_time start_time vars w)
    as (flow0 & vars0 & w0 & Hrun0 & Htasks).
  rewrite Hrun in Hrun0. injection Hrun0 as <- <- <-.
  destruct (loop_body_cases _ _ _ _ _ _ _ _ Hpop Hrun) as (flow' & heap' & Heq & Hcases).
  injection Heq as -> ->. split; [done|]. split; [done|].
  destruct Hcases as [(_ & _ & Hstore & Henq)|[(_ & _ & _ & Hstore & Henq)
                     |(Hpos & _ & _ & Henq & Hstore)]]; [by left..|].
  right. split; [done|]. split; [done|]. split.
  - unfold latest_in at 1. rewrite Hstore. simpl. by rewrite lookup_insert_eq.
  - intros key Hkey. rewrite Hstore. simpl. by rewrite lookup_insert_ne.
Qed.

Lemma latest_in_store w w' task_id :
  redis_db w' = redis_db w -> latest_in w' task_id = latest_in w task_id.
Proof. unfold latest_in. by intros ->. Qed.

Lemma pending_perm heap heap' : heap ≡ₚ heap' -> pending heap = pending heap'.
Proof.
  induction 1 as [|schedule l l' _ IH|x y l|l l' l'' _ IH1 _ IH2]; simpl.
  - done.
  - by rewrite IH.
  - lia.
  - by rewrite IH1.
Qed.

Lemma issued_for_snoc task_id jobs job :
  issued_for task_id (jobs ++ [job])
  = issued_for task_id jobs + (if String.eqb job.1 task_id then 1 else 0).
Proof.
  unfold issued_for. rewrite List.filter_app, length_app. simpl.
  destruct (String.eqb job.1 task_id); simpl; lia.
Qed.

Section Alone.
Hypothesis enqueue_keeps_counters : forall task_id max_len store,
  counters (add_synthetic_query_to_queue task_id max_len store) = counters store.

Lemma tracked_turn scoring_period_time start_time schedules base jobs vars w r w' :
  tracked schedules jobs vars w ->
  enqueued w = base ++ jobs ->
  loop_body scoring_period_time start_time vars w = (r, w') ->
  exists flow vars' jobs',
    r = Ok (flow, vars')
    /\ enqueued w' = base ++ jobs'
    /\ tracked schedules jobs' vars' w'
    /\ (flow = Continue -> pending (task_schedules vars') < pending (task_schedules vars)).
Proof.
  intros [Hjobs Hcounters Hqueue Hnodup] Hbase Hrun.
  destruct (heapq.heappop TaskScheduleInfo_lt (task_schedules vars))
    as [[schedule rest]|] eqn:Hpop.
  2:{ unfold loop_body in Hrun. rewrite Hpop in Hrun. unfold ret in Hrun.
      injection Hrun as <- <-. exists Break, {| i := i vars + 1; task_schedules := task_schedules vars |}, jobs.
      split; [done|]. split; [done|]. split; [by split|done]. }
  pose proof (heappop_perm _ _ _ _ Hpop) as Hperm.
  assert (schedule ∈ task_schedules vars) as Hhead.
  { rewrite Hperm. apply list_elem_of_here. }
  destruct (Hqueue _ Hhead) as (Hremaining & Hlive & Hknown).
  assert (forall s, s ∈ rest -> s ∈ task_schedules vars) as Hrest.
  { intros s Hin. rewrite Hperm. by apply list_elem_of_further. }
  assert (NoDup (task schedule :: tasks_of rest)) as Hnodup'.
  { unfold tasks_of in *. by rewrite Hperm in Hnodup. }
  apply NoDup_cons in Hnodup' as [Hfresh Hnodup'].
  assert (pending (task_schedules vars) = remaining_requests schedule + pending rest)
    as Hpending.
  { by rewrite (pending_perm _ _ Hperm). }
  destruct (loop_body_cases _ _ _ _ _ _ _ _ Hpop Hrun) as (flow & heap' & -> & Hcases).
  exists flow, {| i := i vars + 1; task_schedules := heap' |}.
  destruct Hcases as [(-> & _ & Hstore & Henq)|[(Hdrift & _)
                     |(Hpos & _ & [now Hheap] & Henq & Hstore)]].
  - exists jobs. split; [done|]. split; [congruence|]. split; [|simpl; lia].
    split; simpl; [done| | |done].
    + intros s0 Hin. rewrite (latest_in_store _ _ _ Hstore). by apply Hcounters.
    + intros s Hin. rewrite (latest_in_store _ _ _ Hstore). by apply Hqueue, Hrest.
  - lia.
  - set (latest := latest_in w (task schedule)) in *.
    assert (forall task_id,
               latest_in w' task_id
               = if String.eqb (task schedule) task_id then latest - 1
                 else latest_in w task_id) as Hlatest.
    { intros task_id. unfold latest_in at 1. rewrite Hstore. simpl.
      rewrite enqueue_keeps_counters.
      destruct (String.eqb_spec (task schedule) task_id) as [<-|Hne].
      - by rewrite lookup_insert_eq.
      - rewrite lookup_insert_ne; [done|]. by intros ?%requests_remaining_key_inj. }
    exists (jobs ++ [(task schedule, 100)]).
    split; [done|]. split; [by rewrite Henq, Hbase, app_assoc|]. split.
    + split; simpl.
      * intros job [Hin|Hin]%elem_of_app; [by apply Hjobs|].
        apply list_elem_of_singleton in Hin as ->. done.
      * intros s0 Hin. rewrite issued_for_snoc, Hlatest. simpl.
        destruct (Hcounters _ Hin) as [Hsum Hnonneg].
        destruct (String.eqb_spec (task schedule) (task s0)) as [Heq|Hne]; cbn iota;
          [|split; [lia|done]].
        unfold latest in Hpos |- *. rewrite Heq in Hpos |- *. split; lia.
      * intros s Hin. rewrite Hheap in Hin. rewrite Hlatest.
        assert (s ∈ rest ->
                remaining_requests s
                = (if String.eqb (task schedule) (task s) then latest - 1
                   else latest_in w (task s))
                /\ 0 < remaining_requests s /\ task s ∈ tasks_of schedules) as Hold.
        { intros Hin'. destruct (String.eqb_spec (task schedule) (task s)) as [Heq|Hne].
          - destruct Hfresh. rewrite Heq. by apply list_elem_of_fmap_2.
          - by apply Hqueue, Hrest. }
        destruct (Z.ltb_spec 0 (latest - 1)); [|by apply Hold].
        apply elem_of_cons in Hin as [->|Hin]; [|by apply Hold].
        simpl. by rewrite String.eqb_refl.
      * unfold tasks_of. rewrite Hheap.
        destruct (0 <? latest - 1); [|done]. rewrite fmap_cons. simpl. by constructor.
    + intros _. simpl. rewrite (pending_perm _ _ Hheap), Hpending.
      destruct (Z.ltb_spec 0 (latest - 1)); simpl; lia.
Qed.

Lemma pending_pos heap :
  heap <> [] -> (forall schedule, schedule ∈ heap -> 0 < remaining_requests schedule) ->
  0 < pending heap.
Proof.
  intros Hnonempty Hlive.
  assert (forall l, (forall schedule, schedule ∈ l -> 0 < remaining_requests schedule) ->
                    0 <= pending l) as Hnonneg.
  { induction l as [|x l IH]; intros Hl; simpl; [done|].
    pose proof (Hl x (list_elem_of_here _ _)).
    assert (0 <= pending l) by (apply IH; intros; by apply Hl, list_elem_of_further). lia. }
  destruct heap as [|schedule rest]; [done|]. simpl.
  pose proof (Hlive schedule (list_elem_of_here _ _)).
  assert (0 <= pending rest) by (apply Hnonneg; intros; by apply Hlive, list_elem_of_further).
  lia.
Qed.

Lemma tracked_while scoring_period_time start_time schedules base fuel jobs vars w r w' :
  tracked schedules jobs vars w ->
  enqueued w = base ++ jobs ->
  while_task_schedules fuel scoring_period_time start_time vars w = (r, w') ->
  exists jobs' vars',
    enqueued w' = base ++ jobs'
    /\ tracked schedules jobs' vars' w'
    /\ (r = Ok None \/ r = Ok (Some vars'))
    /\ (pending (task_schedules vars) <= Z.of_nat fuel -> r = Ok (Some vars')).
Proof.
  revert jobs vars w. induction fuel as [|fuel IH]; intros jobs vars w Htracked Hbase;
    cbn [while_task_schedules];
    destruct (task_schedules vars) as [|schedule rest] eqn:Hheap.
  - intros [= <- <-]. exists jobs, vars. eauto.
  - intros [= <- <-]. exists jobs, vars. split_and!; eauto.
    intros Hfuel. exfalso.
    assert (0 < pending (task_schedules vars)); [|rewrite Hheap in *; simpl in *; lia].
    apply pending_pos; [by rewrite Hheap|]. intros s Hin.
    by apply (tracked_queue _ _ _ _ Htracked).
  - intros [= <- <-]. exists jobs, vars. eauto.
  - unfold bind.
    destruct (loop_body scoring_period_time start_time vars w) as [r1 w1] eqn:Hrun.
    destruct (tracked_turn _ _ _ _ _ _ _ _ _ Htracked Hbase Hrun)
      as (flow & vars1 & jobs1 & -> & Hbase1 & Htracked1 & Hless).
    destruct flow.
    + intros Hrest.
      destruct (IH _ _ _ Htracked1 Hbase1 Hrest)
        as (jobs' & vars' & Hbase' & Htracked' & Hr & Henough).
      exists jobs', vars'. split_and!; try done.
      intros Hfuel. apply Henough. specialize (Hless eq_refl). rewrite Hheap in Hless. lia.
    + unfold ret. intros [= <- <-]. exists jobs1, vars1. eauto.
Qed.

Lemma prepare_cycle_tracked config w0 start_time vars0 w1 :
  prepare_cycle config w0 = (Ok (start_time, vars0), w1) ->
  tracked (task_schedules vars0) [] vars0 w1.
Proof.
  intros Hprepare. pose proof (prepare_cycle_NoDup _ _ _ _ _ Hprepare) as Hnodup.
  apply prepare_cycle_counters in Hprepare as (Hcounters & _).
  assert (forall schedule, schedule ∈ task_schedules vars0 ->
            latest_in w1 (task schedule) = total_requests schedule) as Hlatest.
  { intros schedule Hin. unfold latest_in. by destruct (Hcounters _ Hin) as (-> & _). }
  split; [|intros schedule Hin; destruct (Hcounters _ Hin) as (_ & Hfresh & Hpos)..|done].
  - by intros job ?%elem_of_nil.
  - rewrite (Hlatest _ Hin). unfold issued_for. simpl. lia.
  - rewrite (Hlatest _ Hin). split; [done|]. split; [lia|]. by apply list_elem_of_fmap_2.
Qed.

(** X8 -- Budget of an instance alone on the store.  When the enqueue
    utility leaves the counters alone and nobody else writes to the store,
    the loop of a cycle enqueues, for every task it scheduled, at most the
    task's [total_requests] jobs, all with cap 100 and none for any other
    task; and at every exit the shared counter of a scheduled task is its
    [total_requests] less the jobs enqueued for it. *)
Theorem lone_cycle_budget fuel config w0 start_time vars0 w1 r w' :
  let scoring_period_time :=
    (SCORING_PERIOD_TIME * scoring_period_time_multiplier config)%Q in
  prepare_cycle config w0 = (Ok (start_time, vars0), w1) ->
  while_task_schedules fuel scoring_period_time start_time vars0 w1 = (r, w') ->
  exists jobs,
    enqueued w' = enqueued w1 ++ jobs
    /\ (forall job, job ∈ jobs ->
          job.2 = 100 /\ job.1 ∈ tasks_of (task_schedules vars0))
    /\ forall schedule,
         schedule ∈ task_schedules vars0 ->
         issued_for (task schedule) jobs <= total_requests schedule
         /\ latest_in w' (task schedule)
            = total_requests schedule - issued_for (task schedule) jobs.
Proof.
  intros scoring_period_time Hprepare Hrun.
  apply prepare_cycle_tracked in Hprepare.
  destruct (tracked_while _ _ _ (enqueued w1) _ _ _ _ _ _ Hprepare (eq_sym (app_nil_r _)) Hrun)
    as (jobs & vars' & Hbase & [Hjobs Hcounters _ _] & _).
  exists jobs. split; [done|]. split; [done|].
  intros schedule Hin. destruct (Hcounters _ Hin). lia.
Qed.

(** X9 -- A cycle alone on the store ends.  With the enqueue utility
    leaving the counters alone and nobody else writing to the store, the
    loop is left after at most as many turns as there are requests
    scheduled at the start; [schedule_synthetics_until_done] then reports
    the tasks still queued and completes after a last sleep of 10 seconds. *)
Theorem lone_cycle_ends fuel config w0 start_time vars0 w1 :
  prepare_cycle config w0 = (Ok (start_time, vars0), w1) ->
  pending (task_schedules vars0) <= Z.of_nat fuel ->
  exists tasks w',
    schedule_synthetics_until_done fuel config w0 = (Ok (Some tasks), w')
    /\ last (slept w') = Some 10%Q.
Proof.
  intros Hprepare Hfuel. unfold schedule_synthetics_until_done, bind. rewrite Hprepare.
  apply prepare_cycle_tracked in Hprepare.
  destruct (while_task_schedules fuel _ start_time vars0 w1) as [r w2] eqn:Hrun.
  destruct (tracked_while _ _ _ (enqueued w1) _ _ _ _ _ _ Hprepare (eq_sym (app_nil_r _)) Hrun)
    as (jobs & vars' & _ & _ & _ & Hdone).
  rewrite (Hdone Hfuel).
  destruct (pop_all _ _) as [schedules_left heap]. unfold time_time, asyncio_sleep, ret.
  simpl. eexists _, _. split; [done|]. simpl. apply last_snoc.
Qed.
End Alone.
End LoneFacts.

Section EdgeFacts.
Context `{Deps}.
Implicit Types (schedule : TaskScheduleInfo) (vars : LoopVars) (w : World).




Lemma initialize_nothing_enabled scoring_period_time config task_groups schedules w :
  (forall task_id contenders,
      (task_id, contenders) ∈ task_groups -> get_enabled_task_config task_id = None) ->
  initialize_task_schedules_loop scoring_period_time config schedules task_groups w
  = (Ok schedules, w).
Proof.
  induction task_groups as [|[task_id contenders] rest IH]; intros Hoff;
    cbn [initialize_task_schedules_loop]; [done|].
  unfold bind.
  rewrite (initialize_task_schedule_skip _ _ _ _ _ _ 0); [|
    unfold _calculate_task_requests;
    by rewrite (Hoff task_id contenders (list_elem_of_here _ _))|done].
  apply IH. intros t cs Hin. apply (Hoff t cs). by apply list_elem_of_further.
Qed.

(** X11 -- Nothing to schedule.  When no loaded contender serves a task
    with an enabled configuration and the work queue holds JSON objects,
    [schedule_synthetics_until_done] takes no turn of the loop whatever the
    number of turns allowed: it drops the items tagged synthetic from the
    work queue, changes no counter, enqueues nothing, draws no random
    number, reads the clock twice, sleeps once for 10 seconds and reports
    no schedule left. *)
Theorem nothing_enabled_cycle fuel config w :
  (forall contender,
      contender ∈ load_contenders ->
      get_enabled_task_config (Contender.task contender) = None) ->
  (forall item, item ∈ query_queue (redis_db w) ->
                exists fields, json_loads item = Some (JObject fields)) ->
  exists w',
    schedule_synthetics_until_done fuel config w = (Ok (Some []), w')
    /\ counters (redis_db w') = counters (redis_db w)
    /\ query_queue (redis_db w')
       = List.filter (fun item => negb (synthetic_tagged item)) (query_queue (redis_db w))
    /\ enqueued w' = enqueued w
    /\ slept w' = slept w ++ [10%Q]
    /\ rand_calls w' = rand_calls w
    /\ time_calls w' = S (S (time_calls w)).
Proof.
  intros Hoff Hobjects.
  unfold schedule_synthetics_until_done, prepare_cycle, bind, time_time, _load_contenders,
    ret, _initialize_task_schedules.
  cbn beta iota.
  rewrite initialize_nothing_enabled.
  2:{ intros task_id contenders (_ & Hnonempty & Hgroup)%group_contenders_by_task_elem.
      destruct contenders as [|contender others]; [done|].
      assert (In contender
                (List.filter (fun c => String.eqb (Contender.task c) task_id) load_contenders))
        as [Hin Htask]%filter_In by (rewrite <- Hgroup; by left).
      apply String.eqb_eq in Htask as <-. by apply Hoff, list_elem_of_In. }
  rewrite clear_old_synthetic_queries_run. cbn [redis_db with_time_calls].
  rewrite (non_synthetic_items_filter _ Hobjects).
  set (kept := List.filter _ _).
  destruct fuel; cbn; (eexists; split; [done|]; by cbn).
Qed.
End EdgeFacts.

Section DrainFacts.
Context `{Deps}.
Implicit Types (schedule : TaskScheduleInfo) (w : World) (heap : list TaskScheduleInfo).

(** Popping as often as the queue is long empties it. *)
Lemma pop_all_drains n heap :
  length heap = n ->
  exists popped,
    pop_all n heap = (popped, [])
    /\ popped ≡ₚ heap
    /\ (is_heap TaskScheduleInfo_lt heap ->
        StronglySorted
          (fun s1 s2 => (next_schedule_time s1 <= next_schedule_time s2)%Q) popped).
Proof.
  revert heap. induction n as [|n IH]; intros heap Hlen.
  { destruct heap; [|done]. exists []. split; [done|]. split; [done|]. constructor. }
  destruct (heappop_nonempty TaskScheduleInfo_lt heap) as [[schedule rest] Hpop].
  { by destruct heap. }
  pose proof (heappop_perm _ _ _ _ Hpop) as Hperm.
  assert (length rest = n) as Hrest.
  { apply Permutation_length in Hperm. simpl in Hperm. lia. }
  destruct (IH rest Hrest) as (popped & Hrun & Hpopped & Hsorted).
  exists (schedule :: popped). cbn [pop_all]. rewrite Hpop, Hrun.
  split; [done|]. split; [by rewrite Hperm, Hpopped|].
  intros Hheap.
  destruct (heappop_is_heap TaskScheduleInfo_lt TaskScheduleInfo_lt_le
              TaskScheduleInfo_le_trans _ _ _ Hheap Hpop) as [Hheap' Hleast].
  constructor; [by apply Hsorted|].
  apply Forall_forall. intros other Hin. apply heap_le_next_schedule_time, Hleast.
  rewrite Hperm. apply list_elem_of_further. by rewrite <- Hpopped.
Qed.

(** X12 -- The schedules left are reported in due order.  Popping a heap
    as often as it is long, as the reports of a cycle do, empties it and
    gives every schedule exactly once, earliest [next_schedule_time]
    first. *)
Theorem schedules_left_in_due_order heap :
  is_heapb TaskScheduleInfo_lt heap = true ->
  exists schedules_left,
    pop_all (length heap) heap = (schedules_left, [])
    /\ schedules_left ≡ₚ heap
    /\ StronglySorted
         (fun s1 s2 => (next_schedule_time s1 <= next_schedule_time s2)%Q)
         schedules_left.
Proof.
  intros Hheap%is_heapb_is_heap.
  destruct (pop_all_drains (length heap) heap eq_refl) as (popped & Hrun & Hperm & Hsorted).
  exists popped. split; [done|]. split; [done|]. by apply Hsorted.
Qed.

Lemma report_and_push_heap schedules_left heap w heap' w' :
  is_heap TaskScheduleInfo_lt heap ->
  report_and_push schedules_left heap w = (Ok heap', w') ->
  is_heap TaskScheduleInfo_lt heap'.
Proof.
  intros Hheap Hrun.
  destruct (report_and_push_kept _ _ _ _ _ _ _ is_heap_kept Hheap
              (Forall_true (fun _ => True) schedules_left (fun _ => I)) Hrun)
    as (heap'' & [= <-] & Hheap'). done.
Qed.

(** X13 -- The status report keeps the queue.  The report of every 100th
    turn pops every schedule and pushes it back: the queue afterwards holds
    the same schedules, it is a heap whatever it was before, and nothing
    but the clock, read once per schedule and once more, has changed. *)
Theorem status_report_keeps_queue heap w :
  exists heap',
    status_report heap w
    = (Ok heap', with_time_calls (S (length heap + time_calls w)) w)
    /\ heap' ≡ₚ heap
    /\ is_heapb TaskScheduleInfo_lt heap' = true.
Proof.
  unfold status_report.
  destruct (pop_all_drains (length heap) heap eq_refl) as (popped & -> & Hperm & _).
  destruct (report_and_push_run popped [] w) as (heap' & Hrun & Hperm').
  unfold bind. rewrite Hrun. unfold time_time, ret. cbn.
  exists heap'. split.
  - f_equal. unfold with_time_calls. simpl. by rewrite (Permutation_length Hperm).
  - split; [by rewrite Hperm', app_nil_r|].
    apply is_heapb_is_heap. eapply report_and_push_heap; [apply is_heap_nil|exact Hrun].
Qed.
End DrainFacts.

Section ZeroFacts.
Context `{Deps}.
Implicit Types (w : World).

Lemma calculate_task_requests_zero task_id contenders config task_config :
  get_task_configs !! task_id = Some task_config ->
  enabled task_config = true ->
  (volume_to_requests_conversion task_config == 0)%Q ->
  _calculate_task_requests task_id contenders config = Raise ZeroDivisionError.
Proof.
  intros Hcfg Hon Hzero. unfold _calculate_task_requests, get_enabled_task_config.
  rewrite Hcfg, Hon. apply Qeq_bool_iff in Hzero. by rewrite Hzero.
Qed.

Lemma initialize_loop_zero scoring_period_time config task_groups heap w task_id contenders :
  (task_id, contenders) ∈ task_groups ->
  _calculate_task_requests task_id contenders config = Raise ZeroDivisionError ->
  exists w',
    initialize_task_schedules_loop scoring_period_time config heap task_groups w
    = (Raise ZeroDivisionError, w').
Proof.
  intros Hin Hzero. revert heap w.
  induction task_groups as [|[t cs] rest IH]; intros heap w;
    [by apply elem_of_nil in Hin|].
  cbn [initialize_task_schedules_loop]. unfold bind at 1.
  unfold initialize_task_schedule, bind, lift.
  apply elem_of_cons in Hin as [[= <- <-]|Hin].
  { rewrite Hzero. eauto. }
  destruct (_calculate_task_requests t cs config) as [n|e] eqn:Hvolume.
  - destruct (0 <? n).
    + unfold time_time, _get_initial_schedule_time, bind, random_random, ret.
      cbn beta iota. by apply IH.
    + unfold ret. by apply IH.
  - unfold _calculate_task_requests in Hvolume.
    destruct (get_enabled_task_config t); [|done].
    destruct (Qeq_bool _ _); simplify_eq. eauto.
Qed.

(** X14 -- A zero conversion constant aborts the cycle.  When a loaded
    contender serves a task whose enabled configuration has
    [volume_to_requests_conversion] 0, the volume computation for that task
    raises the division error whatever the contenders, and
    [schedule_synthetics_until_done] raises it before it has purged the
    queue, written a counter, enqueued a job or slept. *)
Theorem zero_conversion_aborts fuel config w contender task_config :
  contender ∈ load_contenders ->
  get_task_configs !! Contender.task contender = Some task_config ->
  enabled task_config = true ->
  (volume_to_requests_conversion task_config == 0)%Q ->
  (forall contenders,
      _calculate_task_requests (Contender.task contender) contenders config
      = Raise ZeroDivisionError)
  /\ exists w',
       schedule_synthetics_until_done fuel config w = (Raise ZeroDivisionError, w')
       /\ redis_db w' = redis_db w
       /\ enqueued w' = enqueued w
       /\ slept w' = slept w.
Proof.
  intros Hin Hcfg Hon Hzero.
  assert (forall contenders,
             _calculate_task_requests (Contender.task contender) contenders config
             = Raise ZeroDivisionError) as Hraise.
  { intros contenders. by eapply calculate_task_requests_zero. }
  split; [done|].
  set (group := List.filter
                  (fun c => String.eqb (Contender.task c) (Contender.task contender))
                  load_contenders).
  assert ((Contender.task contender, group) ∈ _group_contenders_by_task load_contenders)
    as Hgroup.
  { apply group_contenders_by_task_elem. split; [by eexists|]. split; [|done].
    assert (In contender group) as Hmember.
    { apply filter_In. split; [by apply list_elem_of_In|apply String.eqb_refl]. }
    intros Hempty. by rewrite Hempty in Hmember. }
  unfold schedule_synthetics_until_done, prepare_cycle, bind, time_time, _load_contenders, ret.
  cbn beta iota.
  destruct (initialize_loop_zero
              (SCORING_PERIOD_TIME * scoring_period_time_multiplier config)%Q config _ []
              (with_time_calls (S (time_calls w)) w) _ _ Hgroup (Hraise group))
    as [w' Hinit].
  pose proof Hinit as Hframe.
  apply (initialize_task_schedules_frame config) in Hframe as (Hstore & Henq & Hslept & _).
  unfold _initialize_task_schedules. rewrite Hinit. exists w'. by split_and!.
Qed.
End ZeroFacts.

(** * Further properties of the registry *)

Section RegistryMore.
Context {Handle : Type} (Fernet : option string -> option Handle).
Context (fernet_to_symmetric_key : Handle -> string).
Implicit Types (db : Database) (row : NodeRow.t) (node : Node.t Handle).

Lemma fetchall_is_node db hotkey netuid :
  List.filter (fun row => String.eqb (NodeRow.hotkey row) hotkey)
    (nodes.fetchall_netuid db netuid)
  = List.filter (nodes.is_node hotkey netuid) (nodes_table db).
Proof.
  unfold nodes.fetchall_netuid, nodes.is_node.
  induction (nodes_table db) as [|row rows IH]; simpl; [done|].
  destruct (NodeRow.netuid row =? netuid); simpl.
  - rewrite andb_true_r. destruct (String.eqb _ _); by rewrite IH.
  - by rewrite andb_false_r.
Qed.

Lemma stakes_fold rows (stakes : gmap string Q) hotkey :
  fold_left (fun m row => <[NodeRow.hotkey row := NodeRow.stake row]> m) rows stakes
    !! hotkey
  = match last (List.filter (fun row => String.eqb (NodeRow.hotkey row) hotkey) rows) with
    | Some row => Some (NodeRow.stake row)
    | None => stakes !! hotkey
    end.
Proof.
  revert stakes. induction rows as [|row rows IH]; intros stakes; simpl; [done|].
  rewrite IH. destruct (String.eqb_spec (NodeRow.hotkey row) hotkey) as [Heq|Hne].
  - destruct (List.filter _ rows) as [|row' kept] eqn:Hkept.
    + simpl. rewrite Heq. apply lookup_insert_eq.
    + rewrite last_cons_cons. destruct (last (row' :: kept)) eqn:Hlast; [done|].
      by apply last_None in Hlast.
  - destruct (last _); [done|]. by apply lookup_insert_ne.
Qed.

(** X15 -- [get_node_stakes].  The stake recorded for a hotkey is the stake
    of the last live row of the subnet with that hotkey, and the hotkey is
    absent from the mapping when the subnet has no such row; when hotkeys
    are unique within the subnet, every row's hotkey maps to that row's
    stake. *)
Theorem get_node_stakes_lookup db netuid :
  (forall hotkey,
      nodes.get_node_stakes db netuid !! hotkey
      = NodeRow.stake <$> last (List.filter (nodes.is_node hotkey netuid) (nodes_table db)))
  /\ (forall hotkey,
        is_Some (nodes.get_node_stakes db netuid !! hotkey)
        <-> exists row, row ∈ nodes_table db
                        /\ NodeRow.hotkey row = hotkey /\ NodeRow.netuid row = netuid)
  /\ ((forall row row',
         row ∈ nodes_table db -> row' ∈ nodes_table db ->
         NodeRow.netuid row = netuid -> NodeRow.netuid row' = netuid ->
         NodeRow.hotkey row = NodeRow.hotkey row' -> row = row') ->
      forall row,
        row ∈ nodes_table db -> NodeRow.netuid row = netuid ->
        nodes.get_node_stakes db netuid !! NodeRow.hotkey row = Some (NodeRow.stake row)).
Proof.
  assert (forall hotkey,
             nodes.get_node_stakes db netuid !! hotkey
             = NodeRow.stake <$>
                 last (List.filter (nodes.is_node hotkey netuid) (nodes_table db))) as Hlookup.
  { intros hotkey. unfold nodes.get_node_stakes. rewrite stakes_fold, fetchall_is_node.
    by destruct (last _). }
  assert (forall hotkey row,
             row ∈ List.filter (nodes.is_node hotkey netuid) (nodes_table db)
             <-> row ∈ nodes_table db
                 /\ NodeRow.hotkey row = hotkey /\ NodeRow.netuid row = netuid) as Hin.
  { intros hotkey row. rewrite !list_elem_of_In, filter_In. unfold nodes.is_node.
    rewrite andb_true_iff, Z.eqb_eq, String.eqb_eq. done. }
  split; [done|]. split.
  - intros hotkey. rewrite Hlookup, fmap_is_Some. split.
    + intros [row Hlast]. exists row. apply Hin. rewrite last_Some in Hlast.
      destruct Hlast as [rows ->]. apply elem_of_app. right. apply list_elem_of_here.
    + intros (row & Hrow). apply Hin in Hrow.
      destruct (List.filter _ _) as [|r rs] using rev_ind; [by apply elem_of_nil in Hrow|].
      rewrite last_snoc. eauto.
  - intros Hunique row Hrow Hnet. rewrite Hlookup.
    destruct (last _) as [row'|] eqn:Hlast.
    + rewrite last_Some in Hlast. destruct Hlast as [rows Hrows].
      assert (row' ∈ List.filter (nodes.is_node (NodeRow.hotkey row) netuid) (nodes_table db))
        as (Hin' & Hhot & Hnet')%Hin.
      { rewrite Hrows. apply elem_of_app. right. apply list_elem_of_here. }
      simpl. f_equal. f_equal. symmetry. by apply Hunique.
    + apply last_None in Hlast.
      assert (row ∈ List.filter (nodes.is_node (NodeRow.hotkey row) netuid) (nodes_table db))
        as Hrow' by (by apply Hin).
      rewrite Hlast in Hrow'. by apply elem_of_nil in Hrow'.
Qed.

(** *** The own-validator flag *)

Lemma get_vali_ss58_address_head db netuid :
  (nodes.get_vali_ss58_address db netuid).1 = head (nodes.flagged db netuid).
Proof.
  unfold nodes.get_vali_ss58_address, nodes.flagged.
  induction (nodes_table db) as [|row rows IH]; simpl; [done|].
  destruct (NodeRow.our_validator row && (NodeRow.netuid row =? netuid)); [done|].
  exact IH.
Qed.

Lemma flagged_update db ss58_address netuid netuid' :
  nodes.flagged (nodes.update_our_vali_node_in_db db ss58_address netuid) netuid'
  = map NodeRow.hotkey
      (List.filter
         (fun row => (NodeRow.our_validator row || nodes.is_node ss58_address netuid row)
                     && (NodeRow.netuid row =? netuid'))
         (nodes_table db)).
Proof.
  unfold nodes.flagged, nodes.update_our_vali_node_in_db. simpl.
  induction (nodes_table db) as [|row rows IH]; simpl; [done|].
  destruct (nodes.is_node ss58_address netuid row) eqn:Hnode; simpl.
  - rewrite orb_true_r. simpl. destruct (NodeRow.netuid row =? netuid'); simpl; by rewrite IH.
  - rewrite orb_false_r.
    destruct (NodeRow.our_validator row && (NodeRow.netuid row =? netuid')); simpl;
      by rewrite IH.
Qed.

Lemma flagged_elem db netuid hotkey :
  hotkey ∈ nodes.flagged db netuid
  <-> exists row, row ∈ nodes_table db /\ NodeRow.hotkey row = hotkey
                  /\ NodeRow.netuid row = netuid /\ NodeRow.our_validator row = true.
Proof.
  unfold nodes.flagged. rewrite list_elem_of_In, in_map_iff. split.
  - intros (row & Hhot & Hin). apply filter_In in Hin as [Hin Hflag].
    apply andb_true_iff in Hflag as [Hflag Hnet%Z.eqb_eq].
    exists row. by rewrite list_elem_of_In.
  - intros (row & Hin & Hhot & Hnet & Hflag). exists row. split; [done|].
    apply filter_In. rewrite <- list_elem_of_In. split; [done|].
    rewrite Hflag. simpl. by apply Z.eqb_eq.
Qed.

(** X16 -- Marking the own validator.  When the subnet has a row for the
    hotkey and no row of the subnet is flagged under another hotkey,
    [get_vali_ss58_address] after [update_our_vali_node_in_db] returns that
    hotkey; without any flagged row it returns the absent value and logs
    the miss. *)
Theorem update_our_vali_then_get db ss58_address netuid :
  ((exists row, row ∈ nodes_table db /\ NodeRow.hotkey row = ss58_address
                /\ NodeRow.netuid row = netuid) ->
   (forall row, row ∈ nodes_table db -> NodeRow.netuid row = netuid ->
                NodeRow.our_validator row = true -> NodeRow.hotkey row = ss58_address) ->
   nodes.get_vali_ss58_address (nodes.update_our_vali_node_in_db db ss58_address netuid)
     netuid
   = (Some ss58_address, false))
  /\ ((forall row, row ∈ nodes_table db -> NodeRow.netuid row = netuid ->
                   NodeRow.our_validator row = false) ->
      nodes.get_vali_ss58_address db netuid = (None, true)).
Proof.
  split.
  - intros (row & Hin & Hhot & Hnet) Hothers.
    pose proof (get_vali_ss58_address_head
                  (nodes.update_our_vali_node_in_db db ss58_address netuid) netuid) as Hhead.
    assert (head (nodes.flagged (nodes.update_our_vali_node_in_db db ss58_address netuid)
                    netuid) = Some ss58_address) as Hfirst.
    { rewrite flagged_update.
      assert (Forall (fun hotkey => hotkey = ss58_address)
                (map NodeRow.hotkey
                   (List.filter
                      (fun row => (NodeRow.our_validator row
                                   || nodes.is_node ss58_address netuid row)
                                  && (NodeRow.netuid row =? netuid))
                      (nodes_table db)))) as Hall.
      { apply Forall_forall. intros hotkey (row' & <- & Hin')%list_elem_of_In%in_map_iff.
        apply filter_In in Hin' as [Hin' Hsel]. apply list_elem_of_In in Hin'.
        apply andb_true_iff in Hsel as [Hsel Hnet'%Z.eqb_eq].
        apply orb_true_iff in Hsel as [Hflag|Hnode].
        - by apply Hothers.
        - unfold nodes.is_node in Hnode. by apply andb_true_iff in Hnode as [?%String.eqb_eq _]. }
      assert (ss58_address ∈ map NodeRow.hotkey
                (List.filter
                   (fun row => (NodeRow.our_validator row
                                || nodes.is_node ss58_address netuid row)
                               && (NodeRow.netuid row =? netuid))
                   (nodes_table db))) as Hsome.
      { rewrite list_elem_of_In, in_map_iff. exists row. split; [done|].
        apply filter_In. rewrite <- list_elem_of_In. split; [done|].
        unfold nodes.is_node. rewrite Hhot, Hnet, String.eqb_refl, Z.eqb_refl.
        by rewrite orb_true_r. }
      destruct (map _ _) as [|first rest]; [by apply elem_of_nil in Hsome|].
      simpl. f_equal. by apply Forall_cons in Hall as [? _]. }
    rewrite Hfirst in Hhead. revert Hhead. unfold nodes.get_vali_ss58_address.
    destruct (List.find _ _); simpl; [by intros [= ->]|done].
  - intros Hnone. unfold nodes.get_vali_ss58_address.
    destruct (List.find _ _) as [row|] eqn:Hfind; [|done].
    apply find_some in Hfind as [Hin Hsel]. apply list_elem_of_In in Hin.
    apply andb_true_iff in Hsel as [Hflag Hnet%Z.eqb_eq].
    by rewrite (Hnone row Hin Hnet) in Hflag.
Qed.

(** X17 -- The flag is only ever set.  A hotkey flagged in a subnet stays
    flagged through [update_our_vali_node_in_db], whatever it marks; so
    after marking two hotkeys that both have a row in the subnet, both are
    flagged and the subnet has more than one flagged row. *)
Theorem update_our_vali_keeps_flags db first second netuid :
  (forall hotkey netuid',
      hotkey ∈ nodes.flagged db netuid' ->
      hotkey ∈ nodes.flagged (nodes.update_our_vali_node_in_db db second netuid) netuid')
  /\ ((exists row, row ∈ nodes_table db /\ NodeRow.hotkey row = first
                   /\ NodeRow.netuid row = netuid) ->
      (exists row, row ∈ nodes_table db /\ NodeRow.hotkey row = second
                   /\ NodeRow.netuid row = netuid) ->
      first <> second ->
      let db' := nodes.update_our_vali_node_in_db
                   (nodes.update_our_vali_node_in_db db first netuid) second netuid in
      first ∈ nodes.flagged db' netuid
      /\ second ∈ nodes.flagged db' netuid
      /\ (2 <= length (nodes.flagged db' netuid))%nat).
Proof.
  assert (forall db0 marked hotkey netuid',
             hotkey ∈ nodes.flagged db0 netuid' ->
             hotkey ∈ nodes.flagged (nodes.update_our_vali_node_in_db db0 marked netuid)
                        netuid') as Hkeeps.
  { intros db0 marked hotkey netuid' (row & Hin & Hhot & Hnet & Hflag)%flagged_elem.
    rewrite flagged_update, list_elem_of_In, in_map_iff. exists row. split; [done|].
    apply filter_In. rewrite <- list_elem_of_In. split; [done|].
    rewrite Hflag. simpl. by apply Z.eqb_eq. }
  assert (forall db0 marked,
             (exists row, row ∈ nodes_table db0 /\ NodeRow.hotkey row = marked
                          /\ NodeRow.netuid row = netuid) ->
             marked ∈ nodes.flagged (nodes.update_our_vali_node_in_db db0 marked netuid)
                        netuid) as Hsets.
  { intros db0 marked (row & Hin & Hhot & Hnet).
    rewrite flagged_update, list_elem_of_In, in_map_iff. exists row. split; [done|].
    apply filter_In. rewrite <- list_elem_of_In. split; [done|].
    unfold nodes.is_node. rewrite Hhot, Hnet, String.eqb_refl, Z.eqb_refl.
    by rewrite orb_true_r. }
  split; [apply Hkeeps|].
  intros Hfirst (row2 & Hin2 & Hhot2 & Hnet2) Hne db'.
  assert (first ∈ nodes.flagged db' netuid) as H1 by (apply Hkeeps, Hsets, Hfirst).
  assert (second ∈ nodes.flagged db' netuid) as H2.
  { apply Hsets. exists (if nodes.is_node first netuid row2
                         then nodes.set_our_validator row2 else row2).
    split.
    - simpl. rewrite list_elem_of_In, in_map_iff. exists row2.
      by rewrite <- list_elem_of_In.
    - by destruct (nodes.is_node first netuid row2). }
  split; [done|]. split; [done|].
  destruct (nodes.flagged db' netuid) as [|a [|b rest]]; simpl.
  - by apply elem_of_nil in H1.
  - apply list_elem_of_singleton in H1, H2. congruence.
  - lia.
Qed.

(** *** Installing keys *)

Lemma insert_symmetric_keys_rows db nodes :
  nodes_table (nodes.insert_symmetric_keys_for_nodes fernet_to_symmetric_key db nodes)
  = map (nodes.install_keys fernet_to_symmetric_key nodes) (nodes_table db)
  /\ nodes_history_table (nodes.insert_symmetric_keys_for_nodes fernet_to_symmetric_key db nodes)
     = nodes_history_table db.
Proof.
  unfold nodes.insert_symmetric_keys_for_nodes, nodes.install_keys.
  revert db. induction nodes as [|node nodes IH]; intros db; simpl.
  { by rewrite map_id. }
  destruct (IH (match Node.fernet node with
                | Some fernet =>
                    nodes.update_symmetric_key db (fernet_to_symmetric_key fernet)
                      (Node.symmetric_key_uuid node) (Node.hotkey node) (Node.netuid node)
                | None => db
                end)) as [-> ->].
  destruct (Node.fernet node); simpl; [|done]. by rewrite map_map.
Qed.

Lemma install_keys_identity nodes row :
  let row' := nodes.install_keys fernet_to_symmetric_key nodes row in
  NodeRow.hotkey row' = NodeRow.hotkey row
  /\ NodeRow.netuid row' = NodeRow.netuid row
  /\ NodeRow.node_id row' = NodeRow.node_id row
  /\ NodeRow.stake row' = NodeRow.stake row
  /\ NodeRow.our_validator row' = NodeRow.our_validator row
  /\ NodeRow.created_at row' = NodeRow.created_at row.
Proof.
  unfold nodes.install_keys. revert row.
  induction nodes as [|node nodes IH]; intros row; simpl; [done|].
  destruct (Node.fernet node); [|apply IH].
  destruct (nodes.is_node _ _ row); [|apply IH].
  destruct (IH (nodes.set_symmetric_key (Some (fernet_to_symmetric_key h))
                  (Node.symmetric_key_uuid node) row)) as (? & ? & ? & ? & ? & ?).
  done.
Qed.

Lemma install_keys_untouched nodes row :
  Forall (fun node => Node.fernet node = None
                      \/ nodes.is_node (Node.hotkey node) (Node.netuid node) row = false)
    nodes ->
  nodes.install_keys fernet_to_symmetric_key nodes row = row.
Proof.
  unfold nodes.install_keys. induction 1 as [|node nodes Hnode _ IH]; simpl; [done|].
  destruct Hnode as [->| ->]; [done|]. by destruct (Node.fernet node).
Qed.

Lemma find_map {A} (p : A -> bool) (g : A -> A) (l : list A) :
  (forall x, p (g x) = p x) -> List.find p (map g l) = g <$> List.find p l.
Proof.
  intros Hp. induction l as [|x l IH]; simpl; [done|].
  rewrite Hp. by destruct (p x).
Qed.

(** X18 -- Keys installed are keys read back.  Let a node carry a handle
    whose key the Fernet constructor turns back into that handle, and let
    no later node of the list update the same hotkey and subnet.  After
    [insert_symmetric_keys_for_nodes], [get_node] for the row of that
    hotkey returns the node with that handle and the node's key
    identifier. *)
Theorem insert_symmetric_keys_then_get_node db before node after handle row :
  Fernet (Some (fernet_to_symmetric_key handle)) = Some handle ->
  Node.fernet node = Some handle ->
  Forall (fun later => Node.fernet later = None
                       \/ Node.hotkey later <> Node.hotkey node
                       \/ Node.netuid later <> Node.netuid node) after ->
  row ∈ nodes_table db ->
  NodeRow.hotkey row = Node.hotkey node ->
  NodeRow.netuid row = Node.netuid node ->
  (forall row', row' ∈ nodes_table db ->
                nodes.matches (NodeRow.node_id row) (NodeRow.netuid row) row' -> row' = row) ->
  exists out,
    nodes.get_node Fernet
      (nodes.insert_symmetric_keys_for_nodes fernet_to_symmetric_key db
         (before ++ node :: after))
      (NodeRow.node_id row) (NodeRow.netuid row)
    = (Ok (Some out), [])
    /\ Node.fernet out = Some handle
    /\ Node.symmetric_key_uuid out = Node.symmetric_key_uuid node
    /\ Node.hotkey out = Node.hotkey node
    /\ Node.node_id out = NodeRow.node_id row
    /\ Node.stake out = NodeRow.stake row.
Proof.
  intros Hround Hhandle Hafter Hin Hhot Hnet Hunique.
  set (nodes := before ++ node :: after).
  set (row' := nodes.install_keys fernet_to_symmetric_key nodes row).
  assert (nodes.fetchone_node
            (nodes.insert_symmetric_keys_for_nodes fernet_to_symmetric_key db nodes)
            (NodeRow.node_id row) (NodeRow.netuid row) = Some row') as Hfetch.
  { unfold nodes.fetchone_node.
    rewrite (proj1 (insert_symmetric_keys_rows db nodes)).
    rewrite find_map.
    - pose proof (fetchone_node_Some db _ _ row Hin (conj eq_refl eq_refl) Hunique) as Hrow.
      unfold nodes.fetchone_node in Hrow. by rewrite Hrow.
    - intros x. by destruct (install_keys_identity nodes x) as (_ & -> & -> & _). }
  assert (NodeRow.symmetric_key row' = Some (fernet_to_symmetric_key handle)
          /\ NodeRow.symmetric_key_uuid row' = Node.symmetric_key_uuid node) as [Hkey Huuid].
  { unfold row', nodes, nodes.install_keys. rewrite fold_left_app. simpl.
    fold (nodes.install_keys fernet_to_symmetric_key before row).
    set (mid := nodes.install_keys fernet_to_symmetric_key before row).
    destruct (install_keys_identity before row) as (Hh & Hn & _). fold mid in Hh, Hn.
    rewrite Hhandle.
    assert (nodes.is_node (Node.hotkey node) (Node.netuid node) mid = true) as ->.
    { unfold nodes.is_node. rewrite Hh, Hn, Hhot, Hnet, String.eqb_refl, Z.eqb_refl. done. }
    match goal with |- context [fold_left ?f after ?r] =>
      change (fold_left f after r)
        with (nodes.install_keys fernet_to_symmetric_key after r) end.
    rewrite install_keys_untouched; [done|].
    eapply Forall_impl; [apply Hafter|]. intros later [Hnone|Hother]; [by left|right].
    unfold nodes.is_node. simpl. rewrite Hh, Hn, Hhot, Hnet.
    destruct Hother as [Hne|Hne].
    - apply andb_false_iff. left. apply String.eqb_neq. congruence.
    - apply andb_false_iff. right. apply Z.eqb_neq. congruence. }
  unfold nodes.get_node. rewrite Hfetch, Hkey, Hround.
  destruct (install_keys_identity nodes row) as (Hh & _ & Hid & Hstake & _).
  fold row' in Hh, Hid, Hstake.
  eexists. split; [done|]. simpl. rewrite Huuid, Hh, Hid, Hstake. done.
Qed.


(** X20 -- A freshly synced node has no key.  When the Fernet constructor
    rejects a null key, [get_node] returns the absent value for every node
    of a batch that [insert_nodes] has just put into the emptied table. *)
Theorem get_node_after_insert_nodes db batch network node :
  Fernet None = None ->
  node ∈ batch ->
  (nodes.get_node Fernet
     (nodes.insert_nodes (nodes.migrate_nodes_to_history db) batch network)
     (Node.node_id node) (Node.netuid node)).1
  = Ok None.
Proof.
  intros Hnull Hin. unfold nodes.get_node, nodes.fetchone_node. simpl.
  destruct (List.find _ _) as [row|] eqn:Hfind.
  - apply find_some in Hfind as [Hrow _]. apply in_map_iff in Hrow as (node' & <- & _).
    simpl. by rewrite Hnull.
  - apply list_elem_of_In in Hin.
    eapply find_none in Hfind; [|apply in_map_iff; exists node; split; [done|apply Hin]].
    simpl in Hfind. by rewrite !Z.eqb_refl in Hfind.
Qed.

(** X21 -- [get_nodes] gives back what [insert_nodes] stored.  After the
    table is archived and a batch inserted, [get_nodes] for a subnet
    returns the nodes of the batch that belong to the subnet, in order,
    each without handle and key identifier; and in any state [get_nodes]
    returns only nodes of the subnet asked for, none with a handle. *)
Theorem get_nodes_after_insert_nodes db batch network netuid :
  nodes.get_nodes (nodes.insert_nodes (nodes.migrate_nodes_to_history db) batch network)
    netuid
  = map nodes.forget_key (List.filter (fun node => Node.netuid node =? netuid) batch)
  /\ Forall (fun node : Node.t Handle =>
               Node.netuid node = netuid /\ Node.fernet node = None
               /\ Node.symmetric_key_uuid node = None)
       (nodes.get_nodes db netuid).
Proof.
  split.
  - unfold nodes.get_nodes, nodes.fetchall_netuid. simpl.
    induction batch as [|node batch IH]; simpl; [done|].
    destruct (Node.netuid node =? netuid); simpl; by rewrite IH.
  - unfold nodes.get_nodes, nodes.fetchall_netuid. apply Forall_forall.
    intros node (row & <- & Hrow)%list_elem_of_In%in_map_iff.
    apply filter_In in Hrow as [_ Hnet%Z.eqb_eq]. done.
Qed.

(** *** The freshness marker *)

Lemma sql_max_fold values (start : option Q) :
  let result := fold_left
                  (fun greatest value =>
                     match greatest with
                     | None => Some value
                     | Some m => Some (if Qltb m value then value else m)
                     end)
                  values start in
  match result with
  | None => start = None /\ values = []
  | Some m =>
      (Some m = start \/ m ∈ values)
      /\ (forall s, start = Some s -> (s <= m)%Q)
      /\ Forall (fun value => (value <= m)%Q) values
  end.
Proof.
  revert start. induction values as [|value values IH]; intros start; simpl.
  { destruct start as [s|]; [|done]. split; [by left|]. split; [|constructor].
    intros ? [= <-]. apply Qle_refl. }
  set (next := match start with
               | None => Some value
               | Some m => Some (if Qltb m value then value else m)
               end).
  specialize (IH next). simpl in IH.
  destruct (fold_left _ values next) as [m|].
  - destruct IH as (Hfrom & Hstart & Hall).
    assert (exists n, next = Some n /\ (value <= n)%Q
                      /\ (forall s, start = Some s -> (s <= n)%Q)
                      /\ (Some n = start \/ n = value)) as (n & Hnext & Hvalue & Hs & Hn).
    { unfold next. destruct start as [s|].
      - destruct (Qltb s value) eqn:Hlt.
        + exists value. apply Qltb_lt in Hlt. split; [done|]. split; [apply Qle_refl|].
          split; [|by right]. intros ? [= <-]. by apply Qlt_le_weak.
        + exists s. apply Qltb_ge in Hlt. split; [done|]. split; [done|].
          split; [|by left]. intros ? [= <-]. apply Qle_refl.
      - exists value. split; [done|]. split; [apply Qle_refl|]. split; [done|by right]. }
    pose proof (Hstart n Hnext) as Hnm.
    split; [|split].
    + destruct Hfrom as [Hfrom|Hfrom]; [|right; by apply list_elem_of_further].
      rewrite Hnext in Hfrom. injection Hfrom as ->.
      destruct Hn as [Hn| ->]; [by left|right; apply list_elem_of_here].
    + intros s Hs'. eapply Qle_trans; [by apply Hs|done].
    + constructor; [|done]. by eapply Qle_trans.
  - destruct IH as [Hnext _]. unfold next in Hnext. by destruct start.
Qed.

(** X22 -- [get_last_updated_time_for_nodes].  The result is absent exactly
    when the subnet has no live row; otherwise it is the creation marker of
    a live row of the subnet and no row of the subnet has a later one.
    After an archive and an insert that brings a node of the subnet, it is
    the time of that insert. *)
Theorem get_last_updated_time_for_nodes_max db netuid :
  (nodes.get_last_updated_time_for_nodes db netuid = None
   <-> forall row, row ∈ nodes_table db -> NodeRow.netuid row <> netuid)
  /\ (forall latest,
        nodes.get_last_updated_time_for_nodes db netuid = Some latest ->
        (exists row, row ∈ nodes_table db /\ NodeRow.netuid row = netuid
                     /\ NodeRow.created_at row = latest)
        /\ forall row, row ∈ nodes_table db -> NodeRow.netuid row = netuid ->
                       (NodeRow.created_at row <= latest)%Q)
  /\ (forall (batch : list (Node.t Handle)) network,
        (exists node, node ∈ batch /\ Node.netuid node = netuid) ->
        exists latest,
          nodes.get_last_updated_time_for_nodes
            (nodes.insert_nodes (nodes.migrate_nodes_to_history db) batch network) netuid
          = Some latest
          /\ (latest == current_timestamp db)%Q).
Proof.
  assert (forall db0 row,
             row ∈ nodes.fetchall_netuid db0 netuid
             <-> row ∈ nodes_table db0 /\ NodeRow.netuid row = netuid) as Hrows.
  { intros db0 row. unfold nodes.fetchall_netuid.
    by rewrite !list_elem_of_In, filter_In, Z.eqb_eq. }
  assert (forall db0,
             match nodes.get_last_updated_time_for_nodes db0 netuid with
             | None => nodes.fetchall_netuid db0 netuid = []
             | Some latest =>
                 (exists row, row ∈ nodes_table db0 /\ NodeRow.netuid row = netuid
                              /\ NodeRow.created_at row = latest)
                 /\ forall row, row ∈ nodes_table db0 -> NodeRow.netuid row = netuid ->
                                (NodeRow.created_at row <= latest)%Q
             end) as Hmax.
  { intros db0. unfold nodes.get_last_updated_time_for_nodes, nodes.sql_max.
    pose proof (sql_max_fold (map NodeRow.created_at (nodes.fetchall_netuid db0 netuid)) None)
      as Hfold.
    simpl in Hfold. destruct (fold_left _ _ None) as [latest|].
    - destruct Hfold as ([Hfrom|Hfrom] & _ & Hall); [done|]. split.
      + apply list_elem_of_In, in_map_iff in Hfrom as (row & <- & Hrow).
        apply list_elem_of_In, Hrows in Hrow as [Hin Hnet]. eauto.
      + intros row Hin Hnet. rewrite Forall_forall in Hall. apply Hall.
        apply list_elem_of_In, in_map_iff. exists row. split; [done|].
        apply list_elem_of_In, Hrows. done.
    - destruct Hfold as [_ Hnil]. by apply map_eq_nil in Hnil. }
  split; [|split].
  - specialize (Hmax db). split.
    + intros Hnone. rewrite Hnone in Hmax. intros row Hin Hnet.
      assert (row ∈ nodes.fetchall_netuid db netuid) as Hrow by (by apply Hrows).
      rewrite Hmax in Hrow. by apply elem_of_nil in Hrow.
    + intros Hnone. destruct (nodes.get_last_updated_time_for_nodes db netuid); [|done].
      destruct Hmax as [(row & Hin & Hnet & _) _]. by destruct (Hnone row Hin).
  - intros latest Hlatest. specialize (Hmax db). by rewrite Hlatest in Hmax.
  - intros batch network (node & Hnode & Hnet).
    specialize (Hmax (nodes.insert_nodes (nodes.migrate_nodes_to_history db) batch network)).
    destruct (nodes.get_last_updated_time_for_nodes _ netuid) as [latest|].
    + exists latest. split; [done|]. destruct Hmax as [(row & Hin & _ & <-) _].
      simpl in Hin. apply list_elem_of_In, in_map_iff in Hin as (node' & <- & _). done.
    + assert (nodes.inserted_row (current_timestamp db) network node
              ∈ nodes.fetchall_netuid
                  (nodes.insert_nodes (nodes.migrate_nodes_to_history db) batch network)
                  netuid) as Hrow.
      { apply Hrows. split; [|done]. simpl. apply list_elem_of_In, in_map_iff.
        exists node. by rewrite <- list_elem_of_In. }
      rewrite Hmax in Hrow. by apply elem_of_nil in Hrow.
Qed.

(** *** Sync after sync *)


End RegistryMore.

(** * Worked instances

    Each statement with a premise is exercised on the sample deployment. *)

Section Instances.
Import Sample.
#[local] Existing Instance deps.

(** The counter says 3 where the schedule believes 5: nothing is issued,
    two intervals are skipped. *)
Lemma drift_correction_witness :
  exists schedule' w',
    loop_body 3600 0 (one behind) (world 1000 (store 3) [])
    = (Ok (Continue,
           {| i := 1;
              task_schedules := heapq.heappush TaskScheduleInfo_lt [] schedule' |}),
       w')
    /\ remaining_requests schedule' = 3
    /\ next_schedule_time schedule' = (1000 + (3600 # 11) * inject_Z (5 - 3))%Q
    /\ enqueued w' = []
    /\ counters (redis_db w') = store 3.
Proof.
  destruct (drift_correction 3600 0 (one behind) (world 1000 (store 3) []) behind []
              (with_time_calls 1 (world 1000 (store 3) [])) 3)
    as (schedule' & w' & Hrun & _ & _ & Hremaining & Hnext & _ & _ & Henq & Hstore & _).
  - vm_compute; reflexivity.
  - vm_compute; reflexivity.
  - vm_compute; reflexivity.
  - reflexivity.
  - reflexivity.
  - exists schedule', w'. rewrite Hstore. repeat split; assumption.
Defined.

(** The counter says 7 where the schedule believes 5: one job is
    enqueued with cap 100 and both counters become 6. *)
Lemma issuance_step_witness :
  exists flow heap' schedule' w',
    loop_body 3600 0 (one behind) (world 1000 (store 7) [])
    = (Ok (flow, {| i := 1; task_schedules := heap' |}), w')
    /\ enqueued w' = [(chat, 100)]
    /\ counters (redis_db w') !! requests_remaining_key chat = Some 6
    /\ remaining_requests schedule' = 6
    /\ heap' ≡ₚ [schedule'].
Proof.
  destruct (issuance_step 3600 0 (one behind) (world 1000 (store 7) []) behind []
              (with_time_calls 1 (world 1000 (store 7) [])) 7)
    as (flow & heap' & schedule' & w' & Hrun & Henq & _ & Hcounter & _ & _ & Hremaining
        & _ & _ & Hheap).
  - vm_compute; reflexivity.
  - vm_compute; reflexivity.
  - vm_compute; reflexivity.
  - reflexivity.
  - intros Hgt; discriminate Hgt.
  - exists flow, heap', schedule', w'. repeat split; assumption.
Defined.

(** A counter key that is missing drops the schedule, although the
    schedule believes 5 requests remain. *)
Lemma missing_counter_is_exhausted_witness :
  _get_redis_remaining_requests chat (world 1000 ∅ []) = (Ok 0, world 1000 ∅ [])
  /\ exists flow w',
      loop_body 3600 0 (one behind) (world 1000 ∅ [])
      = (Ok (flow, {| i := 1; task_schedules := [] |}), w')
      /\ enqueued w' = []
      /\ counters (redis_db w') = ∅.
Proof.
  destruct (missing_counter_is_exhausted 3600 0 (one behind) (world 1000 ∅ []) behind [])
    as (Hread & flow & w' & Hrun & Henq & Hstore & _).
  - vm_compute; reflexivity.
  - vm_compute; reflexivity.
  - split; [exact Hread|]. exists flow, w'. rewrite Hstore. repeat split; assumption.
Defined.



(** Of five leftover items the two synthetic ones go, the others stay in
    order, the untagged one among them. *)
Lemma clear_old_synthetic_queries_purges_witness :
  exists w',
    _clear_old_synthetic_queries w0 = (Ok tt, w')
    /\ query_queue (redis_db w') = ["organic-job-1"; "untagged-job"; "organic-job-2"].
Proof.
  destruct (clear_old_synthetic_queries_purges w0) as (w' & Hrun & Hqueue & _).
  - intros item Hin. apply list_elem_of_In in Hin. simpl in Hin.
    destruct Hin as [<-|[<-|[<-|[<-|[<-|[]]]]]]; eexists; vm_compute; reflexivity.
  - exists w'. split; [exact Hrun|]. rewrite Hqueue. vm_compute; reflexivity.
Defined.


(** A wait of a minute is slept in chunks of at most two seconds; a wait
    that would end after the scoring period is not started. *)
Lemma cycle_time_bound_witness :
  (exists flow vars' w',
      loop_body 3600 0 (one upcoming) (world 1000 (store 5) []) = (Ok (flow, vars'), w')
      /\ exists chunks,
          slept w' = [] ++ chunks
          /\ Forall (fun d => (0 < d /\ d <= 2)%Q) chunks
          /\ (Qsum chunks == next_schedule_time upcoming - clock 1000 0)%Q)
  /\ (exists flow vars' w',
        loop_body 3600 0 (one too_late) (world 1000 (store 5) []) = (Ok (flow, vars'), w')
        /\ flow = Break
        /\ vars' = {| i := 0 + 1; task_schedules := [] |}
        /\ enqueued w' = []).
Proof.
  split.
  - destruct (cycle_time_bound 3600 0 (one upcoming) (world 1000 (store 5) []) upcoming [])
      as (flow & vars' & w' & Hrun & _ & _ & Hslept & _).
    + vm_compute; reflexivity.
    + exists flow, vars', w'. split; [exact Hrun|]. apply Hslept.
      * reflexivity.
      * intros Hgt; discriminate Hgt.
  - destruct (cycle_time_bound 3600 0 (one too_late) (world 1000 (store 5) []) too_late [])
      as (flow & vars' & w' & Hrun & _ & Hstop & _).
    + vm_compute; reflexivity.
    + destruct Hstop as (Hflow & Hvars & _ & Henq & _).
      * reflexivity.
      * reflexivity.
      * exists flow, vars', w'. repeat split; assumption.
Defined.

(** C7, as stated, fails -- the loop is left with the task requeued.  The
    cycle started at 0 and it is 4000, past the scoring period of 3600; the
    schedule of [chat] is overdue and its counter agrees with it.  The turn
    enqueues a job, pushes the schedule back with 4 requests remaining and
    only then leaves the loop.  In the same situation with the counter at
    3 the turn corrects the drift and does not leave the loop at all. *)
Lemma cutoff_after_issue_requeues :
  match loop_body 3600 0 (one behind) (world 4000 (store 5) []) with
  | (Ok (flow, vars'), w') =>
      flow = Break
      /\ tasks_of (task_schedules vars') = [chat]
      /\ map remaining_requests (task_schedules vars') = [4]
      /\ enqueued w' = [(chat, 100)]
      /\ (3600 < time_src w' (pred (time_calls w')) - 0)%Q
  | (Raise _, _) => False
  end
  /\ match loop_body 3600 0 (one behind) (world 4000 (store 3) []) with
     | (Ok (flow, vars'), w') =>
         flow = Continue
         /\ tasks_of (task_schedules vars') = [chat]
         /\ (3600 < time_src w' (pred (time_calls w')) - 0)%Q
     | (Raise _, _) => False
     end.
Proof. vm_compute. repeat split. Qed.


(** Archiving the two sample rows and inserting one fresh node: the live
    table holds the fresh node alone, without a key, and the history table
    the two rows that were live. *)
Example archival_round_example :
  map NodeRow.hotkey
    (nodes_table (nodes.insert_nodes (nodes.migrate_nodes_to_history db) [carol] "finney"))
  = ["5Carol"]
  /\ map NodeRow.symmetric_key
       (nodes_table (nodes.insert_nodes (nodes.migrate_nodes_to_history db) [carol] "finney"))
     = [None]
  /\ map HistoryRow.hotkey
       (nodes_history_table
          (nodes.insert_nodes (nodes.migrate_nodes_to_history db) [carol] "finney"))
     = ["5Alice"; "5Bob"].
Proof. vm_compute. repeat split. Qed.
(** In the prepared cycle, also after another instance has written to the
    store, the queue is a heap and the schedule at its head is the
    earliest. *)
Lemma earliest_schedule_first_witness :
  is_heapb TaskScheduleInfo_lt (task_schedules vars0) = true
  /\ forall other,
       other ∈ task_schedules vars0 ->
       (next_schedule_time first <= next_schedule_time other)%Q.
Proof.
  destruct (earliest_schedule_first config w0 start_time vars0 w1 (Continue, vars0, w2))
    as [Hheap Hfirst].
  - vm_compute; reflexivity.
  - apply rtc_once. apply store_step.
  - split; [exact Hheap|]. apply (Hfirst first others). vm_compute; reflexivity.
Defined.

(** The schedule at the head of the prepared queue has requests left and
    the interval of its task. *)
Lemma queued_schedules_sound_witness :
  0 < remaining_requests first
  /\ 0 < total_requests first
  /\ interval first = (3600 * 1 / inject_Z (total_requests first + 1))%Q.
Proof.
  refine (queued_schedules_sound config w0 start_time vars0 w1 (Continue, vars0, w2)
            _ _ first _).
  - vm_compute; reflexivity.
  - apply rtc_once. apply store_step.
  - apply list_elem_of_In. vm_compute. auto.
Defined.

(** The two contenders of [chat-llama] form one group, in loading order;
    the task without a configuration has none. *)
Lemma group_contenders_by_task_groups_witness :
  (chat, [Contender.mk chat 60; Contender.mk chat 40]) ∈ _group_contenders_by_task contenders.
Proof.
  apply (proj2 (group_contenders_by_task_groups contenders chat
                  [Contender.mk chat 60; Contender.mk chat 40])).
  split; [|split].
  - exists {| volume_to_requests_conversion := 10; enabled := true |}.
    vm_compute; reflexivity.
  - intros Heq; discriminate Heq.
  - vm_compute; reflexivity.
Defined.

(** A list among the items: the purge raises and the queue is intact. *)
Lemma clear_old_synthetic_queries_all_or_nothing_witness :
  exists e, _clear_old_synthetic_queries spoiled = (Raise e, spoiled).
Proof.
  destruct (proj1 (clear_old_synthetic_queries_all_or_nothing spoiled) "a-list")
    as (e & Hrun & _).
  - apply list_elem_of_further, list_elem_of_here.
  - intros fields Heq; discriminate Heq.
  - exists e. exact Hrun.
Defined.

(** Purging the purged queue changes nothing. *)
Lemma clear_old_synthetic_queries_idempotent_witness :
  _clear_old_synthetic_queries purged = (Ok tt, purged).
Proof.
  apply (clear_old_synthetic_queries_idempotent w0 purged).
  vm_compute; reflexivity.
Defined.

(** The prepared cycle has published the 10 requests of the schedule at
    its head, or the 14 of the other. *)
Lemma prepare_cycle_publishes_witness :
  counters (redis_db w1) !! requests_remaining_key (task first)
  = Some (total_requests first)
  /\ query_queue (redis_db w1) = ["organic-job-1"; "untagged-job"; "organic-job-2"]
  /\ enqueued w1 = [].
Proof.
  destruct (prepare_cycle_publishes config w0 start_time vars0 w1)
    as (Hcounters & _ & Hqueue & Henq & _).
  - vm_compute; reflexivity.
  - destruct (Hcounters first) as [Hcounter _].
    + apply list_elem_of_In. vm_compute. auto.
    + split; [exact Hcounter|]. split; [|exact Henq].
      rewrite Hqueue. vm_compute; reflexivity.
Defined.

(** A turn that issues: one job for [chat-llama], the counter goes from 7
    to 6. *)
Lemma turn_effects_witness :
  enqueued turn_world = [(chat, 100)]
  /\ latest_in turn_world chat = 6
  /\ i turn_vars = 1.
Proof.
  destruct (turn_effects 3600 0 (one behind) (world 1000 (store 7) [])
              turn_flow turn_vars turn_world)
    as (schedule & rest & Hpop & Hi & _ & Heffects).
  - intros Heq; discriminate Heq.
  - vm_compute; reflexivity.
  - assert (Some (schedule, rest) = Some (behind, [])) as Heq
      by (rewrite <- Hpop; reflexivity).
    injection Heq as -> ->.
    destruct Heffects as [[Henq _]|(Henq & _ & Hlatest & _)].
    + vm_compute in Henq. discriminate Henq.
    + split; [exact Henq|]. split; [exact Hlatest|exact Hi].
Defined.

Lemma sample_enqueue_keeps_counters task_id max_len store :
  counters (enqueue task_id max_len store) = counters store.
Proof. unfold enqueue. destruct (_ <? _); reflexivity. Qed.

(** Two turns of the prepared cycle: the jobs enqueued stay within the
    budget of the task at the head of the queue. *)
Lemma lone_cycle_budget_witness :
  exists jobs,
    enqueued ran.2 = enqueued w1 ++ jobs
    /\ issued_for (task first) jobs <= total_requests first.
Proof.
  destruct (lone_cycle_budget (H := deps) sample_enqueue_keeps_counters 2 config w0 start_time vars0 w1
              ran.1 ran.2)
    as (jobs & Henq & _ & Hbudget).
  - vm_compute; reflexivity.
  - exact (surjective_pairing ran).
  - exists jobs. split; [exact Henq|]. apply Hbudget.
    apply list_elem_of_In. vm_compute. auto.
Defined.

(** The prepared cycle plans 24 requests: 24 turns are enough. *)
Lemma lone_cycle_ends_witness :
  exists tasks w',
    schedule_synthetics_until_done 24 config w0 = (Ok (Some tasks), w')
    /\ last (slept w') = Some 10%Q.
Proof.
  apply (lone_cycle_ends (H := deps) sample_enqueue_keeps_counters 24 config w0 start_time vars0 w1).
  - vm_compute; reflexivity.
  - vm_compute. intros Hgt; discriminate Hgt.
Defined.


(** With the disabled task and the unknown one alone the cycle purges the
    queue, sleeps 10 seconds and is done. *)
Lemma nothing_enabled_cycle_witness :
  exists w',
    schedule_synthetics_until_done (H := idle_deps) 5 config w0 = (Ok (Some []), w')
    /\ slept w' = [] ++ [10%Q]
    /\ enqueued w' = [].
Proof.
  destruct (nothing_enabled_cycle (H := idle_deps) 5 config w0)
    as (w' & Hrun & _ & _ & Henq & Hslept & _).
  - intros contender Hin. apply list_elem_of_In in Hin. simpl in Hin.
    destruct Hin as [<-|[<-|[]]]; vm_compute; reflexivity.
  - intros item Hin. apply list_elem_of_In in Hin. simpl in Hin.
    destruct Hin as [<-|[<-|[<-|[<-|[<-|[]]]]]]; eexists; vm_compute; reflexivity.
  - exists w'. split; [exact Hrun|]. split; [exact Hslept|exact Henq].
Defined.

Lemma sample_rows row' :
  row' ∈ nodes_table db -> row' = keyed \/ row' = unkeyed.
Proof.
  intros Hin. apply list_elem_of_In in Hin. simpl in Hin.
  destruct Hin as [<-|[<-|[]]]; [left|right]; reflexivity.
Qed.

(** Hotkeys are unique in the sample table: each maps to its stake. *)
Lemma get_node_stakes_lookup_witness :
  nodes.get_node_stakes db 19 !! "5Bob" = Some 1000%Q.
Proof.
  refine (proj2 (proj2 (get_node_stakes_lookup db 19)) _ unkeyed _ _).
  - intros row row' Hin Hin' _ _ Hkey.
    destruct (sample_rows row Hin) as [-> | ->], (sample_rows row' Hin') as [-> | ->];
      try reflexivity; discriminate Hkey.
  - apply list_elem_of_further, list_elem_of_here.
  - reflexivity.
Defined.

(** Marking [5Bob] in a table without flags: the lookup finds [5Bob]. *)
Lemma update_our_vali_then_get_witness :
  nodes.get_vali_ss58_address (nodes.update_our_vali_node_in_db db "5Bob" 19) 19
  = (Some "5Bob", false)
  /\ nodes.get_vali_ss58_address db 19 = (None, true).
Proof.
  destruct (update_our_vali_then_get db "5Bob" 19) as [Hmarked Hnone]. split.
  - apply Hmarked.
    + exists unkeyed. split; [apply list_elem_of_further, list_elem_of_here|].
      split; reflexivity.
    + intros row' Hin _ Hflag.
      destruct (sample_rows row' Hin) as [-> | ->]; discriminate Hflag.
  - apply Hnone. intros row' Hin _.
    destruct (sample_rows row' Hin) as [-> | ->]; reflexivity.
Defined.

(** Marking [5Alice] and then [5Bob] leaves two flagged rows. *)
Lemma update_our_vali_keeps_flags_witness :
  nodes.flagged
    (nodes.update_our_vali_node_in_db (nodes.update_our_vali_node_in_db db "5Alice" 19)
       "5Bob" 19) 19
  = ["5Alice"; "5Bob"]
  /\ (2 <= length
            (nodes.flagged
               (nodes.update_our_vali_node_in_db
                  (nodes.update_our_vali_node_in_db db "5Alice" 19) "5Bob" 19) 19))%nat.
Proof.
  destruct (proj2 (update_our_vali_keeps_flags db "5Alice" "5Bob" 19))
    as (_ & _ & Htwo).
  - exists keyed. split; [apply list_elem_of_here|]. split; reflexivity.
  - exists unkeyed. split; [apply list_elem_of_further, list_elem_of_here|].
    split; reflexivity.
  - intros Heq; discriminate Heq.
  - split; [vm_compute; reflexivity|exact Htwo].
Defined.

(** The handle that comes with [bob] is installed in the row of [5Bob]
    and read back by [get_node]. *)
Lemma insert_symmetric_keys_then_get_node_witness :
  exists out,
    nodes.get_node make_handle
      (nodes.insert_symmetric_keys_for_nodes key_of db ([] ++ bob :: [carol])) 2 19
    = (Ok (Some out), [])
    /\ Node.fernet out = Node.fernet bob
    /\ Node.symmetric_key_uuid out = Some "uuid-2".
Proof.
  destruct (insert_symmetric_keys_then_get_node make_handle key_of db [] bob [carol]
              "BBBBBBBBBBBBBBBBBBBBBBBBBBBBBBBBBBBBBBBBBBB=" unkeyed)
    as (out & Hrun & Hfernet & Hid & _).
  - reflexivity.
  - reflexivity.
  - constructor; [|constructor]. right. left. intros Heq; discriminate Heq.
  - apply list_elem_of_further, list_elem_of_here.
  - reflexivity.
  - reflexivity.
  - intros row' Hin [Hrow _].
    destruct (sample_rows row' Hin) as [-> | ->]; [discriminate Hrow|reflexivity].
  - exists out. split; [exact Hrun|]. split; [exact Hfernet|exact Hid].
Defined.


(** [5Carol] was just synced: it has no key yet and [get_node] gives the
    absent value. *)
Lemma get_node_after_insert_nodes_witness :
  (nodes.get_node make_handle
     (nodes.insert_nodes (nodes.migrate_nodes_to_history db) [carol] "finney") 3 19).1
  = Ok None.
Proof.
  apply (get_node_after_insert_nodes make_handle db [carol] "finney" carol).
  - reflexivity.
  - apply list_elem_of_here.
Defined.

(** The sample rows were created at 900; after a sync at 1000 the subnet
    was last updated at 1000, and a subnet without rows has no time. *)
Lemma get_last_updated_time_for_nodes_max_witness :
  nodes.get_last_updated_time_for_nodes db 7 = None
  /\ exists latest,
       nodes.get_last_updated_time_for_nodes
         (nodes.insert_nodes (nodes.migrate_nodes_to_history db) [carol] "finney") 19
       = Some latest
       /\ (latest == 1000)%Q.
Proof.
  destruct (get_last_updated_time_for_nodes_max (Handle := string) db 7) as [Hnone _].
  destruct (get_last_updated_time_for_nodes_max (Handle := string) db 19) as (_ & _ & Hsync).
  split.
  - apply Hnone. intros row' Hin Heq.
    destruct (sample_rows row' Hin) as [-> | ->]; discriminate Heq.
  - apply (Hsync [carol] "finney"). exists carol. split; [apply list_elem_of_here|reflexivity].
Defined.
(** The prepared queue, popped to the end, gives its schedules in due
    order. *)
Lemma schedules_left_in_due_order_witness :
  exists schedules_left,
    pop_all (length (task_schedules vars0)) (task_schedules vars0) = (schedules_left, [])
    /\ StronglySorted
         (fun s1 s2 => (next_schedule_time s1 <= next_schedule_time s2)%Q) schedules_left.
Proof.
  destruct (schedules_left_in_due_order (task_schedules vars0))
    as (schedules_left & Hrun & _ & Hsorted).
  - vm_compute; reflexivity.
  - exists schedules_left. split; [exact Hrun|exact Hsorted].
Defined.

(** With a conversion constant of 0 for [text-to-image] the cycle raises
    the division error and the leftovers are still on the queue. *)
Lemma zero_conversion_aborts_witness :
  exists w',
    schedule_synthetics_until_done (H := zero_deps) 5 config w0
    = (Raise ZeroDivisionError, w')
    /\ redis_db w' = redis_db w0.
Proof.
  destruct (zero_conversion_aborts (H := zero_deps) 5 config w0 (Contender.mk image 100)
              {| volume_to_requests_conversion := 0; enabled := true |})
    as (_ & w' & Hrun & Hstore & _).
  - apply list_elem_of_further, list_elem_of_here.
  - vm_compute; reflexivity.
  - reflexivity.
  - reflexivity.
  - exists w'. split; [exact Hrun|exact Hstore].
Defined.
End Instances.
